(** * Synthetic business-process generator: a shallow embedding

  The development follows the source files that carry the logic
  of the repository:

  - [data_gen/ProcessDataGenerator.py]: the working-time timestamp
    scheduler, the per-case event loop and the constructor with its
    departments, resources and cost ranges;
  - [data_gen/ProcessGenerator.py]: random generation of a process graph
    and its repair pass;
  - [data_gen/NameGenerator.py]: the names of the processes;
  - [generator.py]: the worker threads that drain the queue of names.

  Python values are modelled as the code has them: integers as [Z],
  strings as [string], [datetime] as a record over the proleptic
  Gregorian ordinal, dictionaries as [gmap], exceptions as an explicit
  result type, the random source as a stream of raw draws. *)

From Stdlib Require Import ZArith Lia List Permutation.
From stdpp Require Import base tactics option list gmap strings pretty relations sorting.

(** ** Python results: a value, a raised exception, or an exhausted loop budget *)

Module Py.

(** The exception classes that the modelled code can raise or catch.
    [SystemExit_] and [KeyboardInterrupt_] derive from [BaseException]
    only; every other class derives from [Exception]. *)
Inductive exn : Type :=
| ValueError
| IndexError
| KeyError
| OverflowError
| AttributeError
| TypeError
| Empty
| RequestException
| OtherException
| SystemExit_
| KeyboardInterrupt_.

#[global] Instance exn_eq_dec : EqDecision exn.
Proof. solve_decision. Defined.

(** [isinstance(e, Exception)] *)
Definition is_Exception (e : exn) : bool :=
  match e with
  | SystemExit_ | KeyboardInterrupt_ => false
  | _ => true
  end.

(** Outcome of running a piece of Python code.  [OutOfFuel] is not a
    Python outcome: it marks a [while] loop of the model that used up
    the iteration budget it was given. *)
Inductive result (A : Type) : Type :=
| Ok (a : A)
| Raise (e : exn)
| OutOfFuel.
Arguments Ok {A} a.
Arguments Raise {A} e.
Arguments OutOfFuel {A}.

Definition rbind {A B} (r : result A) (k : A -> result B) : result B :=
  match r with
  | Ok a => k a
  | Raise e => Raise e
  | OutOfFuel => OutOfFuel
  end.

Definition returns {A} (r : result A) : Prop := exists a, r = Ok a.

(** *** The [random] module

    The random source is the stream of raw numbers it will hand out;
    a stream that is used up keeps answering 0.  Every function below
    maps a raw number onto the values the Python function can return,
    so quantifying over all streams covers all runs. *)
Definition rng : Type := list nat.

Definition draw (g : rng) : nat * rng :=
  match g with
  | [] => (0%nat, [])
  | r :: g' => (r, g')
  end.

(** [random.randint(a, b)]: [ValueError] on an empty range. *)
Definition randint (a b : Z) (g : rng) : result (Z * rng) :=
  if (a <=? b)%Z then
    let '(r, g') := draw g in
    Ok ((a + Z.of_nat r mod (b - a + 1))%Z, g')
  else Raise ValueError.

(** [random.choice(seq)]: [IndexError] on an empty sequence. *)
Definition choice {A} (seq : list A) (g : rng) : result (A * rng) :=
  let '(r, g') := draw g in
  match seq !! (r mod length seq)%nat with
  | Some x => Ok (x, g')
  | None => Raise IndexError
  end.

(** [random.sample(population, k)]: [k] elements at distinct positions,
    in the order they are drawn. *)
Fixpoint sample_aux {A} (pool : list A) (k : nat) (g : rng) : list A * rng :=
  match k with
  | O => ([], g)
  | S k' =>
      let '(r, g') := draw g in
      let i := (r mod length pool)%nat in
      match pool !! i with
      | Some x =>
          let '(xs, g'') := sample_aux (delete i pool) k' g' in (x :: xs, g'')
      | None => ([], g')
      end
  end.

Definition sample {A} (population : list A) (k : Z) (g : rng)
  : result (list A * rng) :=
  if ((k <? 0) || (Z.of_nat (length population) <? k))%Z then Raise ValueError
  else Ok (sample_aux population (Z.to_nat k) g).

End Py.
Import Py.

Declare Scope py_scope.
Delimit Scope py_scope with py.
Notation "'let*' p ':=' r 'in' k" := (rbind r (fun p => k))
(at level 10, p pattern, r at level 100, k at level 200, only parsing) : py_scope.

(** ** [datetime] and [timedelta] *)

Module DateTime.
Local Open Scope Z_scope.
Local Open Scope py_scope.

(** A naive [datetime]: the date as its proleptic Gregorian ordinal
    ([date.toordinal()], day 1 is 0001-01-01) and the time of day. *)
Record datetime : Type := mkdt {
  ordinal : Z;
  hour : Z;
  minute : Z;
  second : Z;
  microsecond : Z
}.

#[global] Instance datetime_eq_dec : EqDecision datetime.
Proof. solve_decision. Defined.

(** [datetime.max.toordinal()], the ordinal of 9999-12-31. *)
Definition MAXORDINAL : Z := 3652059.

(** The values the [datetime] constructor accepts. *)
Definition wf (t : datetime) : Prop :=
  1 <= ordinal t <= MAXORDINAL /\
  0 <= hour t < 24 /\ 0 <= minute t < 60 /\ 0 <= second t < 60 /\
  0 <= microsecond t < 1000000.

Definition wfb (t : datetime) : bool :=
  (1 <=? ordinal t) && (ordinal t <=? MAXORDINAL) &&
  (0 <=? hour t) && (hour t <? 24) && (0 <=? minute t) && (minute t <? 60) &&
  (0 <=? second t) && (second t <? 60) &&
  (0 <=? microsecond t) && (microsecond t <? 1000000).

(** Calendar arithmetic of the [datetime] module, used to write dates
    as year, month, day. *)
Definition is_leap (y : Z) : bool :=
  (y mod 4 =? 0) && (negb (y mod 100 =? 0) || (y mod 400 =? 0)).

Definition days_before_year (y : Z) : Z :=
  let p := y - 1 in p * 365 + p / 4 - p / 100 + p / 400.

Definition days_in_month (y m : Z) : Z :=
  if m =? 2 then (if is_leap y then 29 else 28)
  else if (m =? 4) || (m =? 6) || (m =? 9) || (m =? 11) then 30 else 31.

Fixpoint days_before_month_aux (y : Z) (k : nat) : Z :=
  match k with
  | O => 0
  | S k' => days_before_month_aux y k' + days_in_month y (Z.of_nat k)
  end.

Definition days_before_month (y m : Z) : Z :=
  days_before_month_aux y (Z.to_nat (m - 1)).

Definition ymd2ord (y m d : Z) : Z :=
  days_before_year y + days_before_month y m + d.

(** [datetime(y, mo, d, h, mi)] *)
Definition datetime_of (y mo d h mi : Z) : datetime :=
  mkdt (ymd2ord y mo d) h mi 0 0.

(** [t.weekday()]: Monday is 0, Sunday is 6. *)
Definition weekday (t : datetime) : Z := (ordinal t + 6) mod 7.

(** A [timedelta], as its total number of microseconds. *)
Definition timedelta : Type := Z.

Definition US_PER_SECOND : Z := 1000000.
Definition US_PER_MINUTE : Z := 60 * US_PER_SECOND.
Definition US_PER_HOUR : Z := 60 * US_PER_MINUTE.
Definition US_PER_DAY : Z := 24 * US_PER_HOUR.

(** The [timedelta] constructor refuses more than 999999999 days. *)
Definition mk_timedelta (us : Z) : result timedelta :=
  if (-999999999 <=? us / US_PER_DAY) && (us / US_PER_DAY <=? 999999999)
  then Ok us else Raise OverflowError.

Definition timedelta_minutes (m : Z) : result timedelta :=
  mk_timedelta (m * US_PER_MINUTE).

Definition timedelta_days (d : Z) : result timedelta :=
  mk_timedelta (d * US_PER_DAY).

(** Microseconds since the start of ordinal day 0. *)
Definition to_us (t : datetime) : Z :=
  (((ordinal t * 24 + hour t) * 60 + minute t) * 60 + second t) * US_PER_SECOND
  + microsecond t.

Definition of_us (u : Z) : datetime :=
  mkdt (u / US_PER_DAY) ((u / US_PER_HOUR) mod 24) ((u / US_PER_MINUTE) mod 60)
       ((u / US_PER_SECOND) mod 60) (u mod US_PER_SECOND).

(** [t + delta] ([datetime.__add__]): the sum is formed on ordinal and
    time of day and refused when its date leaves [1, MAXORDINAL]. *)
Definition datetime_add (t : datetime) (delta : timedelta) : result datetime :=
  let u := to_us t + delta in
  if (0 <? u / US_PER_DAY) && (u / US_PER_DAY <=? MAXORDINAL)
  then Ok (of_us u) else Raise OverflowError.

(** [t.replace(hour=h, minute=m)] keeps date, second and microsecond. *)
Definition replace_hour_minute (t : datetime) (h m : Z) : datetime :=
  mkdt (ordinal t) h m (second t) (microsecond t).

(** Comparison of naive datetimes. *)
Definition dt_le (a b : datetime) : Prop := to_us a <= to_us b.
Definition dt_lt (a b : datetime) : Prop := to_us a < to_us b.

End DateTime.
Import DateTime.

(** ** [ProcessDataGenerator]: timestamps and case events *)

Module ProcessDataGenerator.
Local Open Scope Z_scope.
Local Open Scope py_scope.

(** [h in range(9, 18)] *)
Definition working_hours (h : Z) : bool := (9 <=? h) && (h <? 18).

(** The condition of the [while] loop of [_generate_timestamp]. *)
Definition outside_working_time (t : datetime) : bool :=
  negb (working_hours (hour t)) || (5 <=? weekday t).

(** First half of the loop body: the evening and the morning snap. *)
Definition snap_hours (current_time : datetime) : result datetime :=
  if 18 <=? hour current_time then
    let* one_day := timedelta_days 1 in
    datetime_add (replace_hour_minute current_time 9 0) one_day
  else if hour current_time <? 9 then
    Ok (replace_hour_minute current_time 9 0)
  else Ok current_time.

(** Second half of the loop body: the weekend skip. *)
Definition skip_weekend (current_time : datetime) : result datetime :=
  if 5 <=? weekday current_time then
    let* skip := timedelta_days (8 - weekday current_time) in
    datetime_add current_time skip
  else Ok current_time.

(** One pass through the body of the loop. *)
Definition roll_body (current_time : datetime) : result datetime :=
  let* current_time := snap_hours current_time in
  skip_weekend current_time.

(** The [while] loop, with a budget of passes through its body. *)
Fixpoint roll (fuel : nat) (current_time : datetime) : result datetime :=
  if outside_working_time current_time then
    match fuel with
    | O => OutOfFuel
    | S fuel' => let* current_time := roll_body current_time in roll fuel' current_time
    end
  else Ok current_time.

(** [base_time + timedelta(minutes=activity_duration)] *)
Definition naive_instant (base_time : datetime) (activity_duration : Z)
  : result datetime :=
  let* delta := timedelta_minutes activity_duration in
  datetime_add base_time delta.

Definition generate_timestamp_fuel (fuel : nat)
    (base_time : datetime) (activity_duration : Z) : result datetime :=
  let* current_time := naive_instant base_time activity_duration in
  roll fuel current_time.

(** [_generate_timestamp]: one pass through the loop body is all the
    loop ever needs (see [roll_fuel_irrelevant]). *)
Definition _generate_timestamp (base_time : datetime) (activity_duration : Z)
  : result datetime :=
  generate_timestamp_fuel 1 base_time activity_duration.

(** [_generate_case_path]: a random walk from START until END is
    reached.  [graph[current]] raises [KeyError] on a missing key and
    [random.choice] raises [IndexError] on a node without successors. *)
Fixpoint case_path_loop (fuel : nat) (process_graph : gmap string (list string))
    (current : string) (path : list string) (g : rng)
  : result (list string * rng) :=
  if decide (current = "END") then Ok (path, g)
  else
    match fuel with
    | O => OutOfFuel
    | S fuel' =>
        match process_graph !! current with
        | None => Raise KeyError
        | Some possible_next =>
            let* (current, g) := choice possible_next g in
            case_path_loop fuel' process_graph current (path ++ [current]) g
        end
    end.

Definition _generate_case_path (fuel : nat)
    (process_graph : gmap string (list string)) (g : rng)
  : result (list string * rng) :=
  case_path_loop fuel process_graph "START" ["START"] g.

(** The columns of an event row that carry time.  The other columns
    (case attributes, resource, cost, status, system, automation flag)
    are drawn independently of the timestamps and are left out. *)
Record event : Type := mkevent {
  activity : string;
  timestamp : datetime;
  complete_timestamp : datetime;
  duration_minutes : Z
}.

(** [_generate_activity_attributes], as far as the duration goes:
    [base_duration = random.randint(30, 480)]. *)
Definition _generate_activity_attributes (g : rng) : result (Z * rng) :=
  randint 30 480 g.

(** The loop [for activity in path] of [generate_data]. *)
Fixpoint path_events (path : list string) (current_time : datetime) (g : rng)
  : result (list event * rng) :=
  match path with
  | [] => Ok ([], g)
  | activity :: path' =>
      if decide (activity = "START" \/ activity = "END") then
        path_events path' current_time g
      else
        let* (duration, g) := _generate_activity_attributes g in
        let* timestamp := _generate_timestamp current_time 0 in
        let* complete_timestamp := _generate_timestamp timestamp duration in
        let* (events, g) := path_events path' complete_timestamp g in
        Ok (mkevent activity timestamp complete_timestamp duration :: events, g)
  end.

(** One iteration of the loop over cases: a path through the graph,
    then its events from the case's starting instant.  The starting
    instant, [start_date + (end_date - start_date) * random.random()],
    is floating-point arithmetic on the Python side and enters here as
    an arbitrary [datetime]. *)
Definition generate_case (fuel : nat) (process_graph : gmap string (list string))
    (case_start : datetime) (g : rng) : result (list event * rng) :=
  let* (path, g) := _generate_case_path fuel process_graph g in
  path_events path case_start g.

End ProcessDataGenerator.
Import ProcessDataGenerator.

(** ** [ProcessGenerator]: random graph and repair pass *)

Module ProcessGenerator.
Local Open Scope py_scope.

(** *** Lists and strings as Python uses them *)

(** [l.remove(x)] under the guard [if x in l]: the first occurrence goes. *)
Fixpoint remove_first (x : string) (l : list string) : list string :=
  match l with
  | [] => []
  | y :: l' => if decide (y = x) then l' else y :: remove_first x l'
  end.

(** [l.index(x)] for an [x] that occurs in [l] (the only use in the
    source: both arguments of the comparisons are drawn from [l]). *)
Fixpoint list_index (x : string) (l : list string) : nat :=
  match l with
  | [] => 0
  | y :: l' => if decide (y = x) then 0 else S (list_index x l')
  end.

(** [l.insert(-1, x)]: before the last element; at the front of an
    empty list. *)
Definition insert_before_last (x : string) (l : list string) : list string :=
  take (length l - 1) l ++ x :: drop (length l - 1) l.

(** [l[1:-1]] *)
Definition inner_slice (l : list string) : list string :=
  drop 1 (take (length l - 1) l).

(** [l[-1]] of a non-empty list *)
Definition last_item (l : list string) : result string :=
  match last l with
  | Some x => Ok x
  | None => Raise IndexError
  end.

(** [d[k]] *)
Definition getitem {V} (d : gmap string V) (k : string) : result V :=
  match d !! k with
  | Some v => Ok v
  | None => Raise KeyError
  end.

Definition is_space (c : Ascii.ascii) : bool :=
  let n := Ascii.nat_of_ascii c in
  ((9 <=? n) && (n <=? 13) || (28 <=? n) && (n <=? 32))%nat.

Definition newline : Ascii.ascii := Ascii.ascii_of_nat 10.
Definition double_quote : Ascii.ascii := Ascii.ascii_of_nat 34.
Definition single_quote : Ascii.ascii := Ascii.ascii_of_nat 39.
Definition blank : Ascii.ascii := Ascii.ascii_of_nat 32.

Fixpoint lstrip (cs : list Ascii.ascii) : list Ascii.ascii :=
  match cs with
  | c :: cs' => if is_space c then lstrip cs' else cs
  | [] => []
  end.

(** [s.strip()], on the ASCII white space. *)
Definition strip (cs : list Ascii.ascii) : list Ascii.ascii :=
  reverse (lstrip (reverse (lstrip cs))).

(** The clean-up of the answer: [strip()], then every newline replaced by
    a blank, then every double and every single quote removed. *)
Definition clean_name (answer : string) : string :=
  let cs := strip (String.list_ascii_of_string answer) in
  let cs := map (fun c => if decide (c = newline) then blank else c) cs in
  let cs := filter (fun c => c <> double_quote) cs in
  let cs := filter (fun c => c <> single_quote) cs in
  String.string_of_list_ascii cs.

(** *** The generator object *)

(** The naming service behind a connector: what its successive
    [get_answer] calls will do, [None] for a call that raises (or
    answers something that is no string); a service that has run out of
    answers raises. *)
Definition connector : Type := list (option string).

Definition get_answer (c : connector) : option string * connector :=
  match c with
  | [] => (None, [])
  | answer :: c' => (answer, c')
  end.

(** The attributes of a [ProcessGenerator] that the graph depends on,
    together with the state of the module [random]. *)
Record generator : Type := mkgen {
  min_nodes : Z;
  max_nodes : Z;
  min_connections : Z;
  max_connections : Z;
  graph : gmap string (list string);
  nodes : list string;
  lmstudio_connector : option connector;
  used_names : gset string;
  random : rng
}.

Definition set_graph (g : gmap string (list string)) (self : generator) : generator :=
  mkgen (min_nodes self) (max_nodes self) (min_connections self)
        (max_connections self) g (nodes self) (lmstudio_connector self)
        (used_names self) (random self).

Definition set_nodes (l : list string) (self : generator) : generator :=
  mkgen (min_nodes self) (max_nodes self) (min_connections self)
        (max_connections self) (graph self) l (lmstudio_connector self)
        (used_names self) (random self).

Definition set_random (r : rng) (self : generator) : generator :=
  mkgen (min_nodes self) (max_nodes self) (min_connections self)
        (max_connections self) (graph self) (nodes self) (lmstudio_connector self)
        (used_names self) r.

Definition set_connector (c : connector) (self : generator) : generator :=
  mkgen (min_nodes self) (max_nodes self) (min_connections self)
        (max_connections self) (graph self) (nodes self) (Some c)
        (used_names self) (random self).

Definition add_used_name (name : string) (self : generator) : generator :=
  mkgen (min_nodes self) (max_nodes self) (min_connections self)
        (max_connections self) (graph self) (nodes self) (lmstudio_connector self)
        ({[name]} ∪ used_names self) (random self).

Definition __init__ (min_nodes max_nodes min_connections max_connections : Z)
    (lmstudio_connector : option connector) (random : rng) : generator :=
  mkgen (Z.max 3 min_nodes) max_nodes (Z.max 1 min_connections)
        (Z.max (Z.max 1 min_connections) max_connections)
        ∅ [] lmstudio_connector {["START"; "END"]} random.

(** *** [_generate_connections] *)

(** The body of the loop for the node at position [i]. *)
Definition connect_node (i : nat) (node : string) (self : generator)
  : result generator :=
  if decide (node = "END") then Ok self
  else
    let remaining_nodes := drop (S i) (nodes self) in
    if decide (remaining_nodes = []) then Ok self
    else
      let max_possible_connections := Z.of_nat (length remaining_nodes) in
      let actual_max_connections :=
        Z.min (max_connections self) max_possible_connections in
      let actual_min_connections :=
        Z.min (min_connections self) max_possible_connections in
      let actual_min_connections :=
        if (actual_max_connections <? actual_min_connections)%Z
        then actual_max_connections else actual_min_connections in
      let* (num_connections, r) :=
        randint actual_min_connections actual_max_connections (random self) in
      let* (targets, r) := sample remaining_nodes num_connections r in
      Ok (set_random r (set_graph (<[node := targets]> (graph self)) self)).

(** [for i, node in enumerate(self.nodes)], from position [i] on. *)
Fixpoint connect_from (i : nat) (todo : list string) (self : generator)
  : result generator :=
  match todo with
  | [] => Ok self
  | node :: todo' =>
      let* self := connect_node i node self in
      connect_from (S i) todo' self
  end.

Definition _generate_connections (self : generator) : result generator :=
  connect_from 0 (nodes self) self.

(** *** [_ensure_valid_process] *)

(** First loop: what happens to the target list of [node]. *)
Definition strip_targets (node : string) (targets : list string) : list string :=
  let targets := remove_first "START" targets in
  if decide (node = "START") then remove_first "END" targets else targets.

Definition clear_start_and_end (self : generator) : generator :=
  let g := map_imap (fun node targets => Some (strip_targets node targets))
                    (graph self) in
  let g := if decide (is_Some (g !! "END")) then <["END" := []]> g else g in
  set_graph g self.

(** The nodes that are neither START nor END. *)
Definition middle_nodes (l : list string) : list string :=
  filter (fun n => n <> "START" /\ n <> "END") l.

(** The fallback of the source when there is no activity at all. *)
Definition add_single_activity (self : generator) : generator :=
  let new_node := "Activity_1" in
  let self := set_nodes (insert_before_last new_node (nodes self)) self in
  set_graph (<["START" := [new_node]]> (<[new_node := ["END"]]> (graph self))) self.

Definition ensure_start_has_target (self : generator) : result generator :=
  let* start_targets := getitem (graph self) "START" in
  if decide (start_targets = []) then
    let possible_targets := middle_nodes (nodes self) in
    if decide (possible_targets = []) then Ok (add_single_activity self)
    else
      let* (target, r) := choice possible_targets (random self) in
      Ok (set_random r (set_graph (<["START" := [target]]> (graph self)) self))
  else Ok self.

Definition ensure_outgoing (node : string) (self : generator) : result generator :=
  let* targets := getitem (graph self) node in
  if decide (targets = []) then
    let possible_targets :=
      filter (fun n => (n <> "START" /\ n <> node) /\
                       list_index node (nodes self) < list_index n (nodes self))
             (nodes self) in
    let possible_targets :=
      if decide ("END" ∈ possible_targets /\ 1 < length possible_targets)
      then remove_first "END" possible_targets else possible_targets in
    if decide (possible_targets = []) then
      Ok (set_graph (<[node := ["END"]]> (graph self)) self)
    else
      let* (target, r) := choice possible_targets (random self) in
      Ok (set_random r (set_graph (<[node := [target]]> (graph self)) self))
  else Ok self.

(** Whether some target list mentions [node]. *)
Definition has_incoming (g : gmap string (list string)) (node : string) : bool :=
  bool_decide (map_Exists (fun _ targets => node ∈ targets) g).

Definition ensure_incoming (node : string) (self : generator) : result generator :=
  if has_incoming (graph self) node then Ok self
  else
    let possible_sources :=
      filter (fun n => (n <> "END" /\ n <> node) /\
                       list_index n (nodes self) < list_index node (nodes self))
             (nodes self) in
    if decide (possible_sources = []) then
      let* start_targets := getitem (graph self) "START" in
      Ok (set_graph (<["START" := start_targets ++ [node]]> (graph self)) self)
    else
      let* (source, r) := choice possible_sources (random self) in
      let self := set_random r self in
      let* source_targets := getitem (graph self) source in
      if decide (node ∈ source_targets) then Ok self
      else Ok (set_graph (<[source := source_targets ++ [node]]> (graph self)) self).

(** The body of the loop over the activity nodes. *)
Definition repair_node (node : string) (self : generator) : result generator :=
  if decide (node = "START" \/ node = "END") then Ok self
  else
    let* self := ensure_outgoing node self in
    ensure_incoming node self.

Fixpoint repair_nodes (todo : list string) (self : generator) : result generator :=
  match todo with
  | [] => Ok self
  | node :: todo' =>
      let* self := repair_node node self in
      repair_nodes todo' self
  end.

Definition has_path_to_end (g : gmap string (list string)) : bool :=
  bool_decide (map_Exists (fun node targets => node <> "START" /\ "END" ∈ targets) g).

(** [[n for n in l if not self.graph[n]]] *)
Fixpoint without_targets (g : gmap string (list string)) (l : list string)
  : result (list string) :=
  match l with
  | [] => Ok []
  | n :: l' =>
      let* targets := getitem g n in
      let* rest := without_targets g l' in
      Ok (if decide (targets = []) then n :: rest else rest)
  end.

(** [self.graph[n].append('END')] *)
Definition append_end (n : string) (self : generator) : result generator :=
  let* targets := getitem (graph self) n in
  Ok (set_graph (<[n := targets ++ ["END"]]> (graph self)) self).

Definition ensure_path_to_end (self : generator) : result generator :=
  if has_path_to_end (graph self) then Ok self
  else
    let* last_nodes := without_targets (graph self) (inner_slice (nodes self)) in
    if decide (last_nodes = []) then
      let middle := middle_nodes (nodes self) in
      if decide (middle = []) then Ok (add_single_activity self)
      else
        let* n := last_item middle in
        append_end n self
    else
      let* n := last_item last_nodes in
      append_end n self.

Definition _ensure_valid_process (self : generator) : result generator :=
  let self := clear_start_and_end self in
  let* self := ensure_start_has_target self in
  let* self := repair_nodes (nodes self) self in
  ensure_path_to_end self.

(** *** [_get_activity_name] *)

(** The loop [[while activity_name in self.used_names: ...]] that appends
    a counter to [base_name]. *)
Fixpoint number_name (fuel : nat) (base_name activity_name : string) (counter : nat)
    (used : gset string) : result string :=
  if decide (activity_name ∈ used) then
    match fuel with
    | O => OutOfFuel
    | S fuel' =>
        number_name fuel' base_name (base_name +:+ " " +:+ pretty counter)
                    (S counter) used
    end
  else Ok activity_name.

(** The loop [[while f"Activity_{counter}" in self.used_names]] of the
    handler. *)
Fixpoint fallback_counter (fuel : nat) (counter : nat) (used : gset string)
  : result nat :=
  if decide ("Activity_" +:+ pretty counter ∈ used) then
    match fuel with
    | O => OutOfFuel
    | S fuel' => fallback_counter fuel' (S counter) used
    end
  else Ok counter.

(** [_get_activity_name] for a node that is neither START nor END of a
    generator with a connector [c].  The prompt, and with it the node
    and its neighbours, influences only what the naming service answers,
    which is arbitrary here.  [budget] bounds the recursion on
    [attempt]; both loops get one pass more than there are used names. *)
Fixpoint get_activity_name (budget : nat) (attempt : nat) (c : connector)
    (self : generator) : result (string * generator) :=
  let fuel := S (size (used_names self)) in
  match get_answer c with
  | (Some answer, c) =>
      let self := set_connector c self in
      let activity_name := clean_name answer in
      if decide (activity_name ∈ used_names self) then
        if decide (attempt < 3) then
          match budget with
          | O => OutOfFuel
          | S budget' => get_activity_name budget' (S attempt) c self
          end
        else
          let* activity_name :=
            number_name fuel activity_name activity_name 1 (used_names self) in
          Ok (activity_name, add_used_name activity_name self)
      else Ok (activity_name, add_used_name activity_name self)
  | (None, c) =>
      let self := set_connector c self in
      let* counter := fallback_counter fuel 1 (used_names self) in
      let fallback_name := "Activity_" +:+ pretty counter in
      Ok (fallback_name, add_used_name fallback_name self)
  end.

Definition _get_activity_name (node : string) (self : generator)
  : result (string * generator) :=
  match lmstudio_connector self with
  | None => Ok (node, self)
  | Some c =>
      if decide (node = "START" \/ node = "END") then Ok (node, self)
      else get_activity_name 3 1 c self
  end.

(** *** [generate_process] *)

(** [[f'Activity_{i+1}' for i in range(num_nodes - 2)]] *)
Definition activity_names (num_nodes : Z) : list string :=
  map (fun i => "Activity_" +:+ pretty (S i)) (seq 0 (Z.to_nat (num_nodes - 2))).

Definition empty_graph (l : list string) : gmap string (list string) :=
  foldl (fun g node => <[node := []]> g) ∅ l.

(** The loop that names the middle nodes: the mapping from old to new
    names and the new node list. *)
Fixpoint rename_nodes (todo : list string) (node_mapping : gmap string string)
    (new_nodes : list string) (self : generator)
  : result (gmap string string * list string * generator) :=
  match todo with
  | [] => Ok (node_mapping, new_nodes, self)
  | node :: todo' =>
      if decide (node = "START" \/ node = "END") then
        rename_nodes todo' node_mapping new_nodes self
      else
        let* outgoing_nodes := getitem (graph self) node in
        let* (new_name, self) := _get_activity_name node self in
        rename_nodes todo' (<[node := new_name]> node_mapping)
                     (new_nodes ++ [new_name]) self
  end.

(** One item of the loop that rebuilds the graph under the new names. *)
Definition rename_item (node_mapping : gmap string string)
    (item : string * list string) : result (string * list string) :=
  let* new_node := getitem node_mapping item.1 in
  match mapM (fun t => node_mapping !! t) item.2 with
  | Some targets => Ok (new_node, targets)
  | None => Raise KeyError
  end.

Fixpoint rename_items (node_mapping : gmap string string)
    (its : list (string * list string)) : result (list (string * list string)) :=
  match its with
  | [] => Ok []
  | item :: its' =>
      let* item := rename_item node_mapping item in
      let* rest := rename_items node_mapping its' in
      Ok (item :: rest)
  end.

(** The relabelling block of [generate_process].  The new keys are
    pairwise distinct, so the order in which the dictionary is walked
    does not show in the result. *)
Definition relabel (self : generator) : result generator :=
  let node_mapping : gmap string string :=
    <["END" := "END"]> (<["START" := "START"]> ∅) in
  let* (node_mapping, new_nodes, self) :=
    rename_nodes (nodes self) node_mapping ["START"; "END"] self in
  let* renamed := rename_items node_mapping (map_to_list (graph self)) in
  Ok (set_nodes new_nodes (set_graph (list_to_map renamed) self)).

Definition generate_process (self : generator)
  : result (gmap string (list string) * generator) :=
  let self := set_graph ∅ self in
  let* (num_nodes, r) := randint (min_nodes self) (max_nodes self) (random self) in
  let self := set_random r self in
  let self := set_nodes (["START"; "END"] ++ activity_names num_nodes) self in
  let self := set_graph (empty_graph (nodes self)) self in
  let* self := _generate_connections self in
  let* self := _ensure_valid_process self in
  let* self :=
    match lmstudio_connector self with
    | Some _ => relabel self
    | None => Ok self
    end in
  Ok (graph self, self).

End ProcessGenerator.

(** ** [ProcessDataGenerator.__init__]: departments, resources, cost ranges

    The constructor of [ProcessDataGenerator] asks the naming service for
    the departments of the process and derives resources and cost ranges
    from them.  White space is the ASCII white space, as for [strip]
    above; what the [except] clause prints is left out. *)

Module ProcessDataGeneratorInit.
Import ProcessGenerator.
Local Open Scope py_scope.

Definition comma : Ascii.ascii := Ascii.ascii_of_nat 44.

(** [s.split(sep)] for a separator of one character; [piece] holds the
    characters of the piece being read, last one first. *)
Fixpoint split_aux (sep : Ascii.ascii) (piece cs : list Ascii.ascii)
  : list (list Ascii.ascii) :=
  match cs with
  | [] => [reverse piece]
  | c :: cs' =>
      if decide (c = sep) then reverse piece :: split_aux sep [] cs'
      else split_aux sep (c :: piece) cs'
  end.

Definition split_on (sep : Ascii.ascii) (s : string) : list string :=
  String.string_of_list_ascii <$> split_aux sep [] (String.list_ascii_of_string s).

(** [s.split()]: the maximal runs of characters that are no white space. *)
Fixpoint words_aux (word cs : list Ascii.ascii) : list (list Ascii.ascii) :=
  match cs with
  | [] => if decide (word = []) then [] else [reverse word]
  | c :: cs' =>
      if is_space c then
        if decide (word = []) then words_aux [] cs'
        else reverse word :: words_aux [] cs'
      else words_aux (c :: word) cs'
  end.

Definition split_whitespace (s : string) : list string :=
  String.string_of_list_ascii <$> words_aux [] (String.list_ascii_of_string s).

(** [s.strip()] *)
Definition str_strip (s : string) : string :=
  String.string_of_list_ascii (strip (String.list_ascii_of_string s)).

(** [dept.split()[0]] *)
Definition first_word (dept : string) : result string :=
  match split_whitespace dept !! 0 with
  | Some w => Ok w
  | None => Raise IndexError
  end.

Definition FALLBACK_DEPARTMENTS : list string :=
  ["Sales"; "Operations"; "Customer Service"; "Finance"; "Legal"].

(** [_generate_departments]: the answer of the naming service, cut at
    the commas and stripped; the fallback list when there is no
    connector or the request fails. *)
Definition _generate_departments (lmstudio_connector : option connector)
  : list string * option connector :=
  match lmstudio_connector with
  | Some c =>
      match get_answer c with
      | (Some departments_str, c) =>
          (str_strip <$> split_on comma departments_str, Some c)
      | (None, c) => (FALLBACK_DEPARTMENTS, Some c)
      end
  | None => (FALLBACK_DEPARTMENTS, None)
  end.

(** [[f"{dept_prefix}_Agent_{i}" for i in range(1, num_resources + 1)]] *)
Definition agents (dept_prefix : string) (num_resources : Z) : list string :=
  (fun i : nat => dept_prefix +:+ "_Agent_" +:+ pretty i)
    <$> seq 1 (Z.to_nat num_resources).

(** [_generate_resources] *)
Fixpoint _generate_resources (departments : list string) (g : rng)
  : result (list string * rng) :=
  match departments with
  | [] => Ok ([], g)
  | dept :: departments' =>
      let* (num_resources, g) := randint 2 3 g in
      let* dept_prefix := first_word dept in
      let* (resources, g) := _generate_resources departments' g in
      Ok (agents dept_prefix num_resources ++ resources, g)
  end.

(** [_generate_default_cost_ranges]: the dictionary comprehension over
    [enumerate(self.departments)], from index [i] on; a department that
    occurs again overwrites its earlier entry. *)
Fixpoint cost_ranges_from (i : nat) (departments : list string)
    (ranges : gmap string (Z * Z)) : gmap string (Z * Z) :=
  match departments with
  | [] => ranges
  | dept :: departments' =>
      cost_ranges_from (S i) departments'
        (<[dept := (50 + Z.of_nat i * 20, 150 + Z.of_nat i * 20)%Z]> ranges)
  end.

Definition _generate_default_cost_ranges (departments : list string)
  : gmap string (Z * Z) :=
  cost_ranges_from 0 departments ∅.

Definition _generate_cost_ranges (departments : list string)
  : gmap string (Z * Z) :=
  _generate_default_cost_ranges departments.

(** The attributes of a [ProcessDataGenerator], together with the
    state of the module [random]. *)
Record data_generator : Type := mkdata {
  process_graph : gmap string (list string);
  num_cases : Z;
  start_date : datetime;
  end_date : datetime;
  process_name : string;
  connector : option ProcessGenerator.connector;
  departments : list string;
  resources : list string;
  cost_ranges : gmap string (Z * Z);
  random : rng
}.

Definition __init__ (process_graph : gmap string (list string)) (num_cases : Z)
    (start_date end_date : datetime)
    (lmstudio_connector : option ProcessGenerator.connector)
    (process_name : string) (g : rng) : result data_generator :=
  let '(departments, lmstudio_connector) :=
    _generate_departments lmstudio_connector in
  let* (resources, g) := _generate_resources departments g in
  let cost_ranges := _generate_cost_ranges departments in
  Ok (mkdata process_graph num_cases start_date end_date process_name
             lmstudio_connector departments resources cost_ranges g).

(** The two look-ups that [_generate_activity_attributes] makes for the
    department of the case: its cost range, and the resources offered
    to [random.choice] (those whose name starts with the first word of
    the department, or all of them when there is none). *)
Definition department_lookups (self : data_generator) (department : string)
  : result ((Z * Z) * list string) :=
  let* cost_range := getitem (cost_ranges self) department in
  let* dept_prefix := first_word department in
  let dept_resources :=
    filter (fun r => String.prefix dept_prefix r = true) (resources self) in
  Ok (cost_range,
      if decide (dept_resources = []) then resources self else dept_resources).

End ProcessDataGeneratorInit.

(** ** [NameGenerator] *)

Module NameGenerator.

Definition FIRST_WORDS : list string :=
  ["Submit"; "Review"; "Approve"; "Verify"; "Check"; "Update"; "Process";
   "Validate"; "Evaluate"; "Confirm"; "Send"; "Receive"; "Forward"; "Archive";
   "Generate"; "Schedule"; "Track"; "Monitor"; "Record"; "Assign"; "Initiate";
   "Complete"; "Modify"; "Register"; "Create"; "Assess"; "Calculate";
   "Document"; "File"; "Handle"; "Prepare"; "Analyze"; "Store"; "Transfer";
   "Notify"; "Log"; "Enter"; "Export"; "Import"; "Plan"; "Route"; "Sign";
   "Scan"; "Print"; "Match"; "Collect"; "Release"; "Save"; "Format";
   "Dispatch"].

Definition SECOND_WORDS : list string :=
  ["Request"; "Form"; "Application"; "Documents"; "Dates"; "Schedule";
   "Calendar"; "Period"; "Status"; "Approval"; "Records"; "Details";
   "Information"; "Notification"; "Coverage"; "Balance"; "Duration";
   "Eligibility"; "Submission"; "Workflow"; "Data"; "History";
   "Authorization"; "Confirmation"; "Availability"; "Policy"; "Requirements";
   "Verification"; "Certificate"; "Permission"; "Documentation"; "Timeframe";
   "Evidence"; "Proof"; "Response"; "Report"; "Comments"; "Feedback";
   "Reference"; "Timeline"; "Signature"; "Attachments"; "Compliance";
   "Guidelines"; "Credentials"; "Conditions"; "Agreement"; "Summary";
   "Statistics"; "Validation"].

(** [[f'{first} {second}' for first in FIRST_WORDS for second in SECOND_WORDS]] *)
Definition get_all_names : list string :=
  flat_map (fun first => map (fun second => first +:+ " " +:+ second) SECOND_WORDS)
           FIRST_WORDS.

Definition get_total : nat := (length FIRST_WORDS * length SECOND_WORDS)%nat.

End NameGenerator.

(** ** [generator.py]: the worker threads and [main] *)

Module Generator.
Local Open Scope py_scope.

(** *** [queue.Queue], as far as the program uses it *)
Record Queue : Type := mkQueue {
  items : list string;
  unfinished_tasks : nat
}.

Definition new_Queue : Queue := mkQueue [] 0.

Definition put (item : string) (q : Queue) : Queue :=
  mkQueue (items q ++ [item]) (S (unfinished_tasks q)).

(** [q.get_nowait()] raises [queue.Empty] on an empty queue. *)
Definition get_nowait (q : Queue) : result (string * Queue) :=
  match items q with
  | [] => Raise Empty
  | item :: rest => Ok (item, mkQueue rest (unfinished_tasks q))
  end.

(** [q.task_done()] raises [ValueError] when called more often than
    items were put. *)
Definition task_done (q : Queue) : result Queue :=
  match unfinished_tasks q with
  | O => Raise ValueError
  | S n => Ok (mkQueue (items q) n)
  end.

(** The names bound in the body of the class [queue.Queue].  The
    exception [Empty] is a sibling class in the module [queue], not an
    attribute of [Queue]; [empty] is the method that tests for
    emptiness. *)
Definition Queue_attributes : list string :=
  ["__init__"; "task_done"; "join"; "qsize"; "empty"; "full"; "put"; "get";
   "put_nowait"; "get_nowait"; "shutdown"; "_init"; "_qsize"; "_put"; "_get";
   "__class_getitem__"].

(** Evaluating the expression [Queue.<name>] with
    [from queue import Queue] in force. *)
Definition getattr_Queue (name : string) : result string :=
  if bool_decide (name ∈ Queue_attributes) then Ok name
  else Raise AttributeError.

(** *** What one job's pipeline does

    The pipeline talks to the naming service and the file system, so
    its outcome is a parameter: either every stage succeeded, or some
    stage raised.  [str_e] is [str(e)] of the raised exception and
    [improved_name] the name the naming service returned (unused when the
    naming request itself failed). *)
Inductive stage : Type :=
| Naming
| GraphGeneration
| Rendering
| DataGeneratorSetup
| SaveToCsv.

Inductive pipeline_outcome : Type :=
| Completed (improved_name : string)
| Failed (at_stage : stage) (improved_name : string) (e : exn) (str_e : string).

(** Whether [print(f"Thread ...: Process ... created")] has run when
    the given stage fails. *)
Definition created_printed (st : stage) : bool :=
  match st with
  | Naming | GraphGeneration => false
  | Rendering | DataGeneratorSetup | SaveToCsv => true
  end.

Definition created_line (thread_id : nat) (process_name : string) : string :=
  "Thread " +:+ pretty thread_id +:+ ": Process " +:+ process_name +:+ " created".

Definition data_created_line (thread_id : nat) (process_name : string) : string :=
  "Thread " +:+ pretty thread_id +:+ ": Data for process " +:+ process_name
    +:+ " created".

Definition error_line (thread_id : nat) (str_e : string) : string :=
  "Thread " +:+ pretty thread_id +:+ " encountered an error: " +:+ str_e.

(** *** Threads *)
Inductive thread_state : Type :=
| NotStarted
| LoopHead
| Holding (process_name : string)
| Finished (uncaught : option exn).

Inductive main_pc : Type :=
| Starting (i : nat)
| QueueJoin
| ThreadJoin (i : nat)
| AllCompleted.

#[global] Instance thread_state_eq_dec : EqDecision thread_state.
Proof. solve_decision. Defined.

#[global] Instance main_pc_eq_dec : EqDecision main_pc.
Proof. solve_decision. Defined.

(** The state shared by the threads.  [stdout] holds the lines that
    [ProcessWorker.run] and [main] print themselves; what the pipeline
    stages print on their own is left out.  [handled] is an observation
    record, not program state: it lists, in order, which thread ran the
    pipeline of which queue item. *)
Record pool : Type := mkpool {
  name_queue : Queue;
  workers : list thread_state;
  stdout : list string;
  handled : list (nat * string);
  main_at : main_pc
}.

Definition set_worker (thread_id : nat) (w : thread_state) (s : pool) : pool :=
  mkpool (name_queue s) (<[thread_id := w]> (workers s)) (stdout s) (handled s)
         (main_at s).

Definition set_main (pc : main_pc) (s : pool) : pool :=
  mkpool (name_queue s) (workers s) (stdout s) (handled s) pc.

Definition set_queue (q : Queue) (s : pool) : pool :=
  mkpool q (workers s) (stdout s) (handled s) (main_at s).

Definition print (lines : list string) (s : pool) : pool :=
  mkpool (name_queue s) (workers s) (stdout s ++ lines) (handled s) (main_at s).

Definition record_handled (thread_id : nat) (process_name : string) (s : pool) : pool :=
  mkpool (name_queue s) (workers s) (stdout s)
         (handled s ++ [(thread_id, process_name)]) (main_at s).

(** The first [try] statement of [run]:
    [[
      try:    process_name = self.name_queue.get_nowait()
      except Queue.Empty: break
    ]]
    When the body raises, the handler's expression [Queue.Empty] is
    evaluated to find out whether the handler applies.  [Ok None] stands
    for [break]. *)
Definition try_pop (q : Queue) : result (option (string * Queue)) :=
  match get_nowait q with
  | Raise e =>
      let* handler := getattr_Queue "Empty" in
      (* an attribute of [Queue] is no exception class *)
      Raise TypeError
  | popped => let* item := popped in Ok (Some item)
  end.

Section WithPipeline.
Variable pipeline : nat -> string -> pipeline_outcome.

(** The second [try] statement of [run], up to its [finally]: the
    lines printed, and the exception still pending when the handler
    [except Exception] does not apply. *)
Definition job_body (thread_id : nat) (process_name : string)
  : list string * option exn :=
  match pipeline thread_id process_name with
  | Completed improved =>
      ([created_line thread_id improved; data_created_line thread_id improved],
       None)
  | Failed st improved e str_e =>
      let printed :=
        if created_printed st then [created_line thread_id improved] else [] in
      if is_Exception e then (printed ++ [error_line thread_id str_e], None)
      else (printed, Some e)
  end.

(** One step of worker [thread_id]: at the head of the loop the pop,
    with an item in hand its whole pipeline and [task_done()]. *)
Definition step_worker (thread_id : nat) (s : pool) : option pool :=
  match workers s !! thread_id with
  | Some LoopHead =>
      match try_pop (name_queue s) with
      | Ok (Some (process_name, q)) =>
          Some (set_worker thread_id (Holding process_name) (set_queue q s))
      | Ok None => Some (set_worker thread_id (Finished None) s)
      | Raise e => Some (set_worker thread_id (Finished (Some e)) s)
      | OutOfFuel => None
      end
  | Some (Holding process_name) =>
      let '(lines, pending) := job_body thread_id process_name in
      let s := record_handled thread_id process_name (print lines s) in
      match task_done (name_queue s) with
      | Ok q =>
          let next :=
            match pending with
            | None => LoopHead
            | Some e => Finished (Some e)
            end in
          Some (set_worker thread_id next (set_queue q s))
      | Raise e => Some (set_worker thread_id (Finished (Some e)) s)
      | OutOfFuel => None
      end
  | _ => None
  end.

(** One step of the main thread, after the queue has been filled:
    start the next worker, wait in [name_queue.join()] until no task
    is unfinished, wait in [worker.join()] for each worker in turn,
    print the final line.  [None]: the main thread is blocked. *)
Definition step_main (s : pool) : option pool :=
  match main_at s with
  | Starting i =>
      if decide (i < length (workers s)) then
        Some (set_main (Starting (S i)) (set_worker i LoopHead s))
      else Some (set_main QueueJoin s)
  | QueueJoin =>
      if decide (unfinished_tasks (name_queue s) = 0) then
        Some (set_main (ThreadJoin 0) s)
      else None
  | ThreadJoin i =>
      match workers s !! i with
      | Some (Finished _) => Some (set_main (ThreadJoin (S i)) s)
      | Some _ => None
      | None => Some (set_main AllCompleted (print ["All processes completed!"] s))
      end
  | AllCompleted => None
  end.

Inductive actor : Type :=
| MainThread
| Worker (thread_id : nat).

Definition step_of (a : actor) (s : pool) : option pool :=
  match a with
  | MainThread => step_main s
  | Worker thread_id => step_worker thread_id s
  end.

(** Any thread that can move may move next. *)
Definition step (s s' : pool) : Prop := exists a, step_of a s = Some s'.

(** Running a schedule; a thread that cannot move is passed over. *)
Fixpoint exec (schedule : list actor) (s : pool) : pool :=
  match schedule with
  | [] => s
  | a :: schedule' => exec schedule' (default s (step_of a s))
  end.

End WithPipeline.

(** [[
      for _ in range(nameGen.get_total()):
          if names: name_queue.put(names.pop())
    ]] *)
Fixpoint populate (total : nat) (names : list string) (q : Queue) : Queue :=
  match total with
  | O => q
  | S total' =>
      match last names with
      | Some name => populate total' (removelast names) (put name q)
      | None => populate total' names q
      end
  end.

(** The state in which [main(num_threads)] creates its workers. *)
Definition initial (names : list string) (total num_threads : nat) : pool :=
  mkpool (populate total names new_Queue) (replicate num_threads NotStarted)
         [] [] (Starting 0).

(** Whether [needle] occurs in [line]. *)
Definition occurs_in (needle line : string) : bool :=
  bool_decide (is_Some (String.index 0 needle line)).

End Generator.

(** * Properties *)

(** ** Calendar arithmetic *)

Module DateTimeFacts.
Local Open Scope Z_scope.

Ltac unfold_units :=
  unfold US_PER_DAY, US_PER_HOUR, US_PER_MINUTE, US_PER_SECOND, MAXORDINAL in *.

Ltac euclid := unfold_units; Z.div_mod_to_equations; lia.

Lemma wfb_wf t : wfb t = true <-> wf t.
Proof.
  unfold wfb, wf. rewrite !andb_true_iff.
  rewrite !Z.leb_le, !Z.ltb_lt. tauto.
Qed.

Lemma to_us_day t :
  0 <= hour t < 24 -> 0 <= minute t < 60 -> 0 <= second t < 60 ->
  0 <= microsecond t < 1000000 ->
  forall d, (to_us t + d * US_PER_DAY) / US_PER_DAY = ordinal t + d.
Proof. intros Hh Hm Hs Hu d. unfold to_us. euclid. Qed.

Lemma of_us_to_us_days t d :
  wf t -> of_us (to_us t + d * US_PER_DAY) =
          mkdt (ordinal t + d) (hour t) (minute t) (second t) (microsecond t).
Proof.
  intros (Ho & Hh & Hm & Hs & Hu). unfold of_us.
  rewrite to_us_day by assumption.
  f_equal; unfold to_us; euclid.
Qed.

Lemma of_us_to_us t : wf t -> of_us (to_us t) = t.
Proof.
  intros Hw. generalize (of_us_to_us_days t 0 Hw).
  rewrite Z.mul_0_l, !Z.add_0_r. destruct t; auto.
Qed.

Lemma to_us_of_us u : to_us (of_us u) = u.
Proof. unfold to_us, of_us; cbn. euclid. Qed.

Lemma wf_of_us u :
  0 < u / US_PER_DAY <= MAXORDINAL -> wf (of_us u).
Proof. unfold wf, of_us; cbn. intros H. repeat split; euclid. Qed.

Lemma timedelta_days_small d :
  -999999999 <= d <= 999999999 -> timedelta_days d = Ok (d * US_PER_DAY).
Proof.
  intros Hd. unfold timedelta_days, mk_timedelta.
  replace (d * US_PER_DAY / US_PER_DAY) with d by euclid.
  destruct (Z.leb_spec (-999999999) d), (Z.leb_spec d 999999999); try lia.
  reflexivity.
Qed.

(** Adding whole days moves the ordinal and nothing else, and is
    refused exactly when the ordinal leaves the calendar. *)
Lemma datetime_add_days t d :
  wf t ->
  datetime_add t (d * US_PER_DAY) =
    if (0 <? ordinal t + d) && (ordinal t + d <=? MAXORDINAL)
    then Ok (mkdt (ordinal t + d) (hour t) (minute t) (second t) (microsecond t))
    else Raise OverflowError.
Proof.
  intros Hw. unfold datetime_add.
  rewrite of_us_to_us_days by assumption.
  destruct Hw as (Ho & Hh & Hm & Hs & Hu).
  rewrite to_us_day by assumption. reflexivity.
Qed.

Lemma datetime_add_ok t delta r :
  datetime_add t delta = Ok r ->
  wf r /\ to_us r = to_us t + delta.
Proof.
  unfold datetime_add. intros H.
  destruct (0 <? _) eqn:E1; [|discriminate].
  destruct (_ <=? MAXORDINAL) eqn:E2; [|discriminate].
  cbn in H. injection H as <-.
  apply Z.ltb_lt in E1. apply Z.leb_le in E2.
  split; [apply wf_of_us; lia | apply to_us_of_us].
Qed.

Lemma weekday_range t : 0 <= weekday t < 7.
Proof. unfold weekday. apply Z.mod_pos_bound. lia. Qed.

End DateTimeFacts.

(** ** The timestamp scheduler *)

Module TimestampFacts.
Import DateTimeFacts.
Local Open Scope Z_scope.

Definition same_time_of_day (a b : datetime) : Prop :=
  hour a = hour b /\ minute a = minute b /\ second a = second b /\
  microsecond a = microsecond b.

(** The working window: Monday to Friday, 09:00 up to 18:00. *)
Definition in_working_window (t : datetime) : Prop :=
  9 <= hour t < 18 /\ 0 <= weekday t <= 4.

Lemma outside_working_time_false t :
  outside_working_time t = false <-> in_working_window t.
Proof.
  unfold outside_working_time, working_hours, in_working_window.
  pose proof (weekday_range t).
  destruct (Z.leb_spec 9 (hour t)), (Z.ltb_spec (hour t) 18),
    (Z.leb_spec 5 (weekday t)); cbn; split; intros; try discriminate;
    try reflexivity; lia.
Qed.

Lemma snap_hours_spec t :
  wf t ->
  match snap_hours t with
  | Ok r =>
      wf r /\ 9 <= hour r < 18 /\ to_us t <= to_us r /\
      second r = second t /\ microsecond r = microsecond t /\
      ordinal t <= ordinal r <= ordinal t + 1 /\
      (9 <= hour t < 18 -> r = t) /\
      (~ 9 <= hour t < 18 -> hour r = 9 /\ minute r = 0)
  | Raise e => e = OverflowError /\ MAXORDINAL < ordinal t + 1
  | OutOfFuel => False
  end.
Proof.
  intros Hw. pose proof Hw as (Ho & Hh & Hm & Hs & Hu).
  unfold snap_hours.
  destruct (Z.leb_spec 18 (hour t)) as [H18|H18].
  - rewrite timedelta_days_small by lia. cbn [rbind].
    rewrite datetime_add_days by (unfold wf, replace_hour_minute; cbn; lia).
    cbn [replace_hour_minute ordinal hour minute second microsecond].
    destruct (Z.ltb_spec 0 (ordinal t + 1)); [|lia].
    destruct (Z.leb_spec (ordinal t + 1) MAXORDINAL); cbn [andb].
    + unfold wf, to_us; cbn. unfold_units. repeat split; try lia.
    + split; [reflexivity | lia].
  - destruct (Z.ltb_spec (hour t) 9) as [H9|H9].
    + unfold wf, to_us, replace_hour_minute; cbn. unfold_units.
      repeat split; try lia.
    + repeat split; try lia; try tauto.
Qed.

Lemma weekday_after_skip o :
  (o + (8 - (o + 6) mod 7) + 6) mod 7 = 1.
Proof. Z.div_mod_to_equations; lia. Qed.

Lemma skip_weekend_spec t :
  wf t ->
  match skip_weekend t with
  | Ok r =>
      wf r /\ 0 <= weekday r <= 4 /\ same_time_of_day r t /\
      to_us t <= to_us r /\
      (weekday t <= 4 -> r = t) /\
      (5 <= weekday t -> ordinal t < ordinal r <= ordinal t + 3)
  | Raise e => e = OverflowError /\ MAXORDINAL < ordinal t + 3
  | OutOfFuel => False
  end.
Proof.
  intros Hw. pose proof Hw as (Ho & Hh & Hm & Hs & Hu).
  pose proof (weekday_range t) as Hwd.
  unfold skip_weekend.
  destruct (Z.leb_spec 5 (weekday t)) as [H5|H5].
  - rewrite timedelta_days_small by lia. cbn [rbind].
    rewrite datetime_add_days by assumption.
    destruct (Z.ltb_spec 0 (ordinal t + (8 - weekday t))); [|lia].
    destruct (Z.leb_spec (ordinal t + (8 - weekday t)) MAXORDINAL); cbn [andb].
    + unfold wf, same_time_of_day, to_us; cbn.
      assert (weekday (mkdt (ordinal t + (8 - weekday t)) (hour t) (minute t)
                         (second t) (microsecond t)) = 1) as ->
        by (unfold weekday; cbn; apply weekday_after_skip).
      unfold_units. repeat split; try lia.
    + split; [reflexivity | lia].
  - unfold same_time_of_day. repeat split; try lia.
Qed.

Lemma roll_body_spec t :
  wf t ->
  match roll_body t with
  | Ok r => wf r /\ in_working_window r /\ to_us t <= to_us r
  | Raise e => e = OverflowError /\ MAXORDINAL < ordinal t + 4
  | OutOfFuel => False
  end.
Proof.
  intros Hw. unfold roll_body.
  pose proof (snap_hours_spec t Hw) as H1.
  destruct (snap_hours t) as [c| |]; cbn [rbind];
    [|split; [apply H1|lia]|tauto].
  destruct H1 as (Hwc & Hhc & Hle & _ & _ & Hoc & _).
  pose proof (skip_weekend_spec c Hwc) as H2.
  destruct (skip_weekend c) as [r| |]; [|split; [apply H2|lia]|tauto].
  destruct H2 as (Hwr & Hwd & (Hh & _) & Hle2 & _).
  split; [assumption|]. split; [|lia].
  unfold in_working_window. lia.
Qed.

(** The loop never needs a second pass: after one pass through the body
    the candidate is inside the working window. *)
Lemma roll_spec fuel t :
  wf t ->
  match roll (S fuel) t with
  | Ok r => wf r /\ in_working_window r /\ to_us t <= to_us r
  | Raise e => e = OverflowError /\ MAXORDINAL < ordinal t + 4
  | OutOfFuel => False
  end.
Proof.
  intros Hw. cbn [roll].
  destruct (outside_working_time t) eqn:Hout.
  - pose proof (roll_body_spec t Hw) as Hb.
    destruct (roll_body t) as [c| |]; cbn [rbind]; [|assumption|tauto].
    destruct Hb as (Hwc & Hin & Hle).
    apply outside_working_time_false in Hin as Hout'.
    destruct fuel; cbn [roll]; rewrite Hout'; auto.
  - apply outside_working_time_false in Hout.
    split; [assumption|]. split; [assumption|lia].
Qed.

Lemma roll_fuel_irrelevant fuel t :
  wf t -> roll (S fuel) t = roll 1 t.
Proof.
  intros Hw. cbn [roll].
  destruct (outside_working_time t) eqn:Hout; [|reflexivity].
  pose proof (roll_body_spec t Hw) as Hb.
  destruct (roll_body t) as [c| |]; cbn [rbind]; try reflexivity.
  destruct Hb as (_ & Hin & _).
  apply outside_working_time_false in Hin.
  destruct fuel; cbn [roll]; rewrite Hin; reflexivity.
Qed.

Lemma roll_in_range fuel t :
  wf t -> ordinal t + 4 <= MAXORDINAL -> returns (roll (S fuel) t).
Proof.
  intros Hw Hr. pose proof (roll_spec fuel t Hw) as H.
  destruct (roll (S fuel) t) as [r| |]; [eexists; eauto|lia|tauto].
Qed.

Lemma naive_instant_ok base dur n :
  naive_instant base dur = Ok n ->
  wf n /\ to_us n = to_us base + dur * US_PER_MINUTE.
Proof.
  unfold naive_instant, timedelta_minutes, mk_timedelta.
  destruct (_ && _); cbn [rbind]; [|discriminate].
  apply datetime_add_ok.
Qed.

Lemma generate_timestamp_fuel_spec fuel base dur :
  match generate_timestamp_fuel (S fuel) base dur with
  | Ok r =>
      wf r /\ in_working_window r /\
      to_us base + dur * US_PER_MINUTE <= to_us r
  | Raise e => e = OverflowError
  | OutOfFuel => False
  end.
Proof.
  unfold generate_timestamp_fuel.
  destruct (naive_instant base dur) as [n| |] eqn:Hn; cbn [rbind].
  - apply naive_instant_ok in Hn as (Hwn & Hus).
    pose proof (roll_spec fuel n Hwn) as Hr.
    destruct (roll (S fuel) n); [|tauto|tauto].
    destruct Hr as (? & ? & ?).
    split; [assumption|]. split; [assumption|lia].
  - unfold naive_instant, timedelta_minutes, mk_timedelta, datetime_add in Hn.
    repeat (destruct (_ && _) in Hn; cbn [rbind] in Hn); congruence.
  - unfold naive_instant, timedelta_minutes, mk_timedelta, datetime_add in Hn.
    repeat (destruct (_ && _) in Hn; cbn [rbind] in Hn); congruence.
Qed.

Lemma generate_timestamp_spec base dur :
  match _generate_timestamp base dur with
  | Ok r =>
      wf r /\ in_working_window r /\
      to_us base + dur * US_PER_MINUTE <= to_us r
  | Raise e => e = OverflowError
  | OutOfFuel => False
  end.
Proof. apply (generate_timestamp_fuel_spec 0). Qed.

(** C4. For every starting instant and every duration the rolling loop
    of [_generate_timestamp] terminates: one pass through its body is
    enough whatever budget it is given, and the call never exhausts it.
    Every instant it returns has its hour of day in [9,18) and falls on
    Monday to Friday.  The only other outcome is the [OverflowError] of
    [datetime] arithmetic at the ends of the calendar: an instant is
    returned whenever the naive instant lies at least four days before
    [datetime.max]. *)
Theorem generate_timestamp_terminates_in_window (base_time : datetime) (duration : Z) :
  (forall fuel, generate_timestamp_fuel (S fuel) base_time duration
                = _generate_timestamp base_time duration) /\
  _generate_timestamp base_time duration <> OutOfFuel /\
  (forall r, _generate_timestamp base_time duration = Ok r ->
             9 <= hour r < 18 /\ 0 <= weekday r <= 4) /\
  (forall e, _generate_timestamp base_time duration = Raise e -> e = OverflowError) /\
  (forall n, naive_instant base_time duration = Ok n ->
             ordinal n + 4 <= MAXORDINAL ->
             returns (_generate_timestamp base_time duration)).
Proof.
  pose proof (generate_timestamp_spec base_time duration) as Hs.
  split; [|split; [|split; [|split]]].
  - intros fuel. unfold _generate_timestamp, generate_timestamp_fuel.
    destruct (naive_instant base_time duration) as [n| |] eqn:Hn; cbn [rbind];
      try reflexivity.
    apply roll_fuel_irrelevant. apply (naive_instant_ok _ _ _ Hn).
  - intros E. rewrite E in Hs. exact Hs.
  - intros r E. rewrite E in Hs. apply Hs.
  - intros e E. rewrite E in Hs. exact Hs.
  - intros n Hn Hrange. unfold _generate_timestamp, generate_timestamp_fuel.
    rewrite Hn. cbn [rbind]. apply roll_in_range; [|assumption].
    apply (naive_instant_ok _ _ _ Hn).
Qed.

Lemma generate_timestamp_terminates_in_window_witness :
  _generate_timestamp (datetime_of 2023 3 4 20 10) 45
    = Ok (mkdt (ymd2ord 2023 3 7) 9 0 0 0) /\
  9 <= hour (mkdt (ymd2ord 2023 3 7) 9 0 0 0) < 18 /\
  0 <= weekday (mkdt (ymd2ord 2023 3 7) 9 0 0 0) <= 4.
Proof.
  split; [vm_compute; reflexivity|].
  apply (generate_timestamp_terminates_in_window (datetime_of 2023 3 4 20 10) 45).
  vm_compute; reflexivity.
Defined.

(** C10. [_generate_timestamp] never moves time backward: whenever it
    returns an instant for base instant [t] and duration [d], that
    instant is not earlier than the naive instant [t + d]. *)
Theorem generate_timestamp_never_earlier (t : datetime) (d : Z) (r : datetime) :
  _generate_timestamp t d = Ok r ->
  to_us t + d * US_PER_MINUTE <= to_us r /\
  (forall n, naive_instant t d = Ok n -> dt_le n r).
Proof.
  intros E. pose proof (generate_timestamp_spec t d) as Hs. rewrite E in Hs.
  destruct Hs as (_ & _ & Hle). split; [exact Hle|].
  intros n Hn. apply naive_instant_ok in Hn as (_ & Hus).
  unfold dt_le. lia.
Qed.

Lemma generate_timestamp_never_earlier_witness :
  to_us (datetime_of 2023 1 6 17 45) + 30 * US_PER_MINUTE
    <= to_us (datetime_of 2023 1 10 9 0) /\
  (forall n, naive_instant (datetime_of 2023 1 6 17 45) 30 = Ok n ->
             dt_le n (datetime_of 2023 1 10 9 0)).
Proof.
  apply (generate_timestamp_never_earlier (datetime_of 2023 1 6 17 45) 30).
  vm_compute; reflexivity.
Defined.

(** C2, as the code has it.  When the hour snap leaves the candidate
    on a weekend day, the instant returned is that candidate moved
    forward by whole days onto a day from Monday to Friday: the time of
    day is the candidate's, which is 09:00 (with the seconds of the
    naive instant) whenever the naive hour was outside [9,18).  In
    particular [_generate_timestamp(2023-01-06T17:45, 30)] returns an
    instant at 09:00 sharp, without residual minutes, on a working day
    after the weekend of 7 and 8 January 2023. *)
Theorem weekend_skip_keeps_time_of_day :
  (forall base_time duration n c r,
      naive_instant base_time duration = Ok n ->
      snap_hours n = Ok c ->
      5 <= weekday c ->
      _generate_timestamp base_time duration = Ok r ->
      0 <= weekday r <= 4 /\ ordinal c < ordinal r /\ same_time_of_day r c /\
      (~ 9 <= hour n < 18 -> hour r = 9 /\ minute r = 0)) /\
  (exists r,
      _generate_timestamp (datetime_of 2023 1 6 17 45) 30 = Ok r /\
      hour r = 9 /\ minute r = 0 /\ second r = 0 /\ microsecond r = 0 /\
      0 <= weekday r <= 4 /\ ymd2ord 2023 1 8 < ordinal r).
Proof.
  split.
  - intros base dur n c r Hn Hc Hwd Hr.
    unfold _generate_timestamp, generate_timestamp_fuel in Hr.
    rewrite Hn in Hr. cbn [rbind roll] in Hr.
    apply naive_instant_ok in Hn as (Hwn & _).
    pose proof (snap_hours_spec n Hwn) as Hsnap. rewrite Hc in Hsnap.
    destruct Hsnap as (Hwc & Hhc & _ & _ & _ & _ & Hsame & Hnine).
    assert (outside_working_time n = true) as Hout.
    { destruct (outside_working_time n) eqn:E; [reflexivity|].
      apply outside_working_time_false in E as (Hh & Hw).
      rewrite (Hsame Hh) in Hwd. lia. }
    rewrite Hout in Hr. unfold roll_body in Hr. rewrite Hc in Hr.
    cbn [rbind] in Hr.
    pose proof (skip_weekend_spec c Hwc) as Hskip.
    destruct (skip_weekend c) as [r'| |]; cbn [rbind] in Hr; try discriminate.
    destruct Hskip as (_ & Hwr & Htod & _ & _ & Hord).
    assert (outside_working_time r' = false) as Hin.
    { apply outside_working_time_false. destruct Htod as (Hh & _).
      unfold in_working_window. lia. }
    rewrite Hin in Hr. injection Hr as <-.
    split; [assumption|]. split; [lia|]. split; [assumption|].
    intros Hn9. destruct (Hnine Hn9) as (H9 & H0).
    destruct Htod as (Hh & Hm & _). lia.
  - exists (datetime_of 2023 1 10 9 0).
    split; [vm_compute; reflexivity|]. vm_compute. repeat split; congruence.
Qed.

Lemma weekend_skip_keeps_time_of_day_witness :
  0 <= weekday (mkdt (ymd2ord 2023 3 7) 10 30 0 0) <= 4 /\
  ordinal (datetime_of 2023 3 4 10 30) < ordinal (mkdt (ymd2ord 2023 3 7) 10 30 0 0) /\
  same_time_of_day (mkdt (ymd2ord 2023 3 7) 10 30 0 0) (datetime_of 2023 3 4 10 30) /\
  (~ 9 <= hour (datetime_of 2023 3 4 10 30) < 18 ->
   hour (mkdt (ymd2ord 2023 3 7) 10 30 0 0) = 9 /\
   minute (mkdt (ymd2ord 2023 3 7) 10 30 0 0) = 0).
Proof.
  apply (proj1 weekend_skip_keeps_time_of_day
           (datetime_of 2023 3 4 10 0) 30
           (datetime_of 2023 3 4 10 30) (datetime_of 2023 3 4 10 30)
           (mkdt (ymd2ord 2023 3 7) 10 30 0 0)).
  - vm_compute; reflexivity.
  - vm_compute; reflexivity.
  - vm_compute. congruence.
  - vm_compute; reflexivity.
Defined.

(** C2, as the spec has it, fails on the code: from Friday
    2023-01-06T17:45 with 30 minutes the code returns Tuesday
    2023-01-10T09:00, not Monday 2023-01-09T09:15. *)
Lemma friday_evening_is_not_monday_0915 :
  weekday (datetime_of 2023 1 6 17 45) = 4 /\
  _generate_timestamp (datetime_of 2023 1 6 17 45) 30
    = Ok (datetime_of 2023 1 10 9 0) /\
  _generate_timestamp (datetime_of 2023 1 6 17 45) 30
    <> Ok (datetime_of 2023 1 9 9 15).
Proof.
  split; [vm_compute; reflexivity|]. split; [vm_compute; reflexivity|].
  vm_compute. congruence.
Qed.

(** The same slip on a plain weekend instant: Saturday 10:30 is moved
    to Tuesday 10:30. *)
Example saturday_morning_goes_to_tuesday :
  weekday (datetime_of 2023 1 7 10 30) = 5 /\
  _generate_timestamp (datetime_of 2023 1 7 10 30) 0
    = Ok (datetime_of 2023 1 10 10 30) /\
  weekday (datetime_of 2023 1 10 10 30) = 1.
Proof. repeat split; vm_compute; reflexivity. Qed.

(** At the end of the calendar the evening snap raises. *)
Example last_evening_overflows :
  wf (datetime_of 9999 12 31 18 0) /\
  _generate_timestamp (datetime_of 9999 12 31 18 0) 0 = Raise OverflowError.
Proof. split; [apply wfb_wf|]; vm_compute; reflexivity. Qed.

End TimestampFacts.

(** ** Case simulation *)

Module CaseFacts.
Import DateTimeFacts TimestampFacts.
Local Open Scope Z_scope.

(** The events of a case, read in order from the clock value [prev]:
    each one starts no earlier than [prev], completes later than it
    starts, and hands its completion on as the next clock value. *)
Fixpoint chained (prev : datetime) (events : list event) : Prop :=
  match events with
  | [] => True
  | e :: events' =>
      dt_le prev (timestamp e) /\
      dt_lt (timestamp e) (complete_timestamp e) /\
      chained (complete_timestamp e) events'
  end.

(** The order in which [sort_values] compares the rows of one case. *)
Definition starts_no_later (e1 e2 : event) : Prop :=
  dt_le (timestamp e1) (timestamp e2).

#[local] Instance starts_no_later_trans : Transitive starts_no_later.
Proof. unfold starts_no_later, dt_le. intros x y z. lia. Qed.

Lemma randint_range a b g v g' :
  randint a b g = Ok (v, g') -> a <= v <= b.
Proof.
  unfold randint. destruct (Z.leb_spec a b) as [Hab|]; [|discriminate].
  destruct (draw g) as [r g0]. intros [= <- _].
  pose proof (Z.mod_pos_bound (Z.of_nat r) (b - a + 1)). lia.
Qed.

Lemma path_events_chained path :
  forall current_time g events g',
    path_events path current_time g = Ok (events, g') ->
    chained current_time events.
Proof.
  induction path as [|activity path IH]; intros current_time g events g' H;
    cbn [path_events] in H.
  - injection H as <- _. exact I.
  - destruct (decide (activity = "START" \/ activity = "END")).
    + eauto.
    + unfold _generate_activity_attributes in H.
      destruct (randint 30 480 g) as [[duration g1]| |] eqn:Hd;
        cbn [rbind] in H; try discriminate.
      apply randint_range in Hd.
      pose proof (generate_timestamp_spec current_time 0) as Hs.
      destruct (_generate_timestamp current_time 0) as [ts| |];
        cbn [rbind] in H; try discriminate.
      pose proof (generate_timestamp_spec ts duration) as Hc.
      destruct (_generate_timestamp ts duration) as [cts| |];
        cbn [rbind] in H; try discriminate.
      destruct (path_events path cts g1) as [[events' g2]| |] eqn:Hrest;
        cbn [rbind] in H; try discriminate.
      injection H as <- _. cbn [chained timestamp complete_timestamp].
      destruct Hs as (_ & _ & Hs). destruct Hc as (_ & _ & Hc).
      unfold dt_le, dt_lt. unfold_units. repeat split; try lia. eauto.
Qed.

Lemma chained_adjacent prev events :
  chained prev events ->
  Forall (fun e => dt_le (timestamp e) (complete_timestamp e)) events /\
  (forall (i : nat) e1 e2,
      events !! i = Some e1 -> events !! S i = Some e2 ->
      dt_le (complete_timestamp e1) (timestamp e2)).
Proof.
  revert prev. induction events as [|e events IH]; intros prev H.
  - split; [constructor|]. intros i e1 e2 H1. discriminate.
  - destruct H as (_ & Hse & Hrest). destruct (IH _ Hrest) as (IH1 & IH2).
    split; [constructor; [unfold dt_le, dt_lt in *; lia|assumption]|].
    intros [|i] e1 e2 H1 H2; cbn in H1, H2.
    + injection H1 as <-. destruct events as [|e' events']; [discriminate|].
      injection H2 as <-. apply Hrest.
    + eauto.
Qed.

Lemma chained_after prev events :
  chained prev events ->
  forall e, e ∈ events -> dt_le prev (timestamp e).
Proof.
  revert prev. induction events as [|e0 events IH]; intros prev H e He.
  - inversion He.
  - destruct H as (Hp & Hse & Hrest).
    apply elem_of_cons in He as [->|He]; [exact Hp|].
    specialize (IH _ Hrest e He). unfold dt_le, dt_lt in *. lia.
Qed.

(** Along a case the start times increase strictly, and every later
    event starts no earlier than an earlier one completes. *)
Lemma chained_pairwise prev events :
  chained prev events ->
  forall (i j : nat) e1 e2,
    (i < j)%nat -> events !! i = Some e1 -> events !! j = Some e2 ->
    dt_lt (timestamp e1) (timestamp e2) /\
    dt_le (complete_timestamp e1) (timestamp e2).
Proof.
  revert prev. induction events as [|e0 events IH]; intros prev H i j e1 e2 Hij H1 H2.
  - discriminate.
  - destruct H as (Hp & Hse & Hrest).
    destruct j as [|j]; [lia|]. cbn in H2.
    destruct i as [|i]; cbn in H1.
    + injection H1 as <-.
      pose proof (chained_after _ _ Hrest e2 (list_elem_of_lookup_2 _ _ _ H2)) as Hle.
      unfold dt_le, dt_lt in *. lia.
    + apply (IH _ Hrest i j); auto. lia.
Qed.

(** Sorting the rows of a case by their start time, as the
    [sort_values] at the end of [generate_data] does within each case,
    leaves them in the order in which they were generated. *)
Lemma chained_sorted_unique prev events rows :
  chained prev events ->
  rows ≡ₚ events -> Sorted starts_no_later rows -> rows = events.
Proof.
  intros Hch Hperm Hsorted. symmetry.
  apply (StronglySorted_unique_strong starts_no_later); [| | |symmetry; exact Hperm].
  - intros x1 x2 Hx1 Hx2 H12 H21. rewrite Hperm in Hx2.
    apply list_elem_of_lookup_1 in Hx1 as [i Hi], Hx2 as [j Hj].
    destruct (Nat.lt_trichotomy i j) as [Hlt|[->|Hlt]].
    + destruct (chained_pairwise _ _ Hch i j x1 x2 Hlt Hi Hj) as [Hs _].
      unfold starts_no_later, dt_le, dt_lt in *. lia.
    + congruence.
    + destruct (chained_pairwise _ _ Hch j i x2 x1 Hlt Hj Hi) as [Hs _].
      unfold starts_no_later, dt_le, dt_lt in *. lia.
  - clear Hperm Hsorted rows. revert prev Hch.
    induction events as [|e events IH]; intros prev Hch; constructor.
    + destruct Hch as (_ & _ & Hrest). eapply IH, Hrest.
    + destruct Hch as (_ & Hse & Hrest). apply Forall_forall. intros e' He'.
      pose proof (chained_after _ _ Hrest e' He') as Hle.
      unfold starts_no_later, dt_le, dt_lt in *. lia.
  - apply Sorted_StronglySorted; [apply _|exact Hsorted].
Qed.

(** C6. In every case that [generate_data] simulates (whatever the
    graph, the walk through it, the starting instant and the random
    draws), each event starts no later than it completes, and of two
    consecutive events the later one starts no earlier than the earlier
    one completes.  The same holds of any two events of the case, whose
    start times moreover differ, so that sorting the rows of the case by
    start time keeps them in this order. *)
Theorem case_events_ordered (fuel : nat) (process_graph : gmap string (list string))
    (case_start : datetime) (g : rng) (events : list event) (g' : rng) :
  generate_case fuel process_graph case_start g = Ok (events, g') ->
  Forall (fun e => dt_le (timestamp e) (complete_timestamp e)) events /\
  (forall (i : nat) e1 e2,
      events !! i = Some e1 -> events !! S i = Some e2 ->
      dt_le (complete_timestamp e1) (timestamp e2)) /\
  (forall (i j : nat) e1 e2,
      (i < j)%nat -> events !! i = Some e1 -> events !! j = Some e2 ->
      dt_lt (timestamp e1) (timestamp e2) /\
      dt_le (complete_timestamp e1) (timestamp e2)) /\
  (forall rows,
      rows ≡ₚ events -> Sorted starts_no_later rows -> rows = events).
Proof.
  unfold generate_case. intros H.
  destruct (_generate_case_path fuel process_graph g) as [[path g1]| |];
    cbn [rbind] in H; try discriminate.
  apply path_events_chained in H.
  destruct (chained_adjacent _ _ H) as (H1 & H2).
  split; [exact H1|]. split; [exact H2|].
  split; [exact (chained_pairwise _ _ H)|].
  intros rows. exact (chained_sorted_unique _ _ rows H).
Qed.

(** A small process graph for examples: START, two activities, END. *)
Definition two_step_graph : gmap string (list string) :=
  <["START" := ["Check Request"]]>
    (<["Check Request" := ["Approve Request"; "END"]]>
       (<["Approve Request" := ["END"]]> (<["END" := []]> ∅))).

Lemma case_events_ordered_witness :
  let events :=
    [mkevent "Check Request" (mkdt 738523 9 0 0 0) (mkdt 738523 9 37 0 0) 37;
     mkevent "Approve Request" (mkdt 738523 9 37 0 0) (mkdt 738523 10 57 0 0) 80] in
  Forall (fun e => dt_le (timestamp e) (complete_timestamp e)) events /\
  (forall (i : nat) e1 e2,
      events !! i = Some e1 -> events !! S i = Some e2 ->
      dt_le (complete_timestamp e1) (timestamp e2)) /\
  (forall (i j : nat) e1 e2,
      (i < j)%nat -> events !! i = Some e1 -> events !! j = Some e2 ->
      dt_lt (timestamp e1) (timestamp e2) /\
      dt_le (complete_timestamp e1) (timestamp e2)) /\
  (forall rows,
      rows ≡ₚ events -> Sorted starts_no_later rows -> rows = events).
Proof.
  intros events.
  apply (case_events_ordered 5 two_step_graph (datetime_of 2023 1 1 0 0)
           [4; 0; 100; 7; 50]%nat events []).
  vm_compute. reflexivity.
Defined.

End CaseFacts.

(** ** The graph generator *)

Module ProcessGeneratorFacts.
Import ProcessGenerator.

(** *** Process graphs *)

Definition edge (g : gmap string (list string)) (u v : string) : Prop :=
  exists targets, g !! u = Some targets /\ v ∈ targets.

(** The structural invariants of a process graph; its nodes are the keys
    of the dictionary. *)
Record process_graph_valid (g : gmap string (list string)) : Prop := mkvalid {
  valid_has_start : is_Some (g !! "START");
  valid_has_end : is_Some (g !! "END");
  valid_start_no_incoming : forall u, ~ edge g u "START";
  valid_start_not_to_end : ~ edge g "START" "END";
  valid_end_no_outgoing : forall v, ~ edge g "END" v;
  valid_middle : forall n,
    is_Some (g !! n) -> n <> "START" -> n <> "END" ->
    (exists u, edge g u n) /\ (exists v, edge g n v);
  valid_from_start : forall n, is_Some (g !! n) -> rtc (edge g) "START" n;
  valid_to_end : forall n, is_Some (g !! n) -> rtc (edge g) n "END";
  valid_acyclic : forall n, ~ tc (edge g) n n
}.

(** The shape the generator gives its graphs: the activities in a row
    [acts], START pointing into the row, every activity pointing to END
    or further down the row and pointed at by somebody. *)
Record layered (acts : list string) (g : gmap string (list string)) : Prop := mklayered {
  lay_nodup : NoDup acts;
  lay_start : "START" ∉ acts;
  lay_end : "END" ∉ acts;
  lay_nonempty : acts <> [];
  lay_dom : forall n, is_Some (g !! n) <-> n = "START" \/ n = "END" \/ n ∈ acts;
  lay_start_targets : exists targets,
    g !! "START" = Some targets /\ targets <> [] /\ forall v, v ∈ targets -> v ∈ acts;
  lay_end_targets : g !! "END" = Some [];
  lay_targets : forall j a,
    acts !! j = Some a ->
    exists targets,
      g !! a = Some targets /\ targets <> [] /\
      forall v, v ∈ targets -> v = "END" \/ exists j', j < j' /\ acts !! j' = Some v;
  lay_incoming : forall a, a ∈ acts -> exists u, edge g u a
}.

Lemma list_index_lookup l : forall j x,
  NoDup l -> l !! j = Some x -> list_index x l = j.
Proof.
  induction l as [|y l IH]; intros j x Hnd Hj; [discriminate|].
  apply NoDup_cons in Hnd as [Hy Hnd]. cbn [list_index].
  destruct j as [|j]; cbn in Hj.
  - injection Hj as ->. destruct (decide (x = x)); [reflexivity|contradiction].
  - destruct (decide (y = x)) as [->|_].
    + apply list_elem_of_lookup_2 in Hj. contradiction.
    + f_equal. apply IH; auto.
Qed.

Lemma list_index_notin l x : x ∉ l -> list_index x l = length l.
Proof.
  induction l as [|y l IH]; intros Hx; [reflexivity|]. cbn.
  apply not_elem_of_cons in Hx as [Hne Hx].
  destruct (decide (y = x)); [congruence|]. f_equal. auto.
Qed.

Lemma list_index_elem l x : x ∈ l -> l !! list_index x l = Some x.
Proof.
  induction l as [|y l IH]; intros Hx; [inversion Hx|]. cbn.
  destruct (decide (y = x)) as [->|Hne]; [reflexivity|].
  cbn. apply IH. apply elem_of_cons in Hx as [->|Hx]; [contradiction|exact Hx].
Qed.

Section Layered.
Variable acts : list string.
Variable g : gmap string (list string).
Hypothesis Hlay : layered acts g.

Definition rank (n : string) : nat :=
  if decide (n = "START") then 0 else S (list_index n acts).

Lemma rank_start : rank "START" = 0.
Proof. unfold rank. destruct (decide ("START" = "START")); congruence. Qed.

Lemma rank_act j a : acts !! j = Some a -> rank a = S j.
Proof.
  intros Hj. unfold rank.
  destruct (decide (a = "START")) as [->|_].
  - apply list_elem_of_lookup_2 in Hj. destruct (lay_start _ _ Hlay Hj).
  - f_equal. apply list_index_lookup; [apply (lay_nodup _ _ Hlay)|exact Hj].
Qed.

Lemma rank_end : rank "END" = S (length acts).
Proof.
  unfold rank. destruct (decide ("END" = "START")); [discriminate|].
  f_equal. apply list_index_notin, (lay_end _ _ Hlay).
Qed.

(** What an edge of a layered graph looks like. *)
Lemma edge_cases u v :
  edge g u v ->
  (u = "START" /\ v ∈ acts) \/
  (exists j, acts !! j = Some u /\
             (v = "END" \/ exists j', j < j' /\ acts !! j' = Some v)).
Proof.
  intros (targets & Hu & Hv).
  assert (is_Some (g !! u)) as Hdom by eauto.
  apply (lay_dom _ _ Hlay) in Hdom as [->|[->|Hin]].
  - left. split; [reflexivity|].
    destruct (lay_start_targets _ _ Hlay) as (ts & Hs & _ & Hsub).
    rewrite Hs in Hu. injection Hu as ->. auto.
  - rewrite (lay_end_targets _ _ Hlay) in Hu. injection Hu as <-. inversion Hv.
  - right. apply list_elem_of_lookup_1 in Hin as [j Hj]. exists j.
    split; [exact Hj|].
    destruct (lay_targets _ _ Hlay j u Hj) as (ts & Hs & _ & Hsub).
    rewrite Hs in Hu. injection Hu as ->. auto.
Qed.

Lemma edge_rank u v : edge g u v -> rank u < rank v.
Proof.
  intros He. destruct (edge_cases u v He) as [[-> Hv]|(j & Hj & [->|(j' & Hlt & Hj')])].
  - apply list_elem_of_lookup_1 in Hv as [j Hj].
    rewrite (rank_act j v Hj), rank_start. lia.
  - rewrite (rank_act j u Hj), rank_end. apply lookup_lt_Some in Hj. lia.
  - rewrite (rank_act j u Hj), (rank_act j' v Hj'). lia.
Qed.

Lemma tc_edge_rank u v : tc (edge g) u v -> rank u < rank v.
Proof.
  induction 1 as [u v He|u w v He _ IH].
  - apply edge_rank, He.
  - apply edge_rank in He. lia.
Qed.

Lemma act_from_start : forall n j a,
  j < n -> acts !! j = Some a -> rtc (edge g) "START" a.
Proof.
  induction n as [|n IH]; intros j a Hlt Hj; [lia|].
  destruct (lay_incoming _ _ Hlay a (list_elem_of_lookup_2 _ _ _ Hj)) as [u He].
  destruct (edge_cases u a He) as [[-> _]|(j0 & Hj0 & [->|(j' & Hlt' & Hj')])].
  - apply rtc_once, He.
  - apply list_elem_of_lookup_2 in Hj. destruct (lay_end _ _ Hlay Hj).
  - assert (j' = j) as ->
      by (eapply NoDup_lookup; [apply (lay_nodup _ _ Hlay)|exact Hj'|exact Hj]).
    eapply rtc_r; [|exact He]. apply (IH j0); [lia|exact Hj0].
Qed.

Lemma act_to_end : forall n j a,
  length acts - j <= n -> acts !! j = Some a -> rtc (edge g) a "END".
Proof.
  induction n as [|n IH]; intros j a Hle Hj.
  - apply lookup_lt_Some in Hj. lia.
  - destruct (lay_targets _ _ Hlay j a Hj) as (ts & Hs & Hne & Hsub).
    destruct ts as [|v ts]; [contradiction|].
    assert (edge g a v) as He by (exists (v :: ts); split; [exact Hs|left]).
    destruct (Hsub v) as [->|(j' & Hlt & Hj')]; [left| |].
    + apply rtc_once, He.
    + eapply rtc_l; [exact He|]. apply (IH j'); [lia|exact Hj'].
Qed.

Lemma last_act_to_end :
  exists a, a ∈ acts /\ edge g a "END".
Proof.
  destruct (last acts) as [a|] eqn:Hlast.
  2:{ apply last_None in Hlast. destruct (lay_nonempty _ _ Hlay Hlast). }
  rewrite last_lookup in Hlast.
  destruct (lay_targets _ _ Hlay _ a Hlast) as (ts & Hs & Hne & Hsub).
  exists a. split; [eapply list_elem_of_lookup_2, Hlast|].
  destruct ts as [|v ts]; [contradiction|].
  exists (v :: ts). split; [exact Hs|].
  destruct (Hsub v) as [->|(j' & Hlt & Hj')]; [left|left|].
  apply lookup_lt_Some in Hj'. lia.
Qed.

Theorem layered_valid : process_graph_valid g.
Proof.
  destruct (lay_start_targets _ _ Hlay) as (ts0 & Hs0 & Hne0 & Hsub0).
  constructor.
  - eauto.
  - rewrite (lay_end_targets _ _ Hlay). eauto.
  - intros u He.
    destruct (edge_cases u _ He) as [[_ Hv]|(j & _ & [?|(j' & _ & Hj')])].
    + destruct (lay_start _ _ Hlay Hv).
    + discriminate.
    + apply list_elem_of_lookup_2 in Hj'. destruct (lay_start _ _ Hlay Hj').
  - intros He.
    destruct (edge_cases _ _ He) as [[_ Hv]|(j & Hj & _)].
    + destruct (lay_end _ _ Hlay Hv).
    + apply list_elem_of_lookup_2 in Hj. destruct (lay_start _ _ Hlay Hj).
  - intros v (ts & Hts & Hv). rewrite (lay_end_targets _ _ Hlay) in Hts.
    injection Hts as <-. inversion Hv.
  - intros n Hdom Hs He.
    apply (lay_dom _ _ Hlay) in Hdom as [?|[?|Hin]]; [contradiction..|].
    split; [apply (lay_incoming _ _ Hlay n Hin)|].
    apply list_elem_of_lookup_1 in Hin as [j Hj].
    destruct (lay_targets _ _ Hlay j n Hj) as (ts & Hts & Hne & _).
    destruct ts as [|v ts]; [contradiction|].
    exists v, (v :: ts). split; [exact Hts|left].
  - intros n Hdom.
    apply (lay_dom _ _ Hlay) in Hdom as [->|[->|Hin]].
    + reflexivity.
    + destruct last_act_to_end as (a & Ha & He).
      apply list_elem_of_lookup_1 in Ha as [j Hj].
      eapply rtc_r; [|exact He]. apply (act_from_start (S j) j a); [lia|exact Hj].
    + apply list_elem_of_lookup_1 in Hin as [j Hj].
      apply (act_from_start (S j) j n); [lia|exact Hj].
  - intros n Hdom.
    apply (lay_dom _ _ Hlay) in Hdom as [->|[->|Hin]].
    + destruct ts0 as [|v ts0]; [contradiction|].
      assert (v ∈ acts) as Hv by (apply Hsub0; left).
      apply list_elem_of_lookup_1 in Hv as [j Hj].
      eapply rtc_l; [exists (v :: ts0); split; [exact Hs0|left]|].
      apply (act_to_end (length acts) j v); [lia|exact Hj].
    + reflexivity.
    + apply list_elem_of_lookup_1 in Hin as [j Hj].
      apply (act_to_end (length acts) j n); [lia|exact Hj].
  - intros n Htc. apply tc_edge_rank in Htc. lia.
Qed.

End Layered.

Lemma remove_first_notin x l : x ∉ l -> remove_first x l = l.
Proof.
  induction l as [|y l IH]; intros Hx; [reflexivity|]. cbn.
  apply not_elem_of_cons in Hx as [Hne Hx].
  destruct (decide (y = x)); [congruence|]. f_equal. auto.
Qed.

Lemma set_graph_same self : set_graph (graph self) self = self.
Proof. destruct self. reflexivity. Qed.

Lemma has_incoming_edge g n : has_incoming g n = true <-> exists u, edge g u n.
Proof.
  unfold has_incoming. rewrite bool_decide_eq_true. unfold map_Exists, edge.
  split; intros (u & ts & H); exists u, ts; exact H.
Qed.

Lemma has_path_to_end_edge g :
  has_path_to_end g = true <-> exists u, u <> "START" /\ edge g u "END".
Proof.
  unfold has_path_to_end. rewrite bool_decide_eq_true. unfold map_Exists, edge.
  split.
  - intros (u & ts & H & Hne & Hin). exists u. split; [exact Hne|]. eauto.
  - intros (u & Hne & ts & H & Hin). exists u, ts. auto.
Qed.

Section RepairOnValid.
Variable self : generator.
Hypothesis Hvalid : process_graph_valid (graph self).
Hypothesis Hnodes : forall n, n ∈ nodes self -> is_Some (graph self !! n).

Lemma strip_targets_valid node targets :
  graph self !! node = Some targets -> strip_targets node targets = targets.
Proof.
  intros Hn. unfold strip_targets.
  assert ("START" ∉ targets) as Hs.
  { intros Hin. apply (valid_start_no_incoming _ Hvalid node). exists targets. auto. }
  rewrite (remove_first_notin _ _ Hs).
  destruct (decide (node = "START")) as [->|_]; [|reflexivity].
  apply remove_first_notin. intros Hin.
  apply (valid_start_not_to_end _ Hvalid). exists targets. auto.
Qed.

Lemma end_targets_valid : graph self !! "END" = Some [].
Proof.
  destruct (valid_has_end _ Hvalid) as [ts Hts]. rewrite Hts. f_equal.
  destruct ts as [|v ts]; [reflexivity|].
  destruct (valid_end_no_outgoing _ Hvalid v). exists (v :: ts). split; [exact Hts|left].
Qed.

Lemma clear_start_and_end_valid : clear_start_and_end self = self.
Proof.
  unfold clear_start_and_end.
  assert (map_imap (fun node targets => Some (strip_targets node targets)) (graph self)
          = graph self) as ->.
  { apply map_eq. intros n. rewrite map_lookup_imap.
    destruct (graph self !! n) as [ts|] eqn:Hn; [|reflexivity].
    cbn. f_equal. apply strip_targets_valid, Hn. }
  destruct (decide (is_Some (graph self !! "END"))) as [_|Hno].
  - rewrite (insert_id _ _ _ end_targets_valid). apply set_graph_same.
  - apply set_graph_same.
Qed.

Lemma start_has_target_valid :
  exists targets, graph self !! "START" = Some targets /\ targets <> [].
Proof.
  pose proof (valid_to_end _ Hvalid "START" (valid_has_start _ Hvalid)) as Hr.
  apply rtc_inv in Hr as [Heq|(v & (ts & Hts & Hv) & _)]; [discriminate|].
  exists ts. split; [exact Hts|]. intros ->. inversion Hv.
Qed.

Lemma ensure_start_has_target_valid : ensure_start_has_target self = Ok self.
Proof.
  unfold ensure_start_has_target, getitem.
  destruct start_has_target_valid as (ts & -> & Hne). cbn [rbind].
  destruct (decide (ts = [])); [contradiction|reflexivity].
Qed.

Lemma repair_node_valid node :
  node ∈ nodes self -> repair_node node self = Ok self.
Proof.
  intros Hin. unfold repair_node.
  destruct (decide (node = "START" \/ node = "END")) as [|Hne]; [reflexivity|].
  assert (node <> "START" /\ node <> "END") as [Hs He] by tauto.
  destruct (valid_middle _ Hvalid node (Hnodes node Hin) Hs He)
    as (Hincoming & v & ts & Hts & Hv).
  unfold ensure_outgoing, getitem. rewrite Hts. cbn [rbind].
  destruct (decide (ts = [])) as [->|_]; [inversion Hv|]. cbn [rbind].
  unfold ensure_incoming.
  apply has_incoming_edge in Hincoming. rewrite Hincoming. reflexivity.
Qed.

Lemma repair_nodes_valid todo :
  (forall n, n ∈ todo -> n ∈ nodes self) -> repair_nodes todo self = Ok self.
Proof.
  induction todo as [|node todo IH]; intros Hsub; [reflexivity|].
  cbn [repair_nodes]. rewrite repair_node_valid by (apply Hsub; left).
  cbn [rbind]. apply IH. intros n Hn. apply Hsub. right. exact Hn.
Qed.

Lemma ensure_path_to_end_valid : ensure_path_to_end self = Ok self.
Proof.
  unfold ensure_path_to_end.
  assert (has_path_to_end (graph self) = true) as ->; [|reflexivity].
  apply has_path_to_end_edge.
  pose proof (valid_to_end _ Hvalid "START" (valid_has_start _ Hvalid)) as Hr.
  apply rtc_inv_r in Hr as [Heq|(u & _ & He)]; [discriminate|].
  exists u. split; [|exact He]. intros ->.
  apply (valid_start_not_to_end _ Hvalid He).
Qed.

Lemma ensure_valid_process_valid : _ensure_valid_process self = Ok self.
Proof.
  unfold _ensure_valid_process. rewrite clear_start_and_end_valid.
  rewrite ensure_start_has_target_valid. cbn [rbind].
  rewrite repair_nodes_valid by auto. cbn [rbind].
  apply ensure_path_to_end_valid.
Qed.

End RepairOnValid.

(** *** The random source *)

Lemma randint_ok a b r :
  (a <= b)%Z -> exists v r', randint a b r = Ok (v, r') /\ (a <= v <= b)%Z.
Proof.
  intros Hab. unfold randint.
  destruct (Z.leb_spec a b) as [_|]; [|lia].
  destruct (draw r) as [x r']. eexists _, _. split; [reflexivity|].
  pose proof (Z.mod_pos_bound (Z.of_nat x) (b - a + 1)). lia.
Qed.

Lemma randint_empty a b r : (b < a)%Z -> randint a b r = Raise ValueError.
Proof.
  intros Hab. unfold randint. destruct (Z.leb_spec a b); [lia|reflexivity].
Qed.

Lemma choice_ok {A} (l : list A) r :
  l <> [] -> exists x r', choice l r = Ok (x, r') /\ x ∈ l.
Proof.
  intros Hne. unfold choice. destruct (draw r) as [x r'].
  assert (x mod length l < length l) as Hlt.
  { apply Nat.mod_upper_bound. destruct l; [contradiction|cbn; lia]. }
  destruct (lookup_lt_is_Some_2 l _ Hlt) as [y Hy]. rewrite Hy.
  exists y, r'. split; [reflexivity|]. eapply list_elem_of_lookup_2, Hy.
Qed.

Lemma sample_aux_spec {A} (k : nat) : forall (pool : list A) r,
  k <= length pool ->
  length (sample_aux pool k r).1 = k /\
  (forall x, x ∈ (sample_aux pool k r).1 -> x ∈ pool) /\
  (NoDup pool -> NoDup (sample_aux pool k r).1).
Proof.
  induction k as [|k IH]; intros pool r Hk; cbn [sample_aux].
  - cbn. split; [reflexivity|]. split; [intros x Hx; inversion Hx|constructor].
  - destruct (draw r) as [x r'].
    assert (x mod length pool < length pool) as Hlt
      by (apply Nat.mod_upper_bound; lia).
    destruct (lookup_lt_is_Some_2 pool _ Hlt) as [y Hy]. rewrite Hy.
    specialize (IH (delete (x mod length pool) pool) r').
    destruct (sample_aux (delete (x mod length pool) pool) k r') as [xs r''].
    cbn [fst] in *.
    destruct IH as (Hlen & Hsub & Hnd).
    { rewrite length_delete by eauto. lia. }
    split; [cbn; lia|]. split.
    + intros z Hz. apply elem_of_cons in Hz as [->|Hz].
      * eapply list_elem_of_lookup_2, Hy.
      * eapply list_elem_of_delete_inv, Hsub, Hz.
    + intros Hpool. apply NoDup_cons. split.
      * intros Hin. apply Hsub in Hin.
        rewrite delete_take_drop in Hin.
        rewrite <- (take_drop_middle pool _ y Hy) in Hpool.
        apply NoDup_app in Hpool as (_ & Hdisj & Hr).
        apply NoDup_cons in Hr as [Hr _].
        apply elem_of_app in Hin as [Hin|Hin]; [|contradiction].
        apply (Hdisj y Hin). left.
      * apply Hnd. eapply sublist_NoDup; [exact Hpool|]. apply sublist_delete.
Qed.

Lemma sample_ok {A} (population : list A) k r :
  (0 <= k <= Z.of_nat (length population))%Z ->
  exists xs r',
    sample population k r = Ok (xs, r') /\
    length xs = Z.to_nat k /\
    (forall x, x ∈ xs -> x ∈ population) /\
    (NoDup population -> NoDup xs).
Proof.
  intros Hk. unfold sample.
  destruct (Z.ltb_spec k 0); [lia|].
  destruct (Z.ltb_spec (Z.of_nat (length population)) k); [lia|]. cbn.
  pose proof (sample_aux_spec (Z.to_nat k) population r) as H1.
  destruct (sample_aux population (Z.to_nat k) r) as [xs r'].
  exists xs, r'. split; [reflexivity|]. apply H1. lia.
Qed.

(** *** What a step leaves alone *)

(** Everything but the graph and the random source. *)
Definition frame (self self' : generator) : Prop :=
  min_nodes self' = min_nodes self /\ max_nodes self' = max_nodes self /\
  min_connections self' = min_connections self /\
  max_connections self' = max_connections self /\
  nodes self' = nodes self /\
  lmstudio_connector self' = lmstudio_connector self /\
  used_names self' = used_names self.

Lemma frame_refl self : frame self self.
Proof. unfold frame. tauto. Qed.

Lemma frame_trans s1 s2 s3 : frame s1 s2 -> frame s2 s3 -> frame s1 s3.
Proof. unfold frame. intuition congruence. Qed.

Lemma frame_set_graph g self : frame self (set_graph g self).
Proof. unfold frame. cbn. tauto. Qed.

Lemma frame_set_random r self : frame self (set_random r self).
Proof. unfold frame. cbn. tauto. Qed.

(** *** [_generate_connections] *)

(** The entry of a node at position [p] after the loop has passed it. *)
Definition connected (l : list string) (p : nat) (n : string)
    (old new : option (list string)) : Prop :=
  if decide (n = "END" \/ drop (S p) l = []) then new = old
  else exists targets,
      new = Some targets /\ targets <> [] /\ NoDup targets /\
      forall v, v ∈ targets -> v ∈ drop (S p) l.

Lemma connect_node_spec i node self :
  NoDup (nodes self) ->
  (1 <= min_connections self <= max_connections self)%Z ->
  exists self',
    connect_node i node self = Ok self' /\ frame self self' /\
    (forall n, n <> node -> graph self' !! n = graph self !! n) /\
    connected (nodes self) i node (graph self !! node) (graph self' !! node).
Proof.
  intros Hnd Hc. unfold connect_node, connected.
  destruct (decide (node = "END")) as [->|Hne].
  { exists self. split; [reflexivity|]. split; [apply frame_refl|].
    split; [reflexivity|].
    destruct (decide (_ \/ _)) as [|Hno]; [reflexivity|tauto]. }
  destruct (decide (drop (S i) (nodes self) = [])) as [Hlast|Hmore].
  { exists self. split; [reflexivity|]. split; [apply frame_refl|].
    split; [reflexivity|].
    destruct (decide (_ \/ _)) as [|Hno]; [reflexivity|tauto]. }
  set (remaining := drop (S i) (nodes self)) in *.
  assert (0 < length remaining) as Hlen
    by (destruct remaining; [contradiction|cbn; lia]).
  set (hi := Z.min (max_connections self) (Z.of_nat (length remaining))).
  set (lo0 := Z.min (min_connections self) (Z.of_nat (length remaining))).
  set (lo := if (hi <? lo0)%Z then hi else lo0).
  assert (1 <= lo <= hi /\ hi <= Z.of_nat (length remaining))%Z as (Hlo & Hhi).
  { unfold lo, hi, lo0. destruct (Z.ltb_spec
      (Z.min (max_connections self) (Z.of_nat (length remaining)))
      (Z.min (min_connections self) (Z.of_nat (length remaining)))); lia. }
  destruct (randint_ok lo hi (random self)) as (num & r1 & -> & Hnum); [lia|].
  cbn [rbind].
  destruct (sample_ok remaining num r1) as (ts & r2 & -> & Hts & Hsub & Hndts); [lia|].
  cbn [rbind]. eexists. split; [reflexivity|].
  split; [eapply frame_trans; [apply frame_set_graph|apply frame_set_random]|].
  cbn [graph set_random set_graph]. split.
  - intros n Hn. apply lookup_insert_ne. congruence.
  - destruct (decide (_ \/ _)) as [[?|?]|_]; [contradiction..|].
    exists ts. split; [apply lookup_insert_eq|].
    split; [intros ->; cbn in Hts; lia|]. split; [|exact Hsub].
    apply Hndts. unfold remaining.
    eapply sublist_NoDup; [exact Hnd|]. apply sublist_drop.
Qed.

Lemma connect_from_spec todo : forall i pre self,
  nodes self = pre ++ todo -> length pre = i ->
  NoDup (nodes self) ->
  (1 <= min_connections self <= max_connections self)%Z ->
  exists self',
    connect_from i todo self = Ok self' /\ frame self self' /\
    (forall n, n ∉ todo -> graph self' !! n = graph self !! n) /\
    (forall p n, todo !! p = Some n ->
       connected (nodes self) (i + p) n (graph self !! n) (graph self' !! n)).
Proof.
  induction todo as [|node todo IH]; intros i pre self Hnodes Hi Hnd Hc.
  { exists self. split; [reflexivity|]. split; [apply frame_refl|].
    split; [reflexivity|]. intros p n Hp. discriminate. }
  cbn [connect_from].
  destruct (connect_node_spec i node self Hnd Hc) as (s1 & -> & Hf1 & Hother & Hnode).
  cbn [rbind].
  pose proof Hf1 as (_ & _ & Hmin & Hmax & Hn1 & _).
  destruct (IH (S i) (pre ++ [node]) s1) as (s2 & -> & Hf2 & Hrest & Htodo).
  { rewrite Hn1, Hnodes, <- app_assoc. reflexivity. }
  { rewrite length_app. cbn. lia. }
  { rewrite Hn1. exact Hnd. }
  { rewrite Hmin, Hmax. exact Hc. }
  assert (node ∉ todo) as Hfresh.
  { rewrite Hnodes in Hnd. apply NoDup_app in Hnd as (_ & _ & Hnd).
    apply NoDup_cons in Hnd as [Hnd _]. exact Hnd. }
  exists s2. split; [reflexivity|]. split; [eapply frame_trans; eauto|]. split.
  - intros n Hn. apply not_elem_of_cons in Hn as [Hne Hn].
    rewrite (Hrest n Hn). apply Hother, Hne.
  - intros [|p] n Hp; cbn in Hp.
    + injection Hp as <-. rewrite Nat.add_0_r, (Hrest node Hfresh). exact Hnode.
    + specialize (Htodo p n Hp). rewrite Hn1 in Htodo.
      replace (i + S p) with (S i + p) by lia.
      rewrite <- (Hother n); [exact Htodo|].
      intros ->. apply Hfresh. eapply list_elem_of_lookup_2, Hp.
Qed.

Definition out_ok (g : gmap string (list string)) (n : string) : Prop :=
  exists targets, g !! n = Some targets /\ targets <> [].

Definition in_ok (g : gmap string (list string)) (n : string) : Prop :=
  exists u, edge g u n.

(** [g'] has the keys of [g] and at least its edges. *)
Definition extends (g g' : gmap string (list string)) : Prop :=
  forall u targets,
    g !! u = Some targets ->
    exists targets', g' !! u = Some targets' /\ forall v, v ∈ targets -> v ∈ targets'.

Lemma extends_refl g : extends g g.
Proof. intros u ts H. eauto. Qed.

Lemma extends_trans g1 g2 g3 : extends g1 g2 -> extends g2 g3 -> extends g1 g3.
Proof.
  intros H12 H23 u ts H. destruct (H12 u ts H) as (ts2 & H2 & Hs2).
  destruct (H23 u ts2 H2) as (ts3 & H3 & Hs3). eauto.
Qed.

Lemma extends_insert g n old new :
  g !! n = Some old -> (forall v, v ∈ old -> v ∈ new) -> extends g (<[n := new]> g).
Proof.
  intros Hn Hsub u ts Hu. destruct (decide (n = u)) as [<-|Hne].
  - rewrite lookup_insert_eq. rewrite Hn in Hu. injection Hu as <-. eauto.
  - rewrite lookup_insert_ne by exact Hne. eauto.
Qed.

Lemma out_ok_extends g g' n : extends g g' -> out_ok g n -> out_ok g' n.
Proof.
  intros Hext (ts & Hn & Hne). destruct (Hext n ts Hn) as (ts' & Hn' & Hsub).
  exists ts'. split; [exact Hn'|]. intros ->.
  destruct ts as [|v ts]; [contradiction|]. specialize (Hsub v). 
  assert (v ∈ []) as Hv by (apply Hsub; left). inversion Hv.
Qed.

Lemma in_ok_extends g g' n : extends g g' -> in_ok g n -> in_ok g' n.
Proof.
  intros Hext (u & ts & Hu & Hin). destruct (Hext u ts Hu) as (ts' & Hu' & Hsub).
  exists u, ts'. auto.
Qed.

Lemma remove_first_subset x l v : v ∈ remove_first x l -> v ∈ l.
Proof.
  induction l as [|y l IH]; cbn; [auto|].
  destruct (decide (y = x)); intros Hv; [right; exact Hv|].
  apply elem_of_cons in Hv as [->|Hv]; [left|right; auto].
Qed.

Lemma remove_first_nodup x l v : NoDup l -> v ∈ remove_first x l -> v <> x.
Proof.
  induction l as [|y l IH]; cbn; intros Hnd Hv; [inversion Hv|].
  apply NoDup_cons in Hnd as [Hy Hnd].
  destruct (decide (y = x)) as [->|Hne]; [intros ->; contradiction|].
  apply elem_of_cons in Hv as [->|Hv]; auto.
Qed.

Lemma filter_all {A} (P : A -> Prop) `{forall x, Decision (P x)} (l : list A) :
  Forall P l -> filter P l = l.
Proof.
  induction 1 as [|x l Hx _ IH]; [reflexivity|].
  rewrite filter_cons_True by exact Hx. f_equal. exact IH.
Qed.

Lemma empty_graph_lookup l n :
  empty_graph l !! n = if decide (n ∈ l) then Some [] else None.
Proof.
  unfold empty_graph.
  assert (forall acc : gmap string (list string), foldl (fun g node => <[node := []]> g) acc l !! n
                      = if decide (n ∈ l) then Some [] else acc !! n) as H.
  { induction l as [|x l IH]; intros acc; cbn [foldl].
    - destruct (decide (n ∈ [])) as [Hin|]; [inversion Hin|reflexivity].
    - rewrite IH. destruct (decide (n ∈ l)) as [Hin|Hnin].
      + destruct (decide (n ∈ x :: l)) as [|Hno]; [reflexivity|].
        destruct Hno. right. exact Hin.
      + destruct (decide (n ∈ x :: l)) as [Hin|Hno].
        * apply elem_of_cons in Hin as [->|Hin]; [|contradiction].
          apply lookup_insert_eq.
        * apply not_elem_of_cons in Hno as [Hne _].
          apply lookup_insert_ne. congruence. }
  rewrite H. destruct (decide (n ∈ l)); [reflexivity|apply lookup_empty].
Qed.

Section Repair.
Variable acts : list string.
Hypothesis Hnd : NoDup acts.
Hypothesis Hstart : "START" ∉ acts.
Hypothesis Hend : "END" ∉ acts.
Hypothesis Hne : acts <> [].

Definition all_nodes : list string := "START" :: "END" :: acts.

Definition later (j : nat) (v : string) : Prop :=
  exists j', j < j' /\ acts !! j' = Some v.

(** The graph as [_generate_connections] leaves it. *)
Record generated (g : gmap string (list string)) : Prop := mkgenerated {
  gen_dom : forall n, is_Some (g !! n) <-> n ∈ all_nodes;
  gen_start : exists targets,
    g !! "START" = Some targets /\ NoDup targets /\
    forall v, v ∈ targets -> v = "END" \/ v ∈ acts;
  gen_end : g !! "END" = Some [];
  gen_targets : forall j a,
    acts !! j = Some a ->
    exists targets,
      g !! a = Some targets /\ (S j < length acts -> targets <> []) /\
      forall v, v ∈ targets -> later j v
}.

(** The graph during the repair pass: every edge leads forward. *)
Record forward (g : gmap string (list string)) : Prop := mkforward {
  fw_dom : forall n, is_Some (g !! n) <-> n ∈ all_nodes;
  fw_start : exists targets,
    g !! "START" = Some targets /\ forall v, v ∈ targets -> v ∈ acts;
  fw_end : g !! "END" = Some [];
  fw_targets : forall j a,
    acts !! j = Some a ->
    exists targets,
      g !! a = Some targets /\ forall v, v ∈ targets -> v = "END" \/ later j v
}.

Lemma all_nodes_nodup : NoDup all_nodes.
Proof.
  unfold all_nodes. apply NoDup_cons. split.
  - intros Hin. apply elem_of_cons in Hin as [?|Hin]; [discriminate|contradiction].
  - apply NoDup_cons. split; assumption.
Qed.

Lemma index_start : list_index "START" all_nodes = 0.
Proof. reflexivity. Qed.

Lemma index_end : list_index "END" all_nodes = 1.
Proof. reflexivity. Qed.

Lemma act_not_start a : a ∈ acts -> a <> "START".
Proof. intros Hin ->. contradiction. Qed.

Lemma act_not_end a : a ∈ acts -> a <> "END".
Proof. intros Hin ->. contradiction. Qed.

Lemma index_act j a : acts !! j = Some a -> list_index a all_nodes = S (S j).
Proof.
  intros Hj. apply list_index_lookup; [apply all_nodes_nodup|exact Hj].
Qed.

Lemma middle_nodes_all : middle_nodes all_nodes = acts.
Proof.
  unfold middle_nodes, all_nodes.
  rewrite filter_cons_False by tauto.
  rewrite filter_cons_False by tauto.
  apply filter_all.
  apply Forall_forall. intros a Ha. split; [apply act_not_start|apply act_not_end]; auto.
Qed.

Lemma forward_insert g n old new :
  forward g -> g !! n = Some old -> n <> "END" ->
  (n = "START" -> forall v, v ∈ new -> v ∈ acts) ->
  (forall j, acts !! j = Some n -> forall v, v ∈ new -> v = "END" \/ later j v) ->
  forward (<[n := new]> g).
Proof.
  intros [Hdom Hs He Ht] Hn Hnend Hns Hna. constructor.
  - intros m. rewrite <- Hdom. destruct (decide (n = m)) as [<-|Hm].
    + rewrite lookup_insert_eq, Hn. split; eauto.
    + rewrite lookup_insert_ne by exact Hm. reflexivity.
  - destruct (decide (n = "START")) as [->|Hm].
    + exists new. rewrite lookup_insert_eq. auto.
    + rewrite lookup_insert_ne by exact Hm. exact Hs.
  - rewrite lookup_insert_ne by exact Hnend. exact He.
  - intros j a Hj. destruct (decide (n = a)) as [<-|Hm].
    + exists new. rewrite lookup_insert_eq. split; [reflexivity|]. apply Hna, Hj.
    + rewrite lookup_insert_ne by exact Hm. apply Ht, Hj.
Qed.

Lemma connected_start new :
  connected all_nodes 0 "START" (Some []) new ->
  exists targets,
    new = Some targets /\ NoDup targets /\
    forall v, v ∈ targets -> v = "END" \/ v ∈ acts.
Proof.
  unfold connected. destruct (decide (_ \/ _)) as [[?|?]|_]; [discriminate..|].
  intros (ts & -> & _ & Hndts & Hsub). exists ts. split; [reflexivity|].
  split; [exact Hndts|]. intros v Hv. apply Hsub in Hv. cbn in Hv.
  apply elem_of_cons in Hv. exact Hv.
Qed.

Lemma connected_act j a new :
  acts !! j = Some a ->
  connected all_nodes (S (S j)) a (Some []) new ->
  exists targets,
    new = Some targets /\ (S j < length acts -> targets <> []) /\
    forall v, v ∈ targets -> later j v.
Proof.
  intros Hj. unfold connected. cbn [all_nodes drop].
  destruct (decide (_ \/ _)) as [[Ha|Hlast]|Hmore].
  - apply list_elem_of_lookup_2 in Hj. subst a. contradiction.
  - intros ->. exists []. split; [reflexivity|]. split.
    + intros Hlt. apply (f_equal length) in Hlast. rewrite length_drop in Hlast.
      cbn in Hlast. lia.
    + intros v Hv. inversion Hv.
  - intros (ts & -> & Hnets & _ & Hsub). exists ts. split; [reflexivity|].
    split; [auto|]. intros v Hv. apply Hsub, list_elem_of_lookup_1 in Hv as [p Hp].
    rewrite lookup_drop in Hp. exists (S j + p). split; [lia|exact Hp].
Qed.

Lemma generated_after_connect self :
  nodes self = all_nodes -> graph self = empty_graph all_nodes ->
  (1 <= min_connections self <= max_connections self)%Z ->
  exists self',
    _generate_connections self = Ok self' /\ frame self self' /\
    generated (graph self').
Proof.
  intros Hnodes Hgraph Hc. unfold _generate_connections.
  destruct (connect_from_spec (nodes self) 0 [] self)
    as (s1 & -> & Hf & Hrest & Hcon); auto.
  { rewrite Hnodes. apply all_nodes_nodup. }
  exists s1. split; [reflexivity|]. split; [exact Hf|].
  rewrite Hnodes, Hgraph in Hcon, Hrest. cbn [Nat.add] in Hcon.
  assert (forall p n, all_nodes !! p = Some n ->
            connected all_nodes p n (Some []) (graph s1 !! n)) as Hcon'.
  { intros p n Hp. specialize (Hcon p n Hp).
    rewrite empty_graph_lookup in Hcon.
    destruct (decide (n ∈ all_nodes)) as [|Hno]; [exact Hcon|].
    destruct Hno. eapply list_elem_of_lookup_2, Hp. }
  clear Hcon.
  destruct (connected_start _ (Hcon' 0 "START" eq_refl)) as (ts0 & Hs0 & Hnd0 & Hsub0).
  assert (graph s1 !! "END" = Some []) as Hgend.
  { pose proof (Hcon' 1 "END" eq_refl) as H1. unfold connected in H1.
    destruct (decide (_ \/ _)) as [_|Hno]; [exact H1|]. destruct Hno. auto. }
  constructor.
  - intros n. split.
    + intros Hsome. destruct (decide (n ∈ all_nodes)) as [|Hno]; [assumption|].
      rewrite (Hrest n Hno), empty_graph_lookup in Hsome.
      destruct (decide (n ∈ all_nodes)); [contradiction|].
      destruct Hsome; discriminate.
    + intros Hin. unfold all_nodes in Hin.
      apply elem_of_cons in Hin as [->|Hin]; [rewrite Hs0; eauto|].
      apply elem_of_cons in Hin as [->|Hin]; [rewrite Hgend; eauto|].
      apply list_elem_of_lookup_1 in Hin as [j Hj].
      destruct (connected_act j n _ Hj (Hcon' (S (S j)) n Hj)) as (ts & -> & _).
      eauto.
  - exists ts0. auto.
  - exact Hgend.
  - intros j a Hj.
    destruct (connected_act j a _ Hj (Hcon' (S (S j)) a Hj)) as (ts & Hts & H1 & H2).
    exists ts. auto.
Qed.

Lemma clear_spec self :
  generated (graph self) ->
  forward (graph (clear_start_and_end self)) /\
  (forall j a, acts !! j = Some a -> S j < length acts ->
               out_ok (graph (clear_start_and_end self)) a) /\
  frame self (clear_start_and_end self) /\
  random (clear_start_and_end self) = random self.
Proof.
  intros [Hdom (ts0 & Hs0 & Hnd0 & Hsub0) Hgend Ht].
  unfold clear_start_and_end.
  set (g1 := map_imap (fun node targets => Some (strip_targets node targets))
                      (graph self)).
  assert (forall n, g1 !! n = strip_targets n <$> graph self !! n) as Hg1.
  { intros n. unfold g1. rewrite map_lookup_imap.
    destruct (graph self !! n); reflexivity. }
  assert (g1 !! "END" = Some []) as Hend1.
  { rewrite Hg1, Hgend. reflexivity. }
  assert (forall j a, acts !! j = Some a ->
            g1 !! a = graph self !! a) as Hact1.
  { intros j a Hj. rewrite Hg1.
    destruct (Ht j a Hj) as (ts & Hts & _ & Hlater). rewrite Hts. cbn. f_equal.
    unfold strip_targets.
    destruct (decide (a = "START")) as [->|_].
    { apply list_elem_of_lookup_2 in Hj. contradiction. }
    apply remove_first_notin. intros Hin.
    destruct (Hlater _ Hin) as (j' & _ & Hj').
    apply list_elem_of_lookup_2 in Hj'. contradiction. }
  destruct (decide (is_Some (g1 !! "END"))) as [_|Hno];
    [|destruct Hno; rewrite Hend1; eauto].
  rewrite (insert_id _ _ _ Hend1).
  cbn [graph set_graph random]. split; [|split; [|split]].
  - constructor.
    + intros n. rewrite <- Hdom, Hg1.
      destruct (graph self !! n); cbn; split; intros [? ?]; eauto; discriminate.
    + exists (strip_targets "START" ts0). rewrite Hg1, Hs0. split; [reflexivity|].
      intros v Hv. unfold strip_targets in Hv.
      destruct (decide ("START" = "START")) as [_|]; [|contradiction].
      assert ("START" ∉ ts0) as Hns.
      { intros Hin. destruct (Hsub0 _ Hin) as [?|?]; [discriminate|contradiction]. }
      rewrite (remove_first_notin _ _ Hns) in Hv.
      pose proof (remove_first_nodup _ _ _ Hnd0 Hv) as Hvne.
      apply remove_first_subset in Hv.
      destruct (Hsub0 v Hv); [contradiction|assumption].
    + exact Hend1.
    + intros j a Hj. rewrite (Hact1 j a Hj).
      destruct (Ht j a Hj) as (ts & Hts & _ & Hlater). exists ts. auto.
  - intros j a Hj Hlt. unfold out_ok. rewrite (Hact1 j a Hj).
    destruct (Ht j a Hj) as (ts & Hts & Hnets & _). exists ts. auto.
  - apply frame_set_graph.
  - reflexivity.
Qed.

Lemma ensure_start_spec self :
  nodes self = all_nodes -> forward (graph self) ->
  exists self',
    ensure_start_has_target self = Ok self' /\ frame self self' /\
    forward (graph self') /\ extends (graph self) (graph self') /\
    out_ok (graph self') "START".
Proof.
  intros Hnodes Hfw. pose proof Hfw as [Hdom (ts0 & Hs0 & Hsub0) Hgend Ht].
  unfold ensure_start_has_target, getitem. rewrite Hs0. cbn [rbind].
  destruct (decide (ts0 = [])) as [->|Hnets].
  2:{ exists self. split; [reflexivity|]. split; [apply frame_refl|].
      split; [exact Hfw|]. split; [apply extends_refl|]. exists ts0. auto. }
  rewrite Hnodes, middle_nodes_all.
  destruct (decide (acts = [])) as [|_]; [contradiction|].
  destruct (choice_ok acts (random self) Hne) as (target & r & -> & Hin).
  cbn [rbind]. eexists. split; [reflexivity|].
  split; [eapply frame_trans; [apply frame_set_graph|apply frame_set_random]|].
  cbn [graph set_random set_graph]. split; [|split].
  - apply (forward_insert _ "START" [] _ Hfw Hs0); [discriminate| |].
    + intros _ v Hv. apply list_elem_of_singleton in Hv as ->. exact Hin.
    + intros j Hj. apply list_elem_of_lookup_2 in Hj. contradiction.
  - eapply extends_insert; [exact Hs0|]. intros v Hv. inversion Hv.
  - exists [target]. rewrite lookup_insert_eq. split; [reflexivity|discriminate].
Qed.

Lemma later_index_target j a n :
  acts !! j = Some a -> n ∈ all_nodes -> n <> "START" ->
  list_index a all_nodes < list_index n all_nodes -> later j n.
Proof.
  intros Hj Hin Hns Hlt. rewrite (index_act j a Hj) in Hlt.
  unfold all_nodes in Hin.
  apply elem_of_cons in Hin as [->|Hin]; [contradiction|].
  apply elem_of_cons in Hin as [->|Hin]; [rewrite index_end in Hlt; lia|].
  apply list_elem_of_lookup_1 in Hin as [j' Hj'].
  rewrite (index_act j' n Hj') in Hlt. exists j'. split; [lia|exact Hj'].
Qed.

Lemma ensure_outgoing_spec j a self :
  acts !! j = Some a -> nodes self = all_nodes -> forward (graph self) ->
  exists self',
    ensure_outgoing a self = Ok self' /\ frame self self' /\
    forward (graph self') /\ extends (graph self) (graph self') /\
    out_ok (graph self') a.
Proof.
  intros Hj Hnodes Hfw. pose proof Hfw as [Hdom _ Hgend Ht].
  destruct (Ht j a Hj) as (ts & Hts & Hsub).
  assert (a <> "END") as Hane by (apply act_not_end; eapply list_elem_of_lookup_2, Hj).
  assert (a <> "START") as Hans
    by (apply act_not_start; eapply list_elem_of_lookup_2, Hj).
  unfold ensure_outgoing, getitem. rewrite Hts. cbn [rbind].
  destruct (decide (ts = [])) as [->|Hnets].
  2:{ exists self. split; [reflexivity|]. split; [apply frame_refl|].
      split; [exact Hfw|]. split; [apply extends_refl|]. exists ts. auto. }
  rewrite Hnodes.
  set (cand := filter _ all_nodes).
  set (cand' := if decide ("END" ∈ cand /\ 1 < length cand)
                then remove_first "END" cand else cand).
  assert (forall v, v ∈ cand' -> later j v) as Hcand.
  { intros v Hv.
    assert (v ∈ cand) as Hv'.
    { unfold cand' in Hv. destruct (decide (_ /\ _)); [|exact Hv].
      eapply remove_first_subset, Hv. }
    apply list_elem_of_filter in Hv' as (((Hvs & _) & Hlt) & Hvin).
    eapply later_index_target; eauto. }
  destruct (decide (cand' = [])) as [_|Hcne].
  - eexists. split; [reflexivity|]. split; [apply frame_set_graph|].
    cbn [graph set_graph]. split; [|split].
    + apply (forward_insert _ a [] _ Hfw Hts); [exact Hane|contradiction|].
      intros j0 _ v Hv. apply list_elem_of_singleton in Hv as ->. left. reflexivity.
    + eapply extends_insert; [exact Hts|]. intros v Hv. inversion Hv.
    + exists ["END"]. rewrite lookup_insert_eq. split; [reflexivity|discriminate].
  - destruct (choice_ok cand' (random self) Hcne) as (target & r & -> & Hin).
    cbn [rbind]. eexists. split; [reflexivity|].
    split; [eapply frame_trans; [apply frame_set_graph|apply frame_set_random]|].
    cbn [graph set_random set_graph]. split; [|split].
    + apply (forward_insert _ a [] _ Hfw Hts); [exact Hane|contradiction|].
      intros j0 Hj0 v Hv. apply list_elem_of_singleton in Hv as ->. right.
      assert (j0 = j) as -> by (eapply NoDup_lookup; eauto).
      apply Hcand, Hin.
    + eapply extends_insert; [exact Hts|]. intros v Hv. inversion Hv.
    + exists [target]. rewrite lookup_insert_eq. split; [reflexivity|discriminate].
Qed.

Lemma ensure_incoming_spec j a self :
  acts !! j = Some a -> nodes self = all_nodes -> forward (graph self) ->
  exists self',
    ensure_incoming a self = Ok self' /\ frame self self' /\
    forward (graph self') /\ extends (graph self) (graph self') /\
    in_ok (graph self') a.
Proof.
  intros Hj Hnodes Hfw. pose proof Hfw as [Hdom (ts0 & Hs0 & Hsub0) Hgend Ht].
  assert (a ∈ acts) as Hain by (eapply list_elem_of_lookup_2, Hj).
  unfold ensure_incoming.
  destruct (has_incoming (graph self) a) eqn:Hinc.
  { exists self. split; [reflexivity|]. split; [apply frame_refl|].
    split; [exact Hfw|]. split; [apply extends_refl|].
    apply has_incoming_edge, Hinc. }
  rewrite Hnodes. set (cand := filter _ all_nodes).
  destruct (decide (cand = [])) as [_|Hcne].
  - unfold getitem. rewrite Hs0. cbn [rbind]. eexists. split; [reflexivity|].
    split; [apply frame_set_graph|]. cbn [graph set_graph]. split; [|split].
    + apply (forward_insert _ "START" ts0 _ Hfw Hs0); [discriminate| |].
      * intros _ v Hv. apply elem_of_app in Hv as [Hv|Hv]; [auto|].
        apply list_elem_of_singleton in Hv as ->. exact Hain.
      * intros j0 Hj0. apply list_elem_of_lookup_2 in Hj0. contradiction.
    + eapply extends_insert; [exact Hs0|]. intros v Hv. apply elem_of_app. auto.
    + exists "START", (ts0 ++ [a]). rewrite lookup_insert_eq. split; [reflexivity|].
      apply elem_of_app. right. left.
  - destruct (choice_ok cand (random self) Hcne) as (source & r & -> & Hin).
    cbn [rbind]. cbn [graph set_random].
    apply list_elem_of_filter in Hin as (((Hse & Hsa) & Hlt) & Hsin).
    destruct (proj2 (Hdom source) Hsin) as [sts Hsts].
    unfold getitem. rewrite Hsts. cbn [rbind].
    destruct (decide (a ∈ sts)) as [Hasts|Hnot].
    { eexists. split; [reflexivity|]. split; [apply frame_set_random|].
      cbn [graph set_random]. split; [exact Hfw|]. split; [apply extends_refl|].
      exists source, sts. auto. }
    eexists. split; [reflexivity|].
    split; [eapply frame_trans; [apply frame_set_random|apply frame_set_graph]|].
    cbn [graph set_random set_graph]. split; [|split].
    + apply (forward_insert _ source sts _ Hfw Hsts); [exact Hse| |].
      * intros -> v Hv. rewrite Hs0 in Hsts. injection Hsts as <-.
        apply elem_of_app in Hv as [Hv|Hv]; [auto|].
        apply list_elem_of_singleton in Hv as ->. exact Hain.
      * intros j0 Hj0 v Hv. destruct (Ht j0 source Hj0) as (ts' & Hts' & Hsub').
        rewrite Hsts in Hts'. injection Hts' as <-.
        apply elem_of_app in Hv as [Hv|Hv]; [auto|].
        apply list_elem_of_singleton in Hv as ->. right.
        rewrite (index_act j0 source Hj0), (index_act j a Hj) in Hlt.
        exists j. split; [lia|exact Hj].
    + eapply extends_insert; [exact Hsts|]. intros v Hv. apply elem_of_app. auto.
    + exists source, (sts ++ [a]). rewrite lookup_insert_eq. split; [reflexivity|].
      apply elem_of_app. right. left.
Qed.

Lemma repair_node_spec j a self :
  acts !! j = Some a -> nodes self = all_nodes -> forward (graph self) ->
  exists self',
    repair_node a self = Ok self' /\ frame self self' /\
    forward (graph self') /\ extends (graph self) (graph self') /\
    out_ok (graph self') a /\ in_ok (graph self') a.
Proof.
  intros Hj Hnodes Hfw. unfold repair_node.
  assert (a ∈ acts) as Hain by (eapply list_elem_of_lookup_2, Hj).
  destruct (decide (a = "START" \/ a = "END")) as [[->| ->]|_]; [contradiction..|].
  destruct (ensure_outgoing_spec j a self Hj Hnodes Hfw)
    as (s1 & -> & Hf1 & Hfw1 & Hx1 & Hout). cbn [rbind].
  assert (nodes s1 = all_nodes) as Hnodes1
    by (destruct Hf1 as (_ & _ & _ & _ & -> & _); exact Hnodes).
  destruct (ensure_incoming_spec j a s1 Hj Hnodes1 Hfw1)
    as (s2 & -> & Hf2 & Hfw2 & Hx2 & Hin).
  exists s2. split; [reflexivity|]. split; [eapply frame_trans; eauto|].
  split; [exact Hfw2|]. split; [eapply extends_trans; eauto|].
  split; [eapply out_ok_extends; eauto|exact Hin].
Qed.

Lemma repair_acts_spec todo : forall self,
  (forall a, a ∈ todo -> a ∈ acts) ->
  nodes self = all_nodes -> forward (graph self) ->
  exists self',
    repair_nodes todo self = Ok self' /\ frame self self' /\
    forward (graph self') /\ extends (graph self) (graph self') /\
    forall a, a ∈ todo -> out_ok (graph self') a /\ in_ok (graph self') a.
Proof.
  induction todo as [|a todo IH]; intros self Hsub Hnodes Hfw.
  { exists self. split; [reflexivity|]. split; [apply frame_refl|].
    split; [exact Hfw|]. split; [apply extends_refl|]. intros a Ha. inversion Ha. }
  cbn [repair_nodes].
  destruct (list_elem_of_lookup_1 acts a (Hsub a (list_elem_of_here _ _))) as [j Hj].
  destruct (repair_node_spec j a self Hj Hnodes Hfw)
    as (s1 & -> & Hf1 & Hfw1 & Hx1 & Hout & Hin). cbn [rbind].
  assert (nodes s1 = all_nodes) as Hnodes1
    by (destruct Hf1 as (_ & _ & _ & _ & -> & _); exact Hnodes).
  destruct (IH s1) as (s2 & -> & Hf2 & Hfw2 & Hx2 & Hall); auto.
  { intros b Hb. apply Hsub. right. exact Hb. }
  exists s2. split; [reflexivity|]. split; [eapply frame_trans; eauto|].
  split; [exact Hfw2|]. split; [eapply extends_trans; eauto|].
  intros b Hb. apply elem_of_cons in Hb as [->|Hb]; [|auto].
  split; [eapply out_ok_extends; eauto|eapply in_ok_extends; eauto].
Qed.

Lemma repair_nodes_spec self :
  nodes self = all_nodes -> forward (graph self) ->
  exists self',
    repair_nodes (nodes self) self = Ok self' /\ frame self self' /\
    forward (graph self') /\ extends (graph self) (graph self') /\
    forall a, a ∈ acts -> out_ok (graph self') a /\ in_ok (graph self') a.
Proof.
  intros Hnodes Hfw. rewrite Hnodes. unfold all_nodes. cbn [repair_nodes].
  unfold repair_node at 1.
  destruct (decide ("START" = "START" \/ "START" = "END")) as [_|Hno];
    [|destruct Hno; auto].
  cbn [rbind]. unfold repair_node at 1.
  destruct (decide ("END" = "START" \/ "END" = "END")) as [_|Hno];
    [|destruct Hno; auto].
  cbn [rbind]. apply repair_acts_spec; auto.
Qed.

Lemma ensure_path_spec self :
  forward (graph self) ->
  (forall a, a ∈ acts -> out_ok (graph self) a) ->
  ensure_path_to_end self = Ok self.
Proof.
  intros [Hdom _ Hgend Ht] Hout. unfold ensure_path_to_end.
  assert (has_path_to_end (graph self) = true) as ->; [|reflexivity].
  apply has_path_to_end_edge.
  destruct (last acts) as [a|] eqn:Hlast.
  2:{ apply last_None in Hlast. contradiction. }
  rewrite last_lookup in Hlast.
  assert (a ∈ acts) as Hain by (eapply list_elem_of_lookup_2, Hlast).
  exists a. split; [apply act_not_start, Hain|].
  destruct (Hout a Hain) as (ts & Hts & Hnets).
  destruct (Ht _ a Hlast) as (ts' & Hts' & Hsub). rewrite Hts in Hts'.
  injection Hts' as <-. exists ts. split; [exact Hts|].
  destruct ts as [|v ts]; [contradiction|].
  destruct (Hsub v) as [->|(j' & Hlt & Hj')]; [left|left|].
  apply lookup_lt_Some in Hj'. lia.
Qed.

Lemma ensure_valid_spec self :
  nodes self = all_nodes -> generated (graph self) ->
  exists self',
    _ensure_valid_process self = Ok self' /\ frame self self' /\
    layered acts (graph self').
Proof.
  intros Hnodes Hgen. unfold _ensure_valid_process.
  destruct (clear_spec self Hgen) as (Hfw0 & Hout0 & Hf0 & _).
  set (s0 := clear_start_and_end self) in *.
  assert (nodes s0 = all_nodes) as Hnodes0
    by (destruct Hf0 as (_ & _ & _ & _ & -> & _); exact Hnodes).
  destruct (ensure_start_spec s0 Hnodes0 Hfw0) as (s1 & -> & Hf1 & Hfw1 & Hx1 & Hso).
  cbn [rbind].
  assert (nodes s1 = all_nodes) as Hnodes1
    by (destruct Hf1 as (_ & _ & _ & _ & -> & _); exact Hnodes0).
  destruct (repair_nodes_spec s1 Hnodes1 Hfw1) as (s2 & -> & Hf2 & Hfw2 & Hx2 & Hall).
  cbn [rbind].
  rewrite (ensure_path_spec s2 Hfw2) by (intros a Ha; apply Hall, Ha).
  exists s2. split; [reflexivity|].
  split; [eapply frame_trans; [exact Hf0|eapply frame_trans; eauto]|].
  pose proof Hfw2 as [Hdom (ts0 & Hs0 & Hsub0) Hgend Ht].
  constructor; [exact Hnd|exact Hstart|exact Hend|exact Hne| | |exact Hgend| |].
  - intros n. rewrite Hdom. unfold all_nodes. rewrite !elem_of_cons. reflexivity.
  - destruct (out_ok_extends _ _ "START" Hx2 Hso) as (ts & Hts & Hnets).
    exists ts. rewrite Hts in Hs0. injection Hs0 as <-. auto.
  - intros j a Hj. destruct (Ht j a Hj) as (ts & Hts & Hsub).
    destruct (Hall a (list_elem_of_lookup_2 _ _ _ Hj)) as ((ts' & Hts' & Hnets) & _).
    rewrite Hts in Hts'. injection Hts' as <-. exists ts. auto.
  - intros a Ha. apply Hall, Ha.
Qed.

End Repair.

(** *** Fresh names *)

Lemma elem_size_pos (X : gset string) x : x ∈ X -> 0 < size X.
Proof.
  intros Hx. destruct (size X) eqn:E; [|lia].
  apply size_empty_inv in E. set_solver.
Qed.

Lemma number_name_regime base used fuel : forall (X : gset string) c,
  size X <= fuel ->
  (forall c', c <= c' ->
     base +:+ " " +:+ pretty c' ∈ used -> base +:+ " " +:+ pretty c' ∈ X) ->
  exists name,
    number_name fuel base (base +:+ " " +:+ pretty c) (S c) used = Ok name /\
    name ∉ used.
Proof.
  induction fuel as [|fuel IH]; intros X c Hsize Hcover; cbn [number_name].
  - destruct (decide (base +:+ " " +:+ pretty c ∈ used)) as [Hin|Hout]; [|eauto].
    apply Hcover in Hin; [|lia]. apply elem_size_pos in Hin. lia.
  - destruct (decide (base +:+ " " +:+ pretty c ∈ used)) as [Hin|Hout]; [|eauto].
    apply (IH (X ∖ {[base +:+ " " +:+ pretty c]})).
    + apply Hcover in Hin; [|lia].
      rewrite size_difference by set_solver. rewrite size_singleton.
      apply elem_size_pos in Hin. lia.
    + intros c' Hc' Hused. apply elem_of_difference. split; [apply Hcover; [lia|auto]|].
      rewrite elem_of_singleton. intros Heq.
      do 2 apply (inj (String.app _)) in Heq. apply (inj pretty) in Heq. lia.
Qed.

Lemma number_name_spec base (used : gset string) :
  exists name,
    number_name (S (size used)) base base 1 used = Ok name /\ name ∉ used.
Proof.
  cbn [number_name]. destruct (decide (base ∈ used)) as [_|Hout]; [|eauto].
  apply (number_name_regime base used (size used) used 1); auto.
Qed.

Lemma fallback_counter_regime used fuel : forall (X : gset string) c,
  size X <= fuel ->
  (forall c', c <= c' ->
     "Activity_" +:+ pretty c' ∈ used -> "Activity_" +:+ pretty c' ∈ X) ->
  exists c',
    fallback_counter fuel c used = Ok c' /\ "Activity_" +:+ pretty c' ∉ used.
Proof.
  induction fuel as [|fuel IH]; intros X c Hsize Hcover; cbn [fallback_counter].
  - destruct (decide ("Activity_" +:+ pretty c ∈ used)) as [Hin|Hout]; [|eauto].
    apply Hcover in Hin; [|lia]. apply elem_size_pos in Hin. lia.
  - destruct (decide ("Activity_" +:+ pretty c ∈ used)) as [Hin|Hout]; [|eauto].
    apply (IH (X ∖ {["Activity_" +:+ pretty c]})).
    + apply Hcover in Hin; [|lia].
      rewrite size_difference by set_solver. rewrite size_singleton.
      apply elem_size_pos in Hin. lia.
    + intros c' Hc' Hused. apply elem_of_difference. split; [apply Hcover; [lia|auto]|].
      rewrite elem_of_singleton. intros Heq.
      apply (inj (String.app _)) in Heq. apply (inj pretty) in Heq. lia.
Qed.

(** What naming a node leaves alone. *)
Definition frame_names (self self' : generator) : Prop :=
  graph self' = graph self /\ nodes self' = nodes self /\
  (is_Some (lmstudio_connector self')) /\
  (forall x, x ∈ used_names self -> x ∈ used_names self').

Lemma get_activity_name_spec budget : forall attempt c self,
  3 <= attempt + budget ->
  exists name self',
    get_activity_name budget attempt c self = Ok (name, self') /\
    (name ∉ used_names self) /\ (name ∈ used_names self') /\
    frame_names self self'.
Proof.
  induction budget as [|budget IH]; intros attempt c self Hb;
    cbn [get_activity_name]; destruct (get_answer c) as [[answer|] c'].
  - destruct (decide (clean_name answer ∈ _)) as [Hin|Hout].
    + destruct (decide (attempt < 3)); [lia|].
      cbn [used_names set_connector] in *.
      destruct (number_name_spec (clean_name answer) (used_names self))
        as (name & -> & Hfresh).
      cbn [rbind]. eexists _, _. split; [reflexivity|]. split; [exact Hfresh|].
      unfold frame_names; cbn. split; [set_solver|]. repeat split; eauto. set_solver.
    + cbn [used_names set_connector] in *.
      eexists _, _. split; [reflexivity|]. split; [exact Hout|].
      unfold frame_names; cbn. split; [set_solver|]. repeat split; eauto. set_solver.
  - cbn [used_names set_connector].
    destruct (fallback_counter_regime (used_names self) (S (size (used_names self)))
                (used_names self) 1) as (k & -> & Hfresh); auto.
    cbn [rbind]. eexists _, _. split; [reflexivity|]. split; [exact Hfresh|].
    unfold frame_names; cbn. split; [set_solver|]. repeat split; eauto. set_solver.
  - destruct (decide (clean_name answer ∈ _)) as [Hin|Hout].
    + cbn [used_names set_connector] in *.
      destruct (decide (attempt < 3)) as [Hlt|Hge].
      * destruct (IH (S attempt) c' (set_connector c' self)) as (name & s' & -> & H);
          [lia|].
        exists name, s'. split; [reflexivity|]. exact H.
      * destruct (number_name_spec (clean_name answer) (used_names self))
          as (name & -> & Hfresh).
        cbn [rbind]. eexists _, _. split; [reflexivity|]. split; [exact Hfresh|].
        unfold frame_names; cbn. split; [set_solver|]. repeat split; eauto. set_solver.
    + cbn [used_names set_connector] in *.
      eexists _, _. split; [reflexivity|]. split; [exact Hout|].
      unfold frame_names; cbn. split; [set_solver|]. repeat split; eauto. set_solver.
  - cbn [used_names set_connector].
    destruct (fallback_counter_regime (used_names self) (S (size (used_names self)))
                (used_names self) 1) as (k & -> & Hfresh); auto.
    cbn [rbind]. eexists _, _. split; [reflexivity|]. split; [exact Hfresh|].
    unfold frame_names; cbn. split; [set_solver|]. repeat split; eauto. set_solver.
Qed.

Lemma frame_names_refl self :
  is_Some (lmstudio_connector self) -> frame_names self self.
Proof. unfold frame_names. auto. Qed.

Lemma frame_names_trans s1 s2 s3 :
  frame_names s1 s2 -> frame_names s2 s3 -> frame_names s1 s3.
Proof.
  intros (Hg1 & Hn1 & _ & Hu1) (Hg2 & Hn2 & Hc2 & Hu2).
  unfold frame_names. repeat split; auto; congruence.
Qed.

Lemma rename_nodes_spec todo : forall node_mapping new_nodes self,
  NoDup todo -> "START" ∉ todo -> "END" ∉ todo ->
  (forall a, a ∈ todo -> is_Some (graph self !! a)) ->
  is_Some (lmstudio_connector self) ->
  exists names node_mapping' self',
    rename_nodes todo node_mapping new_nodes self
      = Ok (node_mapping', new_nodes ++ names, self') /\
    length names = length todo /\
    (forall x, x ∉ todo -> node_mapping' !! x = node_mapping !! x) /\
    (forall j a, todo !! j = Some a -> node_mapping' !! a = names !! j) /\
    NoDup names /\ (forall x, x ∈ names -> x ∉ used_names self) /\
    frame_names self self'.
Proof.
  induction todo as [|a todo IH]; intros m nn self Hnd Hs He Hdom Hconn.
  { exists [], m, self. cbn [rename_nodes]. rewrite app_nil_r.
    split; [reflexivity|]. split; [reflexivity|]. split; [reflexivity|].
    split; [intros j a Hj; discriminate|]. split; [constructor|].
    split; [intros x Hx; inversion Hx|]. apply frame_names_refl, Hconn. }
  apply NoDup_cons in Hnd as [Ha Hnd].
  apply not_elem_of_cons in Hs as [Has Hs]. apply not_elem_of_cons in He as [Hae He].
  cbn [rename_nodes].
  destruct (decide (a = "START" \/ a = "END")) as [[?|?]|_]; [congruence..|].
  destruct (Hdom a (list_elem_of_here _ _)) as [ts Hts].
  unfold getitem at 1. rewrite Hts. cbn [rbind].
  unfold _get_activity_name. destruct Hconn as [c Hc]. rewrite Hc.
  destruct (decide (a = "START" \/ a = "END")) as [[?|?]|_]; [congruence..|].
  destruct (get_activity_name_spec 3 1 c self) as (name & s1 & -> & Hfresh & Hused & Hf1);
    [lia|].
  cbn [rbind]. pose proof Hf1 as (Hg1 & Hn1 & Hc1 & Hu1).
  destruct (IH (<[a := name]> m) (nn ++ [name]) s1)
    as (names & m' & s2 & -> & Hlen & Hrest & Hmap & Hndn & Hfr & Hf2); auto.
  { intros b Hb. rewrite Hg1. apply Hdom. right. exact Hb. }
  exists (name :: names), m', s2.
  split; [rewrite <- app_assoc; reflexivity|].
  split; [cbn; lia|]. split; [|split; [|split; [|split]]].
  - intros x Hx. apply not_elem_of_cons in Hx as [Hxa Hx].
    rewrite (Hrest x Hx). apply lookup_insert_ne. congruence.
  - intros [|j] b Hj; cbn in Hj.
    + injection Hj as <-. rewrite (Hrest a Ha). apply lookup_insert_eq.
    + apply Hmap, Hj.
  - apply NoDup_cons. split; [|exact Hndn]. intros Hin. apply (Hfr _ Hin Hused).
  - intros x Hx. apply elem_of_cons in Hx as [->|Hx]; [exact Hfresh|].
    intros Hxu. apply (Hfr x Hx), Hu1, Hxu.
  - eapply frame_names_trans; eauto.
Qed.

(** The renaming as a function: names outside the mapping stay. *)
Definition renaming (node_mapping : gmap string string) (x : string) : string :=
  default x (node_mapping !! x).

Lemma mapM_renaming (m : gmap string string) targets :
  (forall t, t ∈ targets -> is_Some (m !! t)) ->
  mapM (fun t => m !! t) targets = Some (renaming m <$> targets).
Proof.
  intros Hall. apply mapM_Some_2.
  induction targets as [|t targets IH]; [constructor|].
  cbn. constructor.
  - unfold renaming. destruct (Hall t (list_elem_of_here _ _)) as [y ->]. reflexivity.
  - apply IH. intros t' Ht'. apply Hall. right. exact Ht'.
Qed.

Lemma rename_items_spec (m : gmap string string) (its : list (string * list string)) :
  (forall it, it ∈ its ->
     is_Some (m !! it.1) /\ forall t, t ∈ it.2 -> is_Some (m !! t)) ->
  rename_items m its
    = Ok ((fun it : string * list string =>
             (renaming m it.1, renaming m <$> it.2)) <$> its).
Proof.
  induction its as [|it its IH]; intros Hall; [reflexivity|].
  cbn [rename_items]. unfold rename_item, getitem.
  destruct (Hall it (list_elem_of_here _ _)) as ([y Hy] & Hts).
  rewrite Hy. cbn [rbind]. rewrite (mapM_renaming m _ Hts). cbn [rbind].
  rewrite IH by (intros it' Hit'; apply Hall; right; exact Hit').
  cbn [rbind]. rewrite fmap_cons. do 3 f_equal.
  unfold renaming. destruct it as [k ts]. cbn in *. rewrite Hy. reflexivity.
Qed.

Section Rename.
Variable acts : list string.
Variable g g' : gmap string (list string).
Variable f : string -> string.
Hypothesis Hlay : layered acts g.
Hypothesis Hfs : f "START" = "START".
Hypothesis Hfe : f "END" = "END".
Hypothesis Hinj : forall x y,
  x ∈ all_nodes acts -> y ∈ all_nodes acts -> f x = f y -> x = y.
Hypothesis Hg'1 : forall old targets,
  g !! old = Some targets -> g' !! f old = Some (f <$> targets).
Hypothesis Hg'2 : forall k targets',
  g' !! k = Some targets' ->
  exists old targets, g !! old = Some targets /\ k = f old /\ targets' = f <$> targets.

Lemma in_all_nodes n : n ∈ all_nodes acts <-> n = "START" \/ n = "END" \/ n ∈ acts.
Proof. unfold all_nodes. rewrite !elem_of_cons. reflexivity. Qed.

Lemma layered_rename : layered (f <$> acts) g'.
Proof.
  pose proof Hlay as [Hnd Hs He Hne Hdom (ts0 & Hs0 & Hne0 & Hsub0) Hgend Ht Hin].
  constructor.
  - apply NoDup_fmap_2_strong; [|exact Hnd].
    intros x y Hx Hy. apply Hinj; apply in_all_nodes; auto.
  - intros Hc. apply list_elem_of_fmap in Hc as (a & Heq & Ha).
    rewrite <- Hfs in Heq. apply Hinj in Heq; [congruence| |];
      apply in_all_nodes; auto.
  - intros Hc. apply list_elem_of_fmap in Hc as (a & Heq & Ha).
    rewrite <- Hfe in Heq. apply Hinj in Heq; [congruence| |];
      apply in_all_nodes; auto.
  - destruct acts; [contradiction|discriminate].
  - intros n. split.
    + intros [ts' Hn]. destruct (Hg'2 n ts' Hn) as (old & ts & Hold & -> & _).
      assert (is_Some (g !! old)) as Ho by eauto.
      apply Hdom in Ho as [->|[->|Ho]]; [auto..|].
      right. right. apply list_elem_of_fmap_2, Ho.
    + intros [->|[->|Hn]].
      * rewrite <- Hfs. erewrite Hg'1; eauto.
      * rewrite <- Hfe. erewrite Hg'1; eauto.
      * apply list_elem_of_fmap in Hn as (a & -> & Ha).
        destruct (proj2 (Hdom a) (or_intror (or_intror Ha))) as [ts Hts].
        erewrite Hg'1; eauto.
  - exists (f <$> ts0). rewrite <- Hfs at 1. split; [apply Hg'1, Hs0|].
    split; [destruct ts0; [contradiction|discriminate]|].
    intros v Hv. apply list_elem_of_fmap in Hv as (v0 & -> & Hv0).
    apply list_elem_of_fmap_2, Hsub0, Hv0.
  - rewrite <- Hfe. rewrite (Hg'1 _ _ Hgend). reflexivity.
  - intros j a' Hj. apply list_lookup_fmap_Some in Hj as (a & -> & Hj).
    destruct (Ht j a Hj) as (ts & Hts & Hnets & Hsub).
    exists (f <$> ts). split; [apply Hg'1, Hts|].
    split; [destruct ts; [contradiction|discriminate]|].
    intros v Hv. apply list_elem_of_fmap in Hv as (v0 & -> & Hv0).
    destruct (Hsub v0 Hv0) as [->|(j' & Hlt & Hj')]; [left; exact Hfe|].
    right. exists j'. split; [exact Hlt|]. rewrite list_lookup_fmap, Hj'. reflexivity.
  - intros a' Ha'. apply list_elem_of_fmap in Ha' as (a & -> & Ha).
    destruct (Hin a Ha) as (u & ts & Hu & Hau).
    exists (f u), (f <$> ts). split; [apply Hg'1, Hu|].
    apply list_elem_of_fmap_2, Hau.
Qed.

End Rename.

Lemma activity_name_not_start (i : nat) : "Activity_" +:+ pretty i <> "START".
Proof. discriminate. Qed.

Lemma activity_name_not_end (i : nat) : "Activity_" +:+ pretty i <> "END".
Proof. discriminate. Qed.

Lemma activity_names_nodup num : NoDup (activity_names num).
Proof.
  unfold activity_names. apply NoDup_fmap_2_strong; [|apply NoDup_seq].
  intros i j _ _ Heq. apply (inj (String.app _)) in Heq.
  apply (inj pretty) in Heq. lia.
Qed.

Lemma activity_names_not_start num : "START" ∉ activity_names num.
Proof.
  unfold activity_names. intros Hin. apply list_elem_of_fmap in Hin as (i & Heq & _).
  symmetry in Heq. exact (activity_name_not_start _ Heq).
Qed.

Lemma activity_names_not_end num : "END" ∉ activity_names num.
Proof.
  unfold activity_names. intros Hin. apply list_elem_of_fmap in Hin as (i & Heq & _).
  symmetry in Heq. exact (activity_name_not_end _ Heq).
Qed.

Lemma activity_names_nonempty num : (3 <= num)%Z -> activity_names num <> [].
Proof.
  intros Hnum Hnil. apply (f_equal length) in Hnil.
  unfold activity_names in Hnil. rewrite length_map, length_seq in Hnil.
  cbn in Hnil. lia.
Qed.

Lemma relabel_spec acts self :
  layered acts (graph self) -> nodes self = all_nodes acts ->
  is_Some (lmstudio_connector self) ->
  "START" ∈ used_names self -> "END" ∈ used_names self ->
  exists self' acts',
    relabel self = Ok self' /\ layered acts' (graph self') /\
    nodes self' = all_nodes acts'.
Proof.
  intros Hlay Hnodes Hconn Hus Hue.
  pose proof Hlay as [Hnd Hs He Hne Hdom (ts0 & Hs0 & Hne0 & Hsub0) Hgend Ht Hin].
  unfold relabel. rewrite Hnodes. unfold all_nodes. cbn [rename_nodes].
  destruct (decide ("START" = "START" \/ "START" = "END")) as [_|Hno];
    [|destruct Hno; auto].
  destruct (decide ("END" = "START" \/ "END" = "END")) as [_|Hno];
    [|destruct Hno; auto].
  set (m0 := <["END" := "END"]> (<["START" := "START"]> (∅ : gmap string string))).
  destruct (rename_nodes_spec acts m0 ["START"; "END"] self)
    as (names & m & s1 & -> & Hlen & Hrest & Hmap & Hndn & Hfresh & Hg1 & Hn1 & _);
    auto.
  { intros a Ha. apply Hdom. auto. }
  cbn [rbind].
  assert (m !! "START" = Some "START") as Hms by (rewrite (Hrest _ Hs); reflexivity).
  assert (m !! "END" = Some "END") as Hme by (rewrite (Hrest _ He); reflexivity).
  assert (forall j a, acts !! j = Some a ->
            exists name, names !! j = Some name /\ m !! a = Some name) as Hact.
  { intros j a Hj. rewrite (Hmap j a Hj).
    destruct (lookup_lt_is_Some_2 names j) as [name Hname]; eauto.
    rewrite Hlen. eapply lookup_lt_Some, Hj. }
  assert (forall n, n ∈ all_nodes acts -> is_Some (m !! n)) as Hmdom.
  { intros n Hn. apply in_all_nodes in Hn as [->|[->|Hn]]; eauto.
    apply list_elem_of_lookup_1 in Hn as [j Hj].
    destruct (Hact j n Hj) as (name & _ & ->). eauto. }
  assert (forall u v, edge (graph self) u v -> v ∈ all_nodes acts) as Htarget.
  { intros u v Huv. apply in_all_nodes.
    destruct (edge_cases acts _ Hlay u v Huv) as [[_ Hv]|(j & _ & [->|(j' & _ & Hj')])];
      auto.
    right. right. eapply list_elem_of_lookup_2, Hj'. }
  rewrite Hg1. rewrite rename_items_spec.
  2:{ intros [k ts] Hit. apply elem_of_map_to_list in Hit. cbn. split.
      - apply Hmdom, in_all_nodes, Hdom. eauto.
      - intros t Hin'. apply Hmdom. apply (Htarget k t). exists ts. auto. }
  cbn [rbind]. eexists _, (renaming m <$> acts). split; [reflexivity|].
  cbn [graph nodes set_nodes set_graph].
  assert (renaming m "START" = "START") as Hfs by (unfold renaming; rewrite Hms; auto).
  assert (renaming m "END" = "END") as Hfe by (unfold renaming; rewrite Hme; auto).
  assert (forall j a, acts !! j = Some a -> names !! j = Some (renaming m a)) as Hfa.
  { intros j a Hj. destruct (Hact j a Hj) as (name & Hname & Hma).
    unfold renaming. rewrite Hma. exact Hname. }
  assert (forall x y, x ∈ all_nodes acts -> y ∈ all_nodes acts ->
            renaming m x = renaming m y -> x = y) as Hinj.
  { assert (forall a, a ∈ acts ->
              renaming m a ∈ names /\ renaming m a <> "START" /\
              renaming m a <> "END") as Hnew.
    { intros a Ha. apply list_elem_of_lookup_1 in Ha as [j Hj].
      pose proof (list_elem_of_lookup_2 _ _ _ (Hfa j a Hj)) as Hinn.
      split; [exact Hinn|].
      split; intros Heq; rewrite Heq in Hinn; apply (Hfresh _ Hinn); assumption. }
    intros x y Hx Hy Heq.
    apply in_all_nodes in Hx as [->|[->|Hx]], Hy as [->|[->|Hy]];
      rewrite ?Hfs, ?Hfe in Heq; try reflexivity; try discriminate;
      try (destruct (Hnew _ Hx) as (_ & ? & ?); congruence);
      try (destruct (Hnew _ Hy) as (_ & ? & ?); congruence).
    apply list_elem_of_lookup_1 in Hx as [i Hi], Hy as [j Hj].
    pose proof (Hfa i x Hi) as Hni. pose proof (Hfa j y Hj) as Hnj.
    rewrite Heq in Hni.
    assert (i = j) as -> by (eapply NoDup_lookup; eauto). congruence. }
  set (ren := fun it : string * list string =>
                (renaming m it.1, renaming m <$> it.2)).
  assert (NoDup ((ren <$> map_to_list (graph self)).*1)) as Hkeys.
  { rewrite <- list_fmap_compose.
    replace (fst ∘ ren) with (renaming m ∘ (fst : string * list string -> string))
      by reflexivity.
    rewrite list_fmap_compose.
    apply NoDup_fmap_2_strong; [|apply NoDup_fst_map_to_list].
    intros x y Hx Hy. apply Hinj.
    - apply list_elem_of_fmap in Hx as ([k ts] & -> & Hk).
      apply elem_of_map_to_list in Hk. apply in_all_nodes, Hdom. cbn. eauto.
    - apply list_elem_of_fmap in Hy as ([k ts] & -> & Hk).
      apply elem_of_map_to_list in Hk. apply in_all_nodes, Hdom. cbn. eauto. }
  split.
  - apply (layered_rename acts (graph self) _ (renaming m) Hlay Hfs Hfe Hinj).
    + intros old ts Hold. apply elem_of_list_to_map_1; [exact Hkeys|].
      apply list_elem_of_fmap. exists (old, ts). split; [reflexivity|].
      apply elem_of_map_to_list, Hold.
    + intros k ts' Hk. apply elem_of_list_to_map_2 in Hk.
      apply list_elem_of_fmap in Hk as ([old ts] & Heq & Hold).
      apply elem_of_map_to_list in Hold. injection Heq as -> ->.
      exists old, ts. auto.
  - unfold all_nodes. cbn. do 2 f_equal. apply list_eq. intros j.
    rewrite list_lookup_fmap.
    destruct (acts !! j) as [a|] eqn:Hj; cbn.
    + apply Hfa, Hj.
    + apply lookup_ge_None. rewrite Hlen. apply lookup_ge_None, Hj.
Qed.

(** What [generate_process] does on a generator fresh from [__init__]. *)
Theorem generate_process_spec (mn mx mc xc : Z) (conn : option connector) (r0 : rng) :
  let self := __init__ mn mx mc xc conn r0 in
  if decide (Z.max 3 mn <= mx)%Z then
    exists g self' acts,
      generate_process self = Ok (g, self') /\ graph self' = g /\
      nodes self' = all_nodes acts /\ layered acts g
  else generate_process self = Raise ValueError.
Proof.
  intros self. unfold generate_process, self.
  cbn [random set_graph __init__ min_nodes max_nodes].
  destruct (decide (Z.max 3 mn <= mx)%Z) as [Hle|Hgt].
  2:{ rewrite randint_empty by lia. reflexivity. }
  destruct (randint_ok (Z.max 3 mn) mx r0 Hle) as (num & r & -> & Hnum).
  cbn [rbind].
  set (acts := activity_names num).
  pose proof (activity_names_nodup num) as Hnd.
  pose proof (activity_names_not_start num) as Hs.
  pose proof (activity_names_not_end num) as He.
  assert (acts <> []) as Hne by (apply activity_names_nonempty; lia).
  fold acts in Hnd, Hs, He.
  match goal with
  | |- context [_generate_connections ?s] => set (s0 := s)
  end.
  destruct (generated_after_connect acts Hnd Hs He s0) as (s1 & -> & Hf1 & Hgen);
    [reflexivity|reflexivity|cbn; lia|].
  cbn [rbind].
  assert (nodes s1 = all_nodes acts) as Hn1
    by (destruct Hf1 as (_ & _ & _ & _ & -> & _); reflexivity).
  destruct (ensure_valid_spec acts Hnd Hs He Hne s1 Hn1 Hgen) as (s2 & -> & Hf2 & Hlay).
  cbn [rbind].
  assert (nodes s2 = all_nodes acts) as Hn2
    by (destruct Hf2 as (_ & _ & _ & _ & -> & _); exact Hn1).
  assert (lmstudio_connector s2 = conn) as Hc2.
  { destruct Hf2 as (_ & _ & _ & _ & _ & -> & _).
    destruct Hf1 as (_ & _ & _ & _ & _ & -> & _). reflexivity. }
  assert (used_names s2 = {["START"; "END"]}) as Hu2.
  { destruct Hf2 as (_ & _ & _ & _ & _ & _ & ->).
    destruct Hf1 as (_ & _ & _ & _ & _ & _ & ->). reflexivity. }
  rewrite Hc2. destruct conn as [c|].
  - destruct (relabel_spec acts s2 Hlay Hn2) as (s3 & acts' & -> & Hlay3 & Hn3).
    { rewrite Hc2. eauto. }
    { rewrite Hu2. set_solver. }
    { rewrite Hu2. set_solver. }
    cbn [rbind]. exists (graph s3), s3, acts'. auto.
  - cbn [rbind]. exists (graph s2), s2, acts. auto.
Qed.

(** *** The claims about the graph generator *)

(** The generator that [generate_process] leaves behind in the run used
    as an example: five nodes, no connector. *)
Definition example_graph : gmap string (list string) :=
  <["START" := ["Activity_2"; "Activity_1"]]>
    (<["Activity_1" := ["Activity_3"]]>
       (<["Activity_2" := ["Activity_3"]]>
          (<["Activity_3" := ["END"]]> (<["END" := []]> ∅)))).

Definition example_generator : generator :=
  mkgen 5 5 1 2 example_graph
        ["START"; "END"; "Activity_1"; "Activity_2"; "Activity_3"]
        None {["START"; "END"]} [9; 10]%nat.

Lemma example_run :
  generate_process (__init__ 5 5 1 2 None [0; 1; 2; 3; 4; 5; 6; 7; 8; 9; 10]%nat)
    = Ok (example_graph, example_generator).
Proof. vm_compute. reflexivity. Qed.

Lemma generate_process_returns_layered mn mx mc xc conn r g self' :
  generate_process (__init__ mn mx mc xc conn r) = Ok (g, self') ->
  graph self' = g /\ exists acts, nodes self' = all_nodes acts /\ layered acts g.
Proof.
  intros Hrun. pose proof (generate_process_spec mn mx mc xc conn r) as Hspec.
  cbn zeta in Hspec. destruct (decide (Z.max 3 mn <= mx)%Z).
  - destruct Hspec as (g1 & s1 & acts & Hrun1 & Hg & Hn & Hlay).
    rewrite Hrun in Hrun1. injection Hrun1 as <- <-. eauto.
  - rewrite Hrun in Hspec. discriminate.
Qed.

(** C1. Every graph that [generate_process] returns, whatever the
    parameters given to the constructor, the connector and the random
    stream, satisfies the structural invariants: START has no incoming
    edge and no edge to END, END has no outgoing edge, every other node
    has an incoming and an outgoing edge, every node is reachable from
    START, END is reachable from every node, and there is no cycle. *)
Theorem generated_graph_is_valid (mn mx mc xc : Z) (conn : option connector)
    (r : rng) (g : gmap string (list string)) (self' : generator) :
  generate_process (__init__ mn mx mc xc conn r) = Ok (g, self') ->
  process_graph_valid g.
Proof.
  intros Hrun.
  destruct (generate_process_returns_layered _ _ _ _ _ _ _ _ Hrun)
    as (_ & acts & _ & Hlay).
  exact (layered_valid acts g Hlay).
Qed.

Lemma generated_graph_is_valid_witness : process_graph_valid example_graph.
Proof.
  apply (generated_graph_is_valid 5 5 1 2 None
           [0; 1; 2; 3; 4; 5; 6; 7; 8; 9; 10]%nat example_graph example_generator).
  vm_compute. reflexivity.
Defined.

(** C5. On a generator whose graph satisfies the structural invariants
    (and whose node list names keys of the graph) [_ensure_valid_process]
    changes nothing: not the graph, not the node list, not the random
    stream.  In particular a second run of the repair pass on what
    [generate_process] has built changes nothing. *)
Theorem repair_pass_is_noop_on_valid_graph :
  (forall self,
      process_graph_valid (graph self) ->
      (forall n, n ∈ nodes self -> is_Some (graph self !! n)) ->
      _ensure_valid_process self = Ok self) /\
  (forall mn mx mc xc conn r g self',
      generate_process (__init__ mn mx mc xc conn r) = Ok (g, self') ->
      _ensure_valid_process self' = Ok self').
Proof.
  split; [exact ensure_valid_process_valid|].
  intros mn mx mc xc conn r g self' Hrun.
  destruct (generate_process_returns_layered _ _ _ _ _ _ _ _ Hrun)
    as (Hg & acts & Hn & Hlay).
  apply ensure_valid_process_valid.
  - rewrite Hg. exact (layered_valid acts g Hlay).
  - intros n Hin. rewrite Hg. apply (lay_dom _ _ Hlay).
    rewrite Hn in Hin. apply in_all_nodes in Hin. exact Hin.
Qed.

Lemma repair_pass_is_noop_on_valid_graph_witness :
  _ensure_valid_process example_generator = Ok example_generator.
Proof.
  apply (proj1 repair_pass_is_noop_on_valid_graph example_generator).
  - destruct (generate_process_returns_layered _ _ _ _ _ _ _ _ example_run)
      as (_ & acts & _ & Hlay).
    exact (layered_valid acts _ Hlay).
  - intros n Hn. cbn [nodes example_generator] in Hn.
    repeat (apply elem_of_cons in Hn as [->|Hn]); [vm_compute; eauto..|].
    inversion Hn.
Defined.

(** C7, on the code.  The constructor clamps [min_nodes],
    [min_connections] and [max_connections] but leaves [max_nodes] as it
    is given: whenever [max_nodes] is below [max(3, min_nodes)],
    [generate_process] raises [ValueError] from [random.randint].  With
    [max(3, min_nodes) <= max_nodes] it returns a graph for every random
    stream and every connector. *)
Theorem generate_process_raises_on_empty_node_range :
  (forall mn mx mc xc conn r,
      (mx < Z.max 3 mn)%Z ->
      generate_process (__init__ mn mx mc xc conn r) = Raise ValueError) /\
  (forall mn mx mc xc conn r,
      (Z.max 3 mn <= mx)%Z ->
      returns (generate_process (__init__ mn mx mc xc conn r))) /\
  generate_process (__init__ 5 4 1 3 None []) = Raise ValueError.
Proof.
  split; [|split].
  - intros mn mx mc xc conn r Hlt.
    pose proof (generate_process_spec mn mx mc xc conn r) as Hspec.
    cbn zeta in Hspec. destruct (decide (Z.max 3 mn <= mx)%Z); [lia|exact Hspec].
  - intros mn mx mc xc conn r Hle.
    pose proof (generate_process_spec mn mx mc xc conn r) as Hspec.
    cbn zeta in Hspec. destruct (decide (Z.max 3 mn <= mx)%Z); [|lia].
    destruct Hspec as (g & s & _ & Hrun & _). exists (g, s). exact Hrun.
  - vm_compute. reflexivity.
Qed.

End ProcessGeneratorFacts.

(** ** The worker pool *)

Module GeneratorFacts.
Import Generator.

(** *** Lists of thread states *)

Definition held_name (w : thread_state) : option string :=
  match w with
  | Holding process_name => Some process_name
  | _ => None
  end.

(** The queue items that some worker has popped and not yet finished. *)
Definition held (s : pool) : list string := omap held_name (workers s).

Definition weight (w : thread_state) : nat :=
  match w with
  | NotStarted | LoopHead => 1
  | Holding _ => 2
  | Finished _ => 0
  end.

Fixpoint total_weight (l : list thread_state) : nat :=
  match l with
  | [] => 0
  | w :: l' => weight w + total_weight l'
  end.

Definition main_measure (num_threads : nat) (pc : main_pc) : nat :=
  match pc with
  | Starting i => (num_threads - i) + num_threads + 3
  | QueueJoin => num_threads + 2
  | ThreadJoin i => (num_threads - i) + 1
  | AllCompleted => 0
  end.

(** A bound on the number of steps the pool can still take. *)
Definition measure (s : pool) : nat :=
  main_measure (length (workers s)) (main_at s)
  + 3 * length (items (name_queue s))
  + total_weight (workers s).

Lemma lookup_set_worker (l : list thread_state) i j w old :
  l !! i = Some old ->
  <[i := w]> l !! j = if decide (i = j) then Some w else l !! j.
Proof.
  intros Hi. destruct (decide (i = j)) as [<-|Hne].
  - apply list_lookup_insert_eq. eapply lookup_lt_Some, Hi.
  - apply list_lookup_insert_ne, Hne.
Qed.

Lemma held_insert (l : list thread_state) i w old :
  l !! i = Some old ->
  omap held_name (<[i := w]> l) ++ option_list (held_name old)
    ≡ₚ omap held_name l ++ option_list (held_name w).
Proof.
  revert i. induction l as [|x l IH]; intros [|i] Hi; try discriminate.
  - injection Hi as ->. cbn.
    destruct (held_name w), (held_name old); cbn;
      rewrite ?app_nil_r, <- ?Permutation_cons_append; try reflexivity.
    apply perm_swap.
  - cbn in Hi. cbn. specialize (IH i Hi).
    destruct (held_name x); cbn; [apply perm_skip|]; exact IH.
Qed.

Lemma weight_insert (l : list thread_state) i w old :
  l !! i = Some old ->
  total_weight (<[i := w]> l) + weight old = total_weight l + weight w.
Proof.
  revert i. induction l as [|x l IH]; intros [|i] Hi; try discriminate.
  - injection Hi as ->. simpl. lia.
  - simpl in Hi. specialize (IH i Hi). simpl. lia.
Qed.

Lemma try_pop_empty q :
  items q = [] -> try_pop q = Raise AttributeError.
Proof. unfold try_pop, get_nowait. intros ->. reflexivity. Qed.

Lemma try_pop_item q item rest :
  items q = item :: rest ->
  try_pop q = Ok (Some (item, mkQueue rest (unfinished_tasks q))).
Proof. unfold try_pop, get_nowait. intros ->. reflexivity. Qed.

(** *** The steps, one rule per case of [step_worker] and [step_main] *)

Section Transitions.
Variable pipeline : nat -> string -> pipeline_outcome.

Definition after_job (pending : option exn) : thread_state :=
  match pending with
  | None => LoopHead
  | Some e => Finished (Some e)
  end.

Inductive transition (s : pool) : pool -> Prop :=
| t_pop thread_id item rest :
    workers s !! thread_id = Some LoopHead ->
    items (name_queue s) = item :: rest ->
    transition s
      (set_worker thread_id (Holding item)
         (set_queue (mkQueue rest (unfinished_tasks (name_queue s))) s))
| t_pop_empty thread_id :
    workers s !! thread_id = Some LoopHead ->
    items (name_queue s) = [] ->
    transition s (set_worker thread_id (Finished (Some AttributeError)) s)
| t_job thread_id process_name n :
    workers s !! thread_id = Some (Holding process_name) ->
    unfinished_tasks (name_queue s) = S n ->
    transition s
      (set_worker thread_id (after_job (job_body pipeline thread_id process_name).2)
         (set_queue (mkQueue (items (name_queue s)) n)
            (record_handled thread_id process_name
               (print (job_body pipeline thread_id process_name).1 s))))
| t_job_overdone thread_id process_name :
    workers s !! thread_id = Some (Holding process_name) ->
    unfinished_tasks (name_queue s) = 0 ->
    transition s
      (set_worker thread_id (Finished (Some ValueError))
         (record_handled thread_id process_name
            (print (job_body pipeline thread_id process_name).1 s)))
| t_start i :
    main_at s = Starting i -> i < length (workers s) ->
    transition s (set_main (Starting (S i)) (set_worker i LoopHead s))
| t_started i :
    main_at s = Starting i -> ~ i < length (workers s) ->
    transition s (set_main QueueJoin s)
| t_queue_join :
    main_at s = QueueJoin -> unfinished_tasks (name_queue s) = 0 ->
    transition s (set_main (ThreadJoin 0) s)
| t_thread_join i uncaught :
    main_at s = ThreadJoin i -> workers s !! i = Some (Finished uncaught) ->
    transition s (set_main (ThreadJoin (S i)) s)
| t_all_joined i :
    main_at s = ThreadJoin i -> workers s !! i = None ->
    transition s (set_main AllCompleted (print ["All processes completed!"] s)).

Lemma step_transition s s' : step pipeline s s' <-> transition s s'.
Proof.
  split.
  - intros [[|thread_id] Hstep]; cbn in Hstep.
    + unfold step_main in Hstep.
      destruct (main_at s) as [i| |i|] eqn:Hpc; try discriminate.
      * destruct (decide (i < length (workers s))); injection Hstep as <-;
          [eapply t_start | eapply t_started]; eauto.
      * destruct (decide (unfinished_tasks (name_queue s) = 0)); [|discriminate].
        injection Hstep as <-. apply t_queue_join; auto.
      * destruct (workers s !! i) as [[]|] eqn:Hw; try discriminate;
          injection Hstep as <-; [eapply t_thread_join | eapply t_all_joined]; eauto.
    + unfold step_worker in Hstep.
      destruct (workers s !! thread_id) as [[| |process_name|]|] eqn:Hw;
        try discriminate.
      * destruct (items (name_queue s)) as [|item rest] eqn:Hq.
        -- rewrite (try_pop_empty _ Hq) in Hstep. injection Hstep as <-.
           apply t_pop_empty; auto.
        -- rewrite (try_pop_item _ _ _ Hq) in Hstep. injection Hstep as <-.
           eapply t_pop; eauto.
      * destruct (job_body pipeline thread_id process_name) as [lines pending] eqn:Hj.
        cbn [task_done name_queue record_handled print] in Hstep.
        unfold task_done in Hstep.
        destruct (unfinished_tasks (name_queue s)) as [|n] eqn:Hu;
          injection Hstep as <-.
        -- pose proof (t_job_overdone s thread_id process_name Hw Hu) as Ht.
           rewrite Hj in Ht. exact Ht.
        -- pose proof (t_job s thread_id process_name n Hw Hu) as Ht.
           rewrite Hj in Ht. exact Ht.
  - intros Ht. destruct Ht.
    + exists (Worker thread_id). cbn. unfold step_worker.
      rewrite H. erewrite try_pop_item by eauto. reflexivity.
    + exists (Worker thread_id). cbn. unfold step_worker.
      rewrite H. rewrite try_pop_empty by auto. reflexivity.
    + exists (Worker thread_id). cbn. unfold step_worker. rewrite H.
      destruct (job_body pipeline thread_id process_name) as [lines pending].
      cbn [name_queue record_handled print]. unfold task_done. rewrite H0.
      reflexivity.
    + exists (Worker thread_id). cbn. unfold step_worker. rewrite H.
      destruct (job_body pipeline thread_id process_name) as [lines pending].
      cbn [name_queue record_handled print]. unfold task_done. rewrite H0.
      reflexivity.
    + exists MainThread. cbn. unfold step_main. rewrite H.
      destruct (decide (i < length (workers s))); [reflexivity|lia].
    + exists MainThread. cbn. unfold step_main. rewrite H.
      destruct (decide (i < length (workers s))); [tauto|reflexivity].
    + exists MainThread. cbn. unfold step_main. rewrite H.
      destruct (decide (unfinished_tasks (name_queue s) = 0)); [reflexivity|tauto].
    + exists MainThread. cbn. unfold step_main. rewrite H, H0. reflexivity.
    + exists MainThread. cbn. unfold step_main. rewrite H, H0. reflexivity.
Qed.

End Transitions.

Section Invariant.
Variable pipeline : nat -> string -> pipeline_outcome.
Variable jobs : list string.

(** What the workers have printed for the items handled so far. *)
Definition printed_by (hs : list (nat * string)) : list string :=
  concat (map (fun h => (job_body pipeline h.1 h.2).1) hs).

Definition final_line (pc : main_pc) : list string :=
  match pc with
  | AllCompleted => ["All processes completed!"]
  | _ => []
  end.

(** How a worker thread can have ended: on the empty queue, with the
    [AttributeError] of the handler expression, or with an exception of
    its pipeline that [except Exception] does not catch. *)
Definition ended_as (s : pool) (uncaught : option exn) : Prop :=
  (uncaught = Some AttributeError /\ items (name_queue s) = []) \/
  (exists e thread_id process_name st improved str_e,
      uncaught = Some e /\ is_Exception e = false /\
      pipeline thread_id process_name = Failed st improved e str_e).

Record inv (s : pool) : Prop := mkinv {
  inv_jobs : (handled s).*2 ++ held s ++ items (name_queue s) ≡ₚ jobs;
  inv_unfinished :
    unfinished_tasks (name_queue s)
      = length (held s) + length (items (name_queue s));
  inv_stdout : stdout s = printed_by (handled s) ++ final_line (main_at s);
  inv_ended : forall j u, workers s !! j = Some (Finished u) -> ended_as s u;
  inv_not_started : forall j,
    workers s !! j = Some NotStarted <->
    exists i, main_at s = Starting i /\ i <= j < length (workers s);
  inv_drained :
    (main_at s = AllCompleted \/ exists i, main_at s = ThreadJoin i) ->
    unfinished_tasks (name_queue s) = 0;
  inv_joined : forall i j w,
    main_at s = ThreadJoin i -> j < i -> workers s !! j = Some w ->
    exists u, w = Finished u;
  inv_completed : forall j w,
    main_at s = AllCompleted -> workers s !! j = Some w -> exists u, w = Finished u
}.

Lemma holding_is_held s thread_id process_name :
  workers s !! thread_id = Some (Holding process_name) ->
  0 < length (held s).
Proof.
  intros H. unfold held.
  assert (process_name ∈ omap held_name (workers s)) as Hin.
  { apply list_elem_of_omap. exists (Holding process_name). split; [|reflexivity].
    eapply list_elem_of_lookup_2, H. }
  destruct (omap held_name (workers s)); [inversion Hin | cbn; lia].
Qed.

Lemma job_body_pending thread_id process_name e :
  (job_body pipeline thread_id process_name).2 = Some e ->
  is_Exception e = false /\
  exists st improved str_e,
    pipeline thread_id process_name = Failed st improved e str_e.
Proof.
  unfold job_body.
  destruct (pipeline thread_id process_name) as [improved|st improved e' str_e];
    [discriminate|].
  destruct (is_Exception e') eqn:He; [discriminate|].
  cbn. intros [= <-]. eauto.
Qed.

Lemma populate_items total : forall names q,
  items (populate total names q) = items q ++ take total (reverse names).
Proof.
  induction total as [|total IH]; intros names q; cbn [populate].
  - rewrite take_0, app_nil_r. reflexivity.
  - destruct (last names) as [name|] eqn:Hlast.
    + apply last_Some in Hlast as [names' ->].
      rewrite removelast_last, IH, reverse_snoc. cbn.
      rewrite <- app_assoc. reflexivity.
    + apply last_None in Hlast as ->. rewrite IH. cbn.
      rewrite !take_nil. reflexivity.
Qed.

Lemma populate_unfinished total : forall names q,
  unfinished_tasks q = length (items q) ->
  unfinished_tasks (populate total names q) = length (items (populate total names q)).
Proof.
  induction total as [|total IH]; intros names q Hq; cbn [populate]; [exact Hq|].
  destruct (last names); apply IH; [|exact Hq].
  cbn. rewrite length_app. cbn. lia.
Qed.

Lemma held_replicate n : omap held_name (replicate n NotStarted) = [].
Proof. induction n; cbn; auto. Qed.

Lemma inv_initial names total num_threads :
  jobs = take total (reverse names) ->
  inv (initial names total num_threads).
Proof.
  intros Hjobs. constructor; unfold held; cbn.
  - rewrite held_replicate, populate_items, Hjobs. reflexivity.
  - rewrite held_replicate. apply populate_unfinished. reflexivity.
  - reflexivity.
  - intros j u Hj. apply lookup_replicate in Hj as [? _]. discriminate.
  - intros j. rewrite length_replicate. split.
    + intros Hj. apply lookup_replicate in Hj as [_ Hj]. exists 0. split; [auto|lia].
    + intros (i & _ & Hi). apply lookup_replicate. split; [auto|lia].
  - intros [?|[? ?]]; discriminate.
  - discriminate.
  - discriminate.
Qed.

Ltac look_at j Hw :=
  cbn [workers set_worker set_queue set_main print record_handled];
  rewrite (lookup_set_worker _ _ j _ _ Hw);
  destruct (decide (_ = j)) as [<-|?].

Lemma ended_as_stable s s' u :
  (items (name_queue s) = [] -> items (name_queue s') = []) ->
  ended_as s u -> ended_as s' u.
Proof. intros Hq [[-> Hi]|H]; [left; auto | right; exact H]. Qed.

(** Replacing the state of a worker that is neither unstarted nor ended by
    another such state, with the main thread where it is. *)
Lemma inv_not_started_set s thread_id w old :
  workers s !! thread_id = Some old -> old <> NotStarted -> w <> NotStarted ->
  (forall j, workers s !! j = Some NotStarted <->
             exists i, main_at s = Starting i /\ i <= j < length (workers s)) ->
  forall j, <[thread_id := w]> (workers s) !! j = Some NotStarted <->
            exists i, main_at s = Starting i /\
                      i <= j < length (<[thread_id := w]> (workers s)).
Proof.
  intros Hw Hold Hnew Hns j. rewrite length_insert.
  rewrite (lookup_set_worker _ _ j _ _ Hw).
  destruct (decide (thread_id = j)) as [<-|?]; [|apply Hns].
  split; [congruence|]. intros Hi. apply Hns in Hi. congruence.
Qed.

Lemma inv_transition s s' : inv s -> transition pipeline s s' -> inv s'.
Proof.
  intros [Hjobs Hunf Hout Hend Hns Hdr Hjoin Hcomp] Ht. unfold held in *.
  destruct Ht as [tid item rest Hw Hq | tid Hw Hq | tid name n Hw Hu
                 | tid name Hw Hu | i Hpc Hi | i Hpc Hi | Hpc Hu
                 | i u Hpc Hw | i Hpc Hw].
  - (* a worker pops an item *)
    pose proof (held_insert _ tid (Holding item) _ Hw) as Hheld.
    cbn [held_name option_list] in Hheld. rewrite app_nil_r in Hheld.
    assert (~ (main_at s = AllCompleted \/ exists i, main_at s = ThreadJoin i))
      as Hrun.
    { intros Hd. specialize (Hdr Hd). rewrite Hq in Hunf. cbn in Hunf. lia. }
    constructor; unfold held;
      cbn [name_queue items unfinished_tasks handled stdout main_at
           set_worker set_queue set_main workers record_handled print].
    +       rewrite Hheld, <- Hjobs, Hq. rewrite <- (app_assoc (held s)). reflexivity.
    +       rewrite Hunf, Hheld, Hq, length_app. cbn. lia.
    + exact Hout.
    + intros j u. look_at j Hw; [discriminate|]. intros Hj.
      destruct (Hend j u Hj) as [[_ He]|H]; [congruence|right; exact H].
    + apply (inv_not_started_set s tid _ _ Hw); [discriminate|discriminate|exact Hns].
    + intros Hd. tauto.
    + intros i j w Hpc. exfalso. apply Hrun. eauto.
    + intros j w Hpc. tauto.
  - (* a worker finds the queue empty *)
    pose proof (held_insert _ tid (Finished (Some AttributeError)) _ Hw) as Hheld.
    cbn [held_name option_list] in Hheld. rewrite !app_nil_r in Hheld.
    constructor; unfold held;
      cbn [name_queue items unfinished_tasks handled stdout main_at
           set_worker set_queue set_main workers record_handled print].
    + rewrite Hheld. exact Hjobs.
    + rewrite Hheld. exact Hunf.
    + exact Hout.
    + intros j u. look_at j Hw.
      * intros [= <-]. left. auto.
      * apply Hend.
    + apply (inv_not_started_set s tid _ _ Hw); [discriminate|discriminate|exact Hns].
    + exact Hdr.
    + intros i j w Hpc Hlt. look_at j Hw; [intros [= <-]; eauto|]. eauto.
    + intros j w Hpc. look_at j Hw; [intros [= <-]; eauto|]. eauto.
  - (* a worker runs the pipeline of its item *)
    set (body := job_body pipeline tid name) in *.
    pose proof (held_insert _ tid (after_job body.2) _ Hw) as Hheld.
    cbn [held_name option_list] in Hheld.
    assert (held_name (after_job body.2) = None) as Hnone
      by (destruct body.2; reflexivity).
    rewrite Hnone in Hheld. cbn [option_list] in Hheld. rewrite app_nil_r in Hheld.
    assert (~ (main_at s = AllCompleted \/ exists i, main_at s = ThreadJoin i))
      as Hrun.
    { intros Hd. specialize (Hdr Hd). lia. }
    constructor; unfold held;
      cbn [name_queue items unfinished_tasks handled stdout main_at
           set_worker set_queue set_main workers record_handled print].
    + rewrite fmap_app. cbn. rewrite <- Hjobs, <- Hheld.
      rewrite <- !app_assoc. apply Permutation_app_head. cbn.
      apply Permutation_cons_app. reflexivity.
    + apply Permutation_length in Hheld. rewrite length_app in Hheld.
      cbn in Hheld. lia.
    + unfold printed_by. rewrite map_app, concat_app. cbn. rewrite app_nil_r.
      rewrite Hout. unfold printed_by. rewrite <- !app_assoc. f_equal.
      destruct (main_at s); try reflexivity; cbn; rewrite ?app_nil_r; try reflexivity.
      exfalso. apply Hrun. auto.
    + intros j u. look_at j Hw.
      * destruct body.2 as [e|] eqn:Hp; cbn; [|discriminate]. intros [= <-].
        right. apply job_body_pending in Hp as (He & st & improved & str_e & Hp).
        exists e, tid, name, st, improved, str_e. auto.
      * intros Hj. eapply ended_as_stable; [|apply (Hend j u Hj)]. auto.
    + apply (inv_not_started_set s tid _ _ Hw); [discriminate| |exact Hns].
      destruct body.2; discriminate.
    + intros Hd. tauto.
    + intros i j w Hpc. exfalso. apply Hrun. eauto.
    + intros j w Hpc. tauto.
  - (* [task_done()] called once too often: excluded *)
    apply holding_is_held in Hw. unfold held in Hw. lia.
  - (* the main thread starts worker [i] *)
    assert (workers s !! i = Some NotStarted) as Hw by (apply Hns; eauto).
    pose proof (held_insert _ i LoopHead _ Hw) as Hheld.
    cbn [held_name option_list] in Hheld. rewrite !app_nil_r in Hheld.
    constructor; unfold held;
      cbn [name_queue items unfinished_tasks handled stdout main_at
           set_worker set_queue set_main workers record_handled print].
    + rewrite Hheld. exact Hjobs.
    + rewrite Hheld. exact Hunf.
    + rewrite Hout, Hpc. reflexivity.
    + intros j u. look_at j Hw; [discriminate|]. apply Hend.
    + intros j. rewrite length_insert. look_at j Hw.
      * split; [discriminate|]. intros (i' & [= <-] & Hr). lia.
      * rewrite Hns, Hpc. split; intros (i' & [= <-] & Hr); eexists; split; eauto; lia.
    + intros [?|[? ?]]; discriminate.
    + discriminate.
    + discriminate.
  - (* every worker is started *)
    constructor; unfold held;
      cbn [name_queue items unfinished_tasks handled stdout main_at
           set_worker set_queue set_main workers record_handled print]; auto.
    + rewrite Hout, Hpc. reflexivity.
    + intros j. rewrite Hns, Hpc. split.
      * intros (i' & [= <-] & Hr). lia.
      * intros (i' & ? & _). discriminate.
    + intros [?|[? ?]]; discriminate.
    + discriminate.
    + discriminate.
  - (* [name_queue.join()] returns *)
    constructor; unfold held;
      cbn [name_queue items unfinished_tasks handled stdout main_at
           set_worker set_queue set_main workers record_handled print]; auto.
    + rewrite Hout, Hpc. reflexivity.
    + intros j. rewrite Hns, Hpc. split; intros (i' & ? & _); discriminate.
    + intros i j w [= <-]. lia.
    + discriminate.
  - (* [worker.join()] returns for worker [i] *)
    constructor; unfold held;
      cbn [name_queue items unfinished_tasks handled stdout main_at
           set_worker set_queue set_main workers record_handled print]; auto.
    + rewrite Hout, Hpc. reflexivity.
    + intros j. rewrite Hns, Hpc. split; intros (i' & ? & _); discriminate.
    + intros _. apply Hdr. eauto.
    + intros i' j w [= <-] Hlt Hj.
      destruct (decide (j = i)) as [->|]; [|eapply (Hjoin i j); eauto; lia].
      rewrite Hw in Hj. injection Hj as <-. eauto.
    + discriminate.
  - (* the last join has returned *)
    constructor; unfold held;
      cbn [name_queue items unfinished_tasks handled stdout main_at
           set_worker set_queue set_main workers record_handled print]; auto.
    + rewrite Hout, Hpc. cbn. rewrite app_nil_r. reflexivity.
    + intros j. rewrite Hns, Hpc. split; intros (i' & ? & _); discriminate.
    + intros _. apply Hdr. eauto.
    + discriminate.
    + intros j w _ Hj. apply (Hjoin i j w Hpc); [|exact Hj].
      apply lookup_lt_Some in Hj. apply lookup_ge_None in Hw. lia.
Qed.

(** *** Schedules and reachability *)

Lemma exec_app sched1 sched2 s :
  exec pipeline (sched1 ++ sched2) s = exec pipeline sched2 (exec pipeline sched1 s).
Proof. revert s. induction sched1 as [|a sched1 IH]; intros s; cbn; auto. Qed.

Lemma exec_reachable sched s : rtc (step pipeline) s (exec pipeline sched s).
Proof.
  revert s. induction sched as [|a sched IH]; intros s; cbn [exec]; [reflexivity|].
  destruct (step_of pipeline a s) as [s'|] eqn:Hs; cbn; [|apply IH].
  eapply rtc_l; [exists a; exact Hs | apply IH].
Qed.

Lemma reachable_exec s s' :
  rtc (step pipeline) s s' -> exists sched, exec pipeline sched s = s'.
Proof.
  induction 1 as [s|s s1 s2 [a Ha] _ [sched IH]]; [exists []; reflexivity|].
  exists (a :: sched). cbn [exec]. rewrite Ha. exact IH.
Qed.

Lemma inv_exec sched s : inv s -> inv (exec pipeline sched s).
Proof.
  intros Hs. pose proof (exec_reachable sched s) as Hr.
  induction Hr as [|s s1 s2 Hstep _ IH]; [exact Hs|].
  apply IH. eapply inv_transition; [exact Hs|]. apply step_transition, Hstep.
Qed.

(** *** Termination *)

Lemma measure_decreases s s' :
  inv s -> transition pipeline s s' -> measure s' < measure s.
Proof.
  intros Hinv Ht. unfold measure.
  destruct Ht as [tid item rest Hw Hq | tid Hw Hq | tid name n Hw Hu
                 | tid name Hw Hu | i Hpc Hi | i Hpc Hi | Hpc Hu
                 | i u Hpc Hw | i Hpc Hw];
    cbn [name_queue items unfinished_tasks handled stdout main_at
         set_worker set_queue set_main workers record_handled print];
    rewrite ?length_insert.
  - pose proof (weight_insert _ tid (Holding item) _ Hw). rewrite Hq. cbn in *. lia.
  - pose proof (weight_insert _ tid (Finished (Some AttributeError)) _ Hw).
    cbn in *. lia.
  - pose proof (weight_insert _ tid
                  (after_job (job_body pipeline tid name).2) _ Hw) as Hwt.
    destruct (job_body pipeline tid name).2; cbn in *; lia.
  - pose proof (weight_insert _ tid (Finished (Some ValueError)) _ Hw).
    cbn in *. lia.
  - assert (workers s !! i = Some NotStarted) as Hw
      by (apply (inv_not_started s Hinv); eauto).
    pose proof (weight_insert _ i LoopHead _ Hw). rewrite Hpc. cbn in *. lia.
  - rewrite Hpc. cbn. lia.
  - rewrite Hpc. cbn. lia.
  - rewrite Hpc. apply lookup_lt_Some in Hw. cbn. lia.
  - rewrite Hpc. cbn. lia.
Qed.

(** A pipeline that raises nothing but instances of [Exception]. *)
Definition raises_only_Exceptions : Prop :=
  forall thread_id process_name st improved e str_e,
    pipeline thread_id process_name = Failed st improved e str_e ->
    is_Exception e = true.

Lemma progress s :
  inv s -> raises_only_Exceptions ->
  0 < length (workers s) \/ jobs = [] ->
  main_at s <> AllCompleted ->
  exists s', transition pipeline s s'.
Proof.
  intros Hinv Hexc Hpos Hrun.
  destruct (main_at s) as [i| |i|] eqn:Hpc; [| | |congruence].
  - destruct (decide (i < length (workers s)));
      eexists; [eapply t_start | eapply t_started]; eauto.
  - destruct (unfinished_tasks (name_queue s)) as [|n] eqn:Hu.
    { eexists. apply t_queue_join; auto. }
    pose proof (inv_unfinished s Hinv) as Hunf. rewrite Hu in Hunf.
    destruct (held s) as [|name hs] eqn:Hheld.
    + destruct (items (name_queue s)) as [|item rest] eqn:Hq; [cbn in Hunf; lia|].
      destruct Hpos as [Hpos|Hnil].
      2:{ pose proof (inv_jobs s Hinv) as Hj. rewrite Hheld, Hq, Hnil in Hj.
          apply Permutation_length in Hj. rewrite !length_app in Hj.
          cbn in Hj. lia. }
      destruct (lookup_lt_is_Some_2 (workers s) 0 Hpos) as [w Hw].
      destruct w as [| |name|u].
      * apply (inv_not_started s Hinv) in Hw as (? & ? & _). congruence.
      * eexists. eapply t_pop; eauto.
      * apply holding_is_held in Hw. rewrite Hheld in Hw. cbn in Hw. lia.
      * destruct (inv_ended s Hinv 0 u Hw)
          as [[_ He]|(e & t & p & st & im & m & _ & He & Hp)]; [congruence|].
        apply Hexc in Hp. congruence.
    + assert (name ∈ held s) as Hin by (rewrite Hheld; left).
      unfold held in Hin. apply list_elem_of_omap in Hin as (w & Hin & Hname).
      destruct w; try discriminate. injection Hname as ->.
      apply list_elem_of_lookup_1 in Hin as [tid Hw].
      eexists. eapply t_job; eauto.
  - destruct (workers s !! i) as [w|] eqn:Hw; [|eexists; eapply t_all_joined; eauto].
    pose proof (inv_drained s Hinv (or_intror (ex_intro _ i Hpc))) as Hu.
    pose proof (inv_unfinished s Hinv) as Hunf. rewrite Hu in Hunf.
    destruct w as [| |name|u].
    + apply (inv_not_started s Hinv) in Hw as (? & ? & _). congruence.
    + eexists. eapply t_pop_empty; [exact Hw|].
      destruct (items (name_queue s)); [reflexivity|cbn in Hunf; lia].
    + apply holding_is_held in Hw. lia.
    + eexists. eapply t_thread_join; eauto.
Qed.

Lemma length_workers_transition s s' :
  transition pipeline s s' -> length (workers s') = length (workers s).
Proof. destruct 1; cbn; rewrite ?length_insert; reflexivity. Qed.

Lemma completes s :
  inv s -> raises_only_Exceptions ->
  0 < length (workers s) \/ jobs = [] ->
  exists sched, main_at (exec pipeline sched s) = AllCompleted.
Proof.
  intros Hinv Hexc. remember (measure s) as m eqn:Hm. revert s Hinv Hm.
  induction (lt_wf m) as [m _ IH]. intros s Hinv -> Hpos.
  assert (main_at s = AllCompleted \/ main_at s <> AllCompleted) as [Hdone|Hrun]
    by (destruct (main_at s); auto; right; discriminate).
  { exists []. exact Hdone. }
  destruct (progress s Hinv Hexc Hpos Hrun) as [s' Ht].
  pose proof (measure_decreases s s' Hinv Ht) as Hlt.
  destruct (IH _ Hlt s') as [sched Hsched]; auto.
  { eapply inv_transition; eauto. }
  { rewrite (length_workers_transition _ _ Ht). exact Hpos. }
  apply step_transition in Ht as [a Ha].
  exists (a :: sched). cbn [exec]. rewrite Ha. exact Hsched.
Qed.

(** The number of steps of any run is bounded by the measure at its start. *)
Lemma nsteps_bounded n s s' :
  inv s -> nsteps (step pipeline) n s s' -> n + measure s' <= measure s.
Proof.
  intros Hinv Hn. induction Hn as [s|n s s1 s2 Hstep _ IH]; [lia|].
  apply step_transition in Hstep.
  pose proof (measure_decreases _ _ Hinv Hstep).
  specialize (IH (inv_transition _ _ Hinv Hstep)). lia.
Qed.

(** *** The state when [main] has printed its last line *)

Lemma completed_state s :
  inv s -> main_at s = AllCompleted ->
  items (name_queue s) = [] /\ unfinished_tasks (name_queue s) = 0 /\
  held s = [] /\
  Forall (fun w => exists u, w = Finished u) (workers s) /\
  (handled s).*2 ≡ₚ jobs /\
  stdout s = printed_by (handled s) ++ ["All processes completed!"].
Proof.
  intros Hinv Hpc.
  pose proof (inv_drained s Hinv (or_introl Hpc)) as Hu.
  pose proof (inv_unfinished s Hinv) as Hunf. rewrite Hu in Hunf.
  assert (held s = []) as Hheld by (destruct (held s); [auto|cbn in Hunf; lia]).
  assert (items (name_queue s) = []) as Hq
    by (destruct (items (name_queue s)); [auto|cbn in Hunf; lia]).
  repeat split; auto.
  - apply Forall_lookup. intros j w Hw. eapply inv_completed; eauto.
  - pose proof (inv_jobs s Hinv) as Hj. rewrite Hheld, Hq, !app_nil_r in Hj. exact Hj.
  - rewrite (inv_stdout s Hinv), Hpc. reflexivity.
Qed.

End Invariant.

(** *** The claims about the pool *)

Lemma printed_by_elem pipeline hs thread_id process_name line :
  (thread_id, process_name) ∈ hs ->
  line ∈ (job_body pipeline thread_id process_name).1 ->
  line ∈ printed_by pipeline hs.
Proof.
  intros Hh Hl. unfold printed_by. apply list_elem_of_In, in_concat.
  exists (job_body pipeline thread_id process_name).1.
  split; [|apply list_elem_of_In, Hl].
  apply in_map_iff. exists (thread_id, process_name).
  split; [reflexivity|apply list_elem_of_In, Hh].
Qed.

Lemma initial_items names total num_threads :
  items (name_queue (initial names total num_threads)) = take total (reverse names).
Proof. cbn. apply populate_items. Qed.

Lemma inv_schedule pipeline names total num_threads schedule :
  inv pipeline (take total (reverse names))
      (exec pipeline schedule (initial names total num_threads)).
Proof. apply inv_exec, inv_initial. reflexivity. Qed.

Lemma length_workers_exec pipeline schedule s :
  length (workers (exec pipeline schedule s)) = length (workers s).
Proof.
  pose proof (exec_reachable pipeline schedule s) as Hr.
  induction Hr as [|s s1 s2 Hstep _ IH]; [reflexivity|].
  rewrite IH. apply length_workers_transition with pipeline.
  apply step_transition, Hstep.
Qed.

(** A pipeline for the examples: it fails on the process name [bad] at
    the naming request and completes every other one. *)
Definition failing_on (bad : string) (thread_id : nat) (process_name : string)
  : pipeline_outcome :=
  if decide (process_name = bad)
  then Failed Naming "" RequestException "Request failed with status 500: down"
  else Completed ("Improved " +:+ process_name).

(** C9. For every list of names, every number of workers and every
    schedule of the threads: at any moment the items already handled,
    the items held by a worker and the items still queued are together
    exactly the items that were placed in the queue, so none is handled
    twice or by two workers; when [main] has passed [name_queue.join()]
    and every [worker.join()], the queue is empty, no task is unfinished,
    every worker thread has ended and each item has been handled exactly
    once; and with at least one worker (and a pipeline that raises only
    instances of [Exception]) that point is reached. *)
Theorem every_job_handled_exactly_once
    (pipeline : nat -> string -> pipeline_outcome)
    (names : list string) (total num_threads : nat) (schedule : list actor) :
  let jobs := items (name_queue (initial names total num_threads)) in
  let s := exec pipeline schedule (initial names total num_threads) in
  (handled s).*2 ++ held s ++ items (name_queue s) ≡ₚ jobs /\
  (main_at s = AllCompleted ->
     items (name_queue s) = [] /\ unfinished_tasks (name_queue s) = 0 /\
     held s = [] /\
     Forall (fun w => exists uncaught, w = Finished uncaught) (workers s) /\
     (handled s).*2 ≡ₚ jobs) /\
  (0 < num_threads -> raises_only_Exceptions pipeline ->
     exists more, main_at (exec pipeline more s) = AllCompleted).
Proof.
  intros jobs s. unfold jobs. rewrite initial_items.
  pose proof (inv_schedule pipeline names total num_threads schedule) as Hinv.
  fold s in Hinv. split; [apply (inv_jobs _ _ _ Hinv)|]. split.
  - intros Hpc.
    destruct (completed_state _ _ _ Hinv Hpc) as (? & ? & ? & ? & ? & _). auto.
  - intros Hpos Hexc. apply (completes _ _ _ Hinv Hexc). left.
    unfold s. rewrite length_workers_exec. cbn. rewrite length_replicate. exact Hpos.
Qed.

Lemma every_job_handled_exactly_once_witness :
  let s := exec (failing_on "b")
             [MainThread; MainThread; MainThread; Worker 0; Worker 1; Worker 0;
              Worker 1; Worker 0; Worker 1; Worker 0; Worker 0; Worker 1;
              MainThread; MainThread; MainThread; MainThread]
             (initial ["a"; "b"; "c"] 3 2) in
  items (name_queue s) = [] /\ unfinished_tasks (name_queue s) = 0 /\
  held s = [] /\
  Forall (fun w => exists uncaught, w = Finished uncaught) (workers s) /\
  (handled s).*2 ≡ₚ items (name_queue (initial ["a"; "b"; "c"] 3 2)).
Proof.
  intros s.
  apply (every_job_handled_exactly_once (failing_on "b") ["a"; "b"; "c"] 3 2).
  vm_compute. reflexivity.
Defined.

(** C3, on the code.  A worker that finds the queue empty does not leave
    its loop through [break]: evaluating the handler expression
    [Queue.Empty] raises [AttributeError], which ends the thread as an
    uncaught exception.  No schedule ever brings a worker to a normal
    return of [run]. *)
Theorem worker_on_empty_queue_raises_AttributeError :
  (forall q, items q = [] -> try_pop q = Raise AttributeError) /\
  (forall pipeline names total num_threads schedule thread_id,
      workers (exec pipeline schedule (initial names total num_threads)) !! thread_id
        <> Some (Finished None)) /\
  workers (exec (failing_on "") [MainThread; Worker 0] (initial [] 0 1))
    = [Finished (Some AttributeError)].
Proof.
  split; [exact try_pop_empty|]. split; [|vm_compute; reflexivity].
  intros pipeline names total num_threads schedule thread_id Hw.
  pose proof (inv_schedule pipeline names total num_threads schedule) as Hinv.
  destruct (inv_ended _ _ _ Hinv _ _ Hw) as [[? _]|(e & ? & ? & ? & ? & ? & ? & _)];
    discriminate.
Qed.

Definition seven_jobs : list string :=
  ["job 1"; "job 2"; "job 3"; "job 4"; "job 5"; "job 6"; "job 7"].

Definition round_robin : list actor :=
  replicate 4 MainThread
  ++ concat (replicate 8 [Worker 0; Worker 1; Worker 2])
  ++ replicate 5 MainThread.

Lemma failed_job_step pipeline names total num_threads schedule
    thread_id process_name st improved e str_e :
  let s := exec pipeline schedule (initial names total num_threads) in
  workers s !! thread_id = Some (Holding process_name) ->
  pipeline thread_id process_name = Failed st improved e str_e ->
  is_Exception e = true ->
  exec pipeline [Worker thread_id] s =
    set_worker thread_id LoopHead
      (set_queue (mkQueue (items (name_queue s))
                          (Nat.pred (unfinished_tasks (name_queue s))))
         (record_handled thread_id process_name
            (print ((if created_printed st
                     then [created_line thread_id improved] else [])
                    ++ [error_line thread_id str_e]) s))) /\
  0 < unfinished_tasks (name_queue s).
Proof.
  intros s Hw Hp He.
  pose proof (inv_schedule pipeline names total num_threads schedule) as Hinv.
  fold s in Hinv.
  pose proof (holding_is_held _ _ _ Hw) as Hheld.
  pose proof (inv_unfinished _ _ _ Hinv) as Hunf.
  destruct (unfinished_tasks (name_queue s)) as [|n] eqn:Hu; [lia|].
  split; [|lia]. cbn [exec step_of]. unfold step_worker. rewrite Hw.
  unfold job_body. rewrite Hp, He.
  cbn [name_queue record_handled print]. unfold task_done. rewrite Hu.
  reflexivity.
Qed.

(** C8, as the code has it.  Every instance of [Exception] raised at any
    stage of a job's pipeline is caught in the worker: the worker prints
    one line with its thread id and the text of the exception (the job's
    name is not part of that line), marks the task done, leaves the queue's
    items as they are and is back at the head of its loop; no other
    worker is touched.  In particular, with seven jobs and three workers
    and a pipeline that raises on job 4 whatever the thread, every
    schedule can be continued until [main] completes, and at completion
    all seven jobs have been handled exactly once, both success lines of
    each of the other six jobs and the error line of job 4 have been
    printed, and every worker thread has ended. *)
Theorem pipeline_errors_are_logged_and_dropped :
  (forall pipeline names total num_threads schedule
          thread_id process_name st improved e str_e,
      let s := exec pipeline schedule (initial names total num_threads) in
      workers s !! thread_id = Some (Holding process_name) ->
      pipeline thread_id process_name = Failed st improved e str_e ->
      is_Exception e = true ->
      let s' := exec pipeline [Worker thread_id] s in
      workers s' !! thread_id = Some LoopHead /\
      (forall j, j <> thread_id -> workers s' !! j = workers s !! j) /\
      items (name_queue s') = items (name_queue s) /\
      unfinished_tasks (name_queue s) = S (unfinished_tasks (name_queue s')) /\
      handled s' = handled s ++ [(thread_id, process_name)] /\
      stdout s' =
        stdout s
        ++ (if created_printed st then [created_line thread_id improved] else [])
        ++ [error_line thread_id str_e]) /\
  (forall pipeline,
      (forall thread_id, exists st improved e str_e,
          pipeline thread_id "job 4" = Failed st improved e str_e /\
          is_Exception e = true) ->
      (forall thread_id process_name, process_name <> "job 4" ->
          exists improved, pipeline thread_id process_name = Completed improved) ->
      forall schedule,
        let s := exec pipeline schedule (initial seven_jobs 7 3) in
        (exists more, main_at (exec pipeline more s) = AllCompleted) /\
        (main_at s = AllCompleted ->
           (handled s).*2 ≡ₚ seven_jobs /\
           (forall process_name,
               process_name ∈ seven_jobs -> process_name <> "job 4" ->
               exists thread_id improved,
                 (thread_id, process_name) ∈ handled s /\
                 pipeline thread_id process_name = Completed improved /\
                 created_line thread_id improved ∈ stdout s /\
                 data_created_line thread_id improved ∈ stdout s) /\
           (exists thread_id st improved e str_e,
               (thread_id, "job 4") ∈ handled s /\
               pipeline thread_id "job 4" = Failed st improved e str_e /\
               error_line thread_id str_e ∈ stdout s) /\
           Forall (fun w => exists uncaught, w = Finished uncaught) (workers s))).
Proof.
  split.
  - intros pipeline names total num_threads schedule
           thread_id process_name st improved e str_e s Hw Hp He s'.
    destruct (failed_job_step pipeline names total num_threads schedule
                thread_id process_name st improved e str_e Hw Hp He) as (Hs' & Hu).
    fold s in Hs', Hu. fold s' in Hs'. rewrite Hs'. cbn.
    split; [apply list_lookup_insert_eq; eapply lookup_lt_Some, Hw|].
    split; [intros j Hj; apply list_lookup_insert_ne; auto|].
    repeat split; lia.
  - intros pipeline Hbad Hgood schedule s.
    pose proof (inv_schedule pipeline seven_jobs 7 3 schedule) as Hinv.
    fold s in Hinv.
    assert (raises_only_Exceptions pipeline) as Hexc.
    { intros tid name st improved e str_e Hp.
      destruct (decide (name = "job 4")) as [->|Hne].
      - destruct (Hbad tid) as (? & ? & ? & ? & Hp' & He). congruence.
      - destruct (Hgood tid name Hne) as (? & Hp'). congruence. }
    split.
    { apply (completes _ _ _ Hinv Hexc). left.
      unfold s. rewrite length_workers_exec. cbn. lia. }
    intros Hpc.
    destruct (completed_state _ _ _ Hinv Hpc) as (_ & _ & _ & Hfin & Hperm & Hout).
    assert ((handled s).*2 ≡ₚ seven_jobs) as Hperm'.
    { rewrite Hperm. change (take 7 (reverse seven_jobs)) with (reverse seven_jobs).
      apply reverse_Permutation. }
    assert (forall name, name ∈ seven_jobs -> exists tid, (tid, name) ∈ handled s)
      as Hall.
    { intros name Hin. rewrite <- Hperm' in Hin.
      apply list_elem_of_fmap in Hin as ([tid name'] & -> & Hin). eauto. }
    split; [exact Hperm'|]. split; [|split; [|exact Hfin]].
    + intros name Hin Hne. destruct (Hall name Hin) as [tid Hh].
      destruct (Hgood tid name Hne) as [improved Hp].
      exists tid, improved. split; [exact Hh|]. split; [exact Hp|].
      rewrite Hout.
      split; apply elem_of_app; left; apply (printed_by_elem _ _ tid name); auto;
        unfold job_body; rewrite Hp; cbn; apply list_elem_of_In; cbn; tauto.
    + destruct (Hall "job 4") as [tid Hh]; [apply list_elem_of_In; cbn; tauto|].
      destruct (Hbad tid) as (st & improved & e & str_e & Hp & He).
      exists tid, st, improved, e, str_e. split; [exact Hh|]. split; [exact Hp|].
      rewrite Hout. apply elem_of_app. left.
      apply (printed_by_elem _ _ tid "job 4"); auto.
      unfold job_body. rewrite Hp, He. apply elem_of_app. right. left.
Qed.

Lemma pipeline_errors_are_logged_and_dropped_witness :
  let s := exec (failing_on "job 4") round_robin (initial seven_jobs 7 3) in
  (handled s).*2 ≡ₚ seven_jobs /\
  (forall process_name,
      process_name ∈ seven_jobs -> process_name <> "job 4" ->
      exists thread_id improved,
        (thread_id, process_name) ∈ handled s /\
        failing_on "job 4" thread_id process_name = Completed improved /\
        created_line thread_id improved ∈ stdout s /\
        data_created_line thread_id improved ∈ stdout s) /\
  (exists thread_id st improved e str_e,
      (thread_id, "job 4") ∈ handled s /\
      failing_on "job 4" thread_id "job 4" = Failed st improved e str_e /\
      error_line thread_id str_e ∈ stdout s) /\
  Forall (fun w => exists uncaught, w = Finished uncaught) (workers s).
Proof.
  intros s.
  apply (proj2 pipeline_errors_are_logged_and_dropped (failing_on "job 4")).
  - intros thread_id. eexists _, _, _, _. split; reflexivity.
  - intros thread_id process_name Hne. eexists. unfold failing_on.
    destruct (decide (process_name = "job 4")); [contradiction|reflexivity].
  - vm_compute. reflexivity.
Defined.

(** C8, as the spec has it, fails on the code: the line printed for a
    failed job names the thread and the error, not the job. *)
Lemma error_line_lacks_job_name :
  let s := exec (failing_on "Submit Request")
             [MainThread; MainThread; Worker 0; Worker 0; Worker 0;
              MainThread; MainThread; MainThread]
             (initial ["Submit Request"] 1 1) in
  main_at s = AllCompleted /\
  handled s = [(0, "Submit Request")] /\
  stdout s = ["Thread 0 encountered an error: Request failed with status 500: down";
              "All processes completed!"] /\
  forallb (fun line => negb (occurs_in "Submit Request" line)) (stdout s) = true.
Proof. vm_compute. repeat split. Qed.

End GeneratorFacts.

(** * Further properties

    Where the rolling of a timestamp lands, the rows of a case, the shape
    of the generated graph, the walk through it, the constructor of the
    data generator, the names, and the runs of the pool. *)

(** ** Where the rolling of a timestamp lands *)

Module TimestampRollFacts.
Import DateTimeFacts TimestampFacts.
Local Open Scope Z_scope.

Lemma snap_hours_exact t r :
  wf t -> snap_hours t = Ok r ->
  wf r /\ 9 <= hour r < 18 /\
  second r = second t /\ microsecond r = microsecond t /\
  ((9 <= hour t < 18 /\ r = t) \/
   (hour t < 9 /\ ordinal r = ordinal t /\ hour r = 9 /\ minute r = 0) \/
   (18 <= hour t /\ ordinal r = ordinal t + 1 /\ hour r = 9 /\ minute r = 0)).
Proof.
  intros Hw. pose proof Hw as (Ho & Hh & Hm & Hs & Hu).
  unfold snap_hours.
  destruct (Z.leb_spec 18 (hour t)) as [H18|H18].
  - rewrite timedelta_days_small by lia. cbn [rbind].
    rewrite datetime_add_days by (unfold wf, replace_hour_minute; cbn; lia).
    cbn [replace_hour_minute ordinal hour minute second microsecond].
    destruct (Z.ltb_spec 0 (ordinal t + 1)); [|lia].
    destruct (Z.leb_spec (ordinal t + 1) MAXORDINAL); cbn [andb]; [|discriminate].
    intros [= <-]. unfold wf; cbn. repeat split; try lia.
  - destruct (Z.ltb_spec (hour t) 9) as [H9|H9]; intros [= <-].
    + unfold wf, replace_hour_minute; cbn. repeat split; try lia.
    + repeat split; try lia. left. split; [lia|reflexivity].
Qed.

Lemma skip_weekend_exact t r :
  wf t -> skip_weekend t = Ok r ->
  wf r /\ same_time_of_day r t /\
  ((weekday t <= 4 /\ r = t) \/
   (5 <= weekday t /\ ordinal r = ordinal t + (8 - weekday t) /\ weekday r = 1)).
Proof.
  intros Hw. pose proof Hw as (Ho & Hh & Hm & Hs & Hu).
  pose proof (weekday_range t) as Hwd.
  unfold skip_weekend.
  destruct (Z.leb_spec 5 (weekday t)) as [H5|H5].
  - rewrite timedelta_days_small by lia. cbn [rbind].
    rewrite datetime_add_days by assumption.
    destruct (Z.ltb_spec 0 (ordinal t + (8 - weekday t))); [|lia].
    destruct (Z.leb_spec (ordinal t + (8 - weekday t)) MAXORDINAL);
      cbn [andb]; [|discriminate].
    intros [= <-]. unfold wf, same_time_of_day; cbn.
    repeat split; try lia. right. repeat split; try lia.
    unfold weekday; cbn. apply weekday_after_skip.
  - intros [= <-]. unfold same_time_of_day. repeat split; try lia.
    left. split; [lia|reflexivity].
Qed.

Lemma roll_body_exact t r :
  wf t -> roll_body t = Ok r ->
  second r = second t /\ microsecond r = microsecond t /\
  ordinal t <= ordinal r <= ordinal t + 4 /\
  to_us r - to_us t <= 3 * US_PER_DAY + 15 * US_PER_HOUR /\
  (weekday t = 5 \/ (weekday t = 6 /\ hour t < 18) \/ (weekday t = 4 /\ 18 <= hour t) ->
   weekday r = 1) /\
  (weekday t = 6 -> 18 <= hour t -> weekday r = 0 /\ hour r = 9 /\ minute r = 0) /\
  (weekday t <= 3 -> 18 <= hour t -> weekday r = weekday t + 1) /\
  (weekday t <= 4 -> hour t < 18 -> weekday r = weekday t).
Proof.
  intros Hw. pose proof Hw as (Ho & Hh & Hm & Hs & Hu).
  unfold roll_body.
  destruct (snap_hours t) as [c| |] eqn:Hc; cbn [rbind]; try discriminate.
  intros Hr.
  destruct (snap_hours_exact _ _ Hw Hc) as (Hwc & Hhc & Hsc & Huc & Hcase).
  destruct (skip_weekend_exact _ _ Hwc Hr) as (Hwr & (Hh' & Hm' & Hs' & Hu') & Hskip).
  pose proof (weekday_range t) as Hwd. pose proof (weekday_range c) as Hwdc.
  assert (Hcw : ordinal c = ordinal t -> weekday c = weekday t)
    by (unfold weekday; intros ->; reflexivity).
  assert (Hcw1 : ordinal c = ordinal t + 1 ->
                 weekday c = (weekday t + 1) mod 7)
    by (unfold weekday; intros ->; euclid).
  unfold to_us. unfold_units.
  destruct Hcase as [(Hin & ->)|[(H9 & Hoc & Hhc9 & Hmc)|(H18 & Hoc & Hhc9 & Hmc)]];
    destruct Hskip as [(Hle & ->)|(Hge & Hor & Hwr1)];
    repeat split; try lia; intros;
    try (specialize (Hcw ltac:(lia))); try (specialize (Hcw1 ltac:(lia)));
    try (unfold weekday in *; Z.div_mod_to_equations; lia).
Qed.

Lemma generate_timestamp_cases base d r :
  _generate_timestamp base d = Ok r ->
  exists n, naive_instant base d = Ok n /\ wf n /\
    ((in_working_window n /\ r = n) \/
     (~ in_working_window n /\ roll_body n = Ok r)).
Proof.
  unfold _generate_timestamp, generate_timestamp_fuel.
  destruct (naive_instant base d) as [n| |] eqn:Hn; cbn [rbind]; try discriminate.
  intros Hr. exists n. split; [reflexivity|].
  destruct (naive_instant_ok _ _ _ Hn) as [Hwn _]. split; [exact Hwn|].
  cbn [roll] in Hr.
  destruct (outside_working_time n) eqn:Hout.
  - right. split.
    + rewrite <- outside_working_time_false. congruence.
    + destruct (roll_body n) as [c| |]; cbn [rbind] in Hr; try discriminate.
      destruct (outside_working_time c); [discriminate|]. exact Hr.
  - left. apply outside_working_time_false in Hout. split; [exact Hout|congruence].
Qed.

Lemma naive_instant_zero t : wf t -> naive_instant t 0 = Ok t.
Proof.
  intros Hw. pose proof Hw as (Ho & Hh & Hm & Hs & Hu).
  unfold naive_instant, timedelta_minutes.
  change (0 * US_PER_MINUTE) with (0 * US_PER_DAY).
  fold (timedelta_days 0). rewrite timedelta_days_small by lia. cbn [rbind].
  rewrite datetime_add_days by exact Hw. rewrite Z.add_0_r.
  destruct (Z.ltb_spec 0 (ordinal t)); [|lia].
  destruct (Z.leb_spec (ordinal t) MAXORDINAL); [|lia].
  destruct t; reflexivity.
Qed.

Lemma generate_timestamp_fixed t :
  wf t -> in_working_window t -> _generate_timestamp t 0 = Ok t.
Proof.
  intros Hw Hin.
  unfold _generate_timestamp, generate_timestamp_fuel.
  rewrite naive_instant_zero by exact Hw. cbn [rbind roll].
  apply outside_working_time_false in Hin. rewrite Hin. reflexivity.
Qed.

(** X1.  [_generate_timestamp] leaves an instant of the working window alone:
    a valid instant with hour in [9, 18) on a day from Monday to Friday is
    returned unchanged for a duration of 0, and so is every instant that
    [_generate_timestamp] has returned (the function is idempotent). *)
Theorem timestamp_in_window_is_returned_unchanged :
  (forall t, wf t -> in_working_window t -> _generate_timestamp t 0 = Ok t) /\
  (forall base_time duration r,
      _generate_timestamp base_time duration = Ok r ->
      _generate_timestamp r 0 = Ok r).
Proof.
  split; [exact generate_timestamp_fixed|].
  intros base d r Hr. pose proof (generate_timestamp_spec base d) as Hs.
  rewrite Hr in Hs. destruct Hs as (Hw & Hin & _).
  apply generate_timestamp_fixed; assumption.
Qed.

Lemma timestamp_in_window_is_returned_unchanged_witness :
  _generate_timestamp (datetime_of 2023 1 10 9 0) 0 = Ok (datetime_of 2023 1 10 9 0).
Proof.
  apply (proj2 timestamp_in_window_is_returned_unchanged
               (datetime_of 2023 1 6 17 45) 30).
  vm_compute. reflexivity.
Defined.

Lemma generate_timestamp_delay base d n r :
  naive_instant base d = Ok n -> _generate_timestamp base d = Ok r ->
  0 <= to_us r - to_us n <= 3 * US_PER_DAY + 15 * US_PER_HOUR.
Proof.
  intros Hn Hr.
  destruct (generate_timestamp_cases _ _ _ Hr) as (n' & Hn' & Hw & Hcase).
  assert (n' = n) as -> by congruence.
  destruct Hcase as [(Hin & ->)|(Hout & Hbody)].
  - unfold_units. lia.
  - destruct (roll_body_exact _ _ Hw Hbody) as (_ & _ & _ & Hd & _).
    pose proof (roll_body_spec n Hw) as Hspec. rewrite Hbody in Hspec.
    destruct Hspec as (_ & _ & Hle). lia.
Qed.

(** X2.  The instant that [_generate_timestamp] returns is at most 3 days and
    15 hours later than the naive instant [base_time + duration]; it has
    the seconds and microseconds of the naive instant, and it is the naive
    instant itself when that lies in the working window.  The bound is
    reached on a Friday at 18:00 sharp. *)
Theorem generate_timestamp_delay_is_bounded (base_time : datetime) (duration : Z)
    (n r : datetime) :
  naive_instant base_time duration = Ok n ->
  _generate_timestamp base_time duration = Ok r ->
  0 <= to_us r - to_us n <= 3 * US_PER_DAY + 15 * US_PER_HOUR /\
  second r = second n /\ microsecond r = microsecond n /\
  (in_working_window n -> r = n).
Proof.
  intros Hn Hr. split; [exact (generate_timestamp_delay _ _ _ _ Hn Hr)|].
  destruct (generate_timestamp_cases _ _ _ Hr) as (n' & Hn' & Hw & Hcase).
  assert (n' = n) as -> by congruence.
  destruct Hcase as [(Hin & ->)|(Hout & Hbody)].
  - repeat split; reflexivity.
  - destruct (roll_body_exact _ _ Hw Hbody) as (Hs & Hu & _).
    repeat split; try assumption. intros Hin. contradiction.
Qed.

Lemma generate_timestamp_delay_is_bounded_witness :
  0 <= to_us (datetime_of 2023 1 10 9 0) - to_us (datetime_of 2023 1 6 18 0)
    <= 3 * US_PER_DAY + 15 * US_PER_HOUR /\
  to_us (datetime_of 2023 1 10 9 0) - to_us (datetime_of 2023 1 6 18 0)
    = 3 * US_PER_DAY + 15 * US_PER_HOUR.
Proof.
  split; [|vm_compute; reflexivity].
  apply (generate_timestamp_delay_is_bounded (datetime_of 2023 1 6 18 0) 0
           (datetime_of 2023 1 6 18 0) (datetime_of 2023 1 10 9 0));
    vm_compute; reflexivity.
Defined.

(** X3.  Where the rolling of [_generate_timestamp] lands: a naive instant on
    a Saturday, on a Sunday before 18:00 or on a Friday from 18:00 on gives
    a Tuesday; a Sunday from 18:00 on gives Monday 09:00; and a Monday is
    returned only for a naive instant on that Monday or on the Sunday
    evening before. *)
Theorem weekend_roll_lands_on_tuesday (base_time : datetime) (duration : Z)
    (n r : datetime) :
  naive_instant base_time duration = Ok n ->
  _generate_timestamp base_time duration = Ok r ->
  (weekday n = 5 \/ (weekday n = 6 /\ hour n < 18) \/ (weekday n = 4 /\ 18 <= hour n) ->
   weekday r = 1) /\
  (weekday n = 6 -> 18 <= hour n -> weekday r = 0 /\ hour r = 9 /\ minute r = 0) /\
  (weekday r = 0 -> weekday n = 0 \/ (weekday n = 6 /\ 18 <= hour n)).
Proof.
  intros Hn Hr.
  destruct (generate_timestamp_cases _ _ _ Hr) as (n' & Hn' & Hw & Hcase).
  assert (n' = n) as -> by congruence.
  pose proof (weekday_range n) as Hwd.
  destruct Hcase as [((Hh & Hd) & ->)|(Hout & Hbody)].
  - repeat split; intros; lia.
  - destruct (roll_body_exact _ _ Hw Hbody)
      as (_ & _ & _ & _ & Htue & Hmon & Hnext & Hsame).
    split; [exact Htue|]. split; [exact Hmon|].
    intros Hr0.
    destruct (Z.le_gt_cases 18 (hour n)) as [H18|H18].
    + destruct (Z.le_gt_cases (weekday n) 3) as [H3|H3].
      * specialize (Hnext H3 H18). lia.
      * assert (weekday n = 4 \/ weekday n = 5 \/ weekday n = 6) as [H|[H|H]] by lia.
        -- specialize (Htue ltac:(lia)). lia.
        -- specialize (Htue ltac:(lia)). lia.
        -- right. lia.
    + destruct (Z.le_gt_cases (weekday n) 4) as [H4|H4].
      * specialize (Hsame H4 H18). left. lia.
      * specialize (Htue ltac:(lia)). lia.
Qed.

Lemma weekend_roll_lands_on_tuesday_witness :
  weekday (datetime_of 2023 1 10 10 30) = 1.
Proof.
  refine (proj1 (weekend_roll_lands_on_tuesday
                   (datetime_of 2023 1 7 10 30) 0
                   (datetime_of 2023 1 7 10 30) (datetime_of 2023 1 10 10 30) _ _) _).
  - vm_compute; reflexivity.
  - vm_compute; reflexivity.
  - left. vm_compute. reflexivity.
Defined.

End TimestampRollFacts.

(** ** The rows of a case *)

Module EventLogFacts.
Import DateTimeFacts TimestampFacts TimestampRollFacts CaseFacts.
Local Open Scope Z_scope.

(** Events that follow one another without a gap, from the instant [prev]. *)
Fixpoint back_to_back (prev : datetime) (events : list event) : Prop :=
  match events with
  | [] => True
  | e :: events' =>
      timestamp e = prev /\ back_to_back (complete_timestamp e) events'
  end.

(** What holds of every row of the event log. *)
Definition event_in_working_time (e : event) : Prop :=
  activity e <> "START" /\ activity e <> "END" /\
  wf (timestamp e) /\ in_working_window (timestamp e) /\
  wf (complete_timestamp e) /\ in_working_window (complete_timestamp e) /\
  30 <= duration_minutes e <= 480 /\
  duration_minutes e * US_PER_MINUTE
    <= to_us (complete_timestamp e) - to_us (timestamp e)
    <= duration_minutes e * US_PER_MINUTE + 3 * US_PER_DAY + 15 * US_PER_HOUR.

Lemma path_events_inv path :
  forall current_time g events g',
    path_events path current_time g = Ok (events, g') ->
    match events with
    | [] => True
    | e :: events' =>
        _generate_timestamp current_time 0 = Ok (timestamp e) /\
        back_to_back (complete_timestamp e) events'
    end /\
    Forall event_in_working_time events /\
    activity <$> events = ProcessGenerator.middle_nodes path.
Proof.
  induction path as [|a path IH]; intros t g events g' H; cbn [path_events] in H.
  - injection H as <- _. repeat split. constructor.
  - unfold ProcessGenerator.middle_nodes. rewrite filter_cons.
    fold (ProcessGenerator.middle_nodes path).
    destruct (decide (a = "START" \/ a = "END")) as [Hse|Hse].
    + rewrite decide_False by tauto. eauto.
    + rewrite decide_True by tauto.
      unfold _generate_activity_attributes in H.
      destruct (randint 30 480 g) as [[duration g1]| |] eqn:Hd;
        cbn [rbind] in H; try discriminate.
      apply randint_range in Hd.
      destruct (_generate_timestamp t 0) as [ts| |] eqn:Hts;
        cbn [rbind] in H; try discriminate.
      destruct (_generate_timestamp ts duration) as [cts| |] eqn:Hcts;
        cbn [rbind] in H; try discriminate.
      destruct (path_events path cts g1) as [[events' g2]| |] eqn:Hrest;
        cbn [rbind] in H; try discriminate.
      injection H as <- _.
      pose proof (generate_timestamp_spec t 0) as Hs. rewrite Hts in Hs.
      pose proof (generate_timestamp_spec ts duration) as Hc. rewrite Hcts in Hc.
      destruct Hs as (Hwts & Hints & _). destruct Hc as (Hwcts & Hincts & Hle).
      destruct (IH _ _ _ _ Hrest) as (Hfirst & Hall & Hacts).
      cbn [timestamp complete_timestamp fmap list_fmap activity].
      split; [split; [reflexivity|]|split].
      * destruct events' as [|e' events'']; [exact I|].
        destruct Hfirst as [Hfirst Hb2b]. cbn [back_to_back]. split; [|exact Hb2b].
        rewrite (generate_timestamp_fixed cts Hwcts Hincts) in Hfirst. congruence.
      * constructor; [|exact Hall].
        destruct (generate_timestamp_cases _ _ _ Hcts) as (n & Hn & Hwn & _).
        pose proof (generate_timestamp_delay _ _ _ _ Hn Hcts) as Hdelay.
        apply naive_instant_ok in Hn as [_ Hn].
        unfold event_in_working_time, wf, in_working_window in *; cbn. repeat split; try tauto; try lia.
      * f_equal. exact Hacts.
Qed.

(** X4.  Within a case of [generate_data] the events follow one another
    without a gap: the first event starts at
    [_generate_timestamp(case_start, 0)] and every later event starts at
    the very instant at which the event before it completes. *)
Theorem events_follow_without_gap (fuel : nat)
    (process_graph : gmap string (list string)) (case_start : datetime) (g : rng)
    (events : list event) (g' : rng) :
  generate_case fuel process_graph case_start g = Ok (events, g') ->
  (forall e, events !! 0%nat = Some e ->
             _generate_timestamp case_start 0 = Ok (timestamp e)) /\
  (forall (i : nat) e1 e2,
      events !! i = Some e1 -> events !! S i = Some e2 ->
      timestamp e2 = complete_timestamp e1).
Proof.
  unfold generate_case. intros H.
  destruct (_generate_case_path fuel process_graph g) as [[path g1]| |];
    cbn [rbind] in H; try discriminate.
  apply path_events_inv in H as (Hfirst & _ & _).
  destruct events as [|e events]; [split; intros; discriminate|].
  destruct Hfirst as [Hfirst Hrest]. split.
  - intros e0 [= <-]. exact Hfirst.
  - clear Hfirst. revert e Hrest.
    induction events as [|e' events IH]; intros e Hrest i e1 e2 H1 H2.
    + destruct i; discriminate.
    + destruct Hrest as [Heq Hrest]. destruct i as [|i]; cbn in H1, H2.
      * congruence.
      * exact (IH e' Hrest i e1 e2 H1 H2).
Qed.

Lemma events_follow_without_gap_witness :
  let events :=
    [mkevent "Check Request" (mkdt 738523 9 0 0 0) (mkdt 738523 9 37 0 0) 37;
     mkevent "Approve Request" (mkdt 738523 9 37 0 0) (mkdt 738523 10 57 0 0) 80] in
  (forall e, events !! 0%nat = Some e ->
             _generate_timestamp (datetime_of 2023 1 1 0 0) 0 = Ok (timestamp e)) /\
  (forall (i : nat) e1 e2,
      events !! i = Some e1 -> events !! S i = Some e2 ->
      timestamp e2 = complete_timestamp e1).
Proof.
  intros events.
  apply (events_follow_without_gap 5 two_step_graph (datetime_of 2023 1 1 0 0)
           [4; 0; 100; 7; 50]%nat events []).
  vm_compute. reflexivity.
Defined.

(** X5.  Every event of a case names an activity other than START and END,
    starts and completes at a valid instant with hour in [9, 18) on a day
    from Monday to Friday, has a duration of 30 to 480 minutes, and takes
    from start to completion at least its duration and at most its
    duration plus 3 days and 15 hours. *)
Theorem every_event_lies_in_working_time (fuel : nat)
    (process_graph : gmap string (list string)) (case_start : datetime) (g : rng)
    (events : list event) (g' : rng) :
  generate_case fuel process_graph case_start g = Ok (events, g') ->
  Forall event_in_working_time events.
Proof.
  unfold generate_case. intros H.
  destruct (_generate_case_path fuel process_graph g) as [[path g1]| |];
    cbn [rbind] in H; try discriminate.
  apply path_events_inv in H as (_ & Hall & _). exact Hall.
Qed.

Lemma every_event_lies_in_working_time_witness :
  Forall event_in_working_time
    [mkevent "Check Request" (mkdt 738523 9 0 0 0) (mkdt 738523 9 37 0 0) 37;
     mkevent "Approve Request" (mkdt 738523 9 37 0 0) (mkdt 738523 10 57 0 0) 80].
Proof.
  apply (every_event_lies_in_working_time 5 two_step_graph (datetime_of 2023 1 1 0 0)
           [4; 0; 100; 7; 50]%nat _ []).
  vm_compute. reflexivity.
Defined.

(** X6.  The events of a case are, in order, the activities of the path that
    [_generate_case_path] has walked: one event for every node of the
    path except START and END. *)
Theorem one_event_per_activity_of_the_path (fuel : nat)
    (process_graph : gmap string (list string)) (case_start : datetime) (g : rng)
    (events : list event) (g' : rng) :
  generate_case fuel process_graph case_start g = Ok (events, g') ->
  exists path g1,
    _generate_case_path fuel process_graph g = Ok (path, g1) /\
    activity <$> events = ProcessGenerator.middle_nodes path.
Proof.
  unfold generate_case. intros H.
  destruct (_generate_case_path fuel process_graph g) as [[path g1]| |];
    cbn [rbind] in H; try discriminate.
  exists path, g1. split; [reflexivity|].
  apply path_events_inv in H as (_ & _ & Hacts). exact Hacts.
Qed.

Lemma one_event_per_activity_of_the_path_witness :
  exists path g1,
    _generate_case_path 5 two_step_graph [4; 0; 100; 7; 50]%nat = Ok (path, g1) /\
    activity <$>
      [mkevent "Check Request" (mkdt 738523 9 0 0 0) (mkdt 738523 9 37 0 0) 37;
       mkevent "Approve Request" (mkdt 738523 9 37 0 0) (mkdt 738523 10 57 0 0) 80]
    = ProcessGenerator.middle_nodes path.
Proof.
  apply (one_event_per_activity_of_the_path 5 two_step_graph
           (datetime_of 2023 1 1 0 0) [4; 0; 100; 7; 50]%nat _ []).
  vm_compute. reflexivity.
Defined.

End EventLogFacts.

(** ** The shape of the generated graph *)

Module GraphShapeFacts.
Import ProcessGenerator ProcessGeneratorFacts.

(** *** Only the last activity leads to END *)

Section Funnel.
Variable acts : list string.
Hypothesis Hnd : NoDup acts.
Hypothesis Hstart : "START" ∉ acts.
Hypothesis Hend : "END" ∉ acts.
Hypothesis Hne : acts <> [].

(** No activity but the last mentions END, and the last one mentions
    nothing else. *)
Definition funnelled (g : gmap string (list string)) : Prop :=
  forall j a targets,
    acts !! j = Some a -> g !! a = Some targets ->
    if decide (S j = length acts) then targets = [] \/ targets = ["END"]
    else "END" ∉ targets.

Lemma funnelled_insert_other g n new :
  n ∉ acts -> funnelled g -> funnelled (<[n := new]> g).
Proof.
  intros Hn Hf j a targets Hj Ha.
  rewrite lookup_insert_ne in Ha.
  - exact (Hf j a targets Hj Ha).
  - intros ->. apply Hn. eapply list_elem_of_lookup_2, Hj.
Qed.

Lemma funnelled_insert g j a new :
  acts !! j = Some a ->
  (if decide (S j = length acts) then new = [] \/ new = ["END"]
   else "END" ∉ new) ->
  funnelled g -> funnelled (<[a := new]> g).
Proof.
  intros Hj Hnew Hf j' a' targets Hj' Ha'.
  destruct (decide (a = a')) as [<-|Hne'].
  - rewrite lookup_insert_eq in Ha'. injection Ha' as <-.
    assert (j' = j) as -> by (eapply NoDup_lookup; eauto). exact Hnew.
  - rewrite lookup_insert_ne in Ha' by exact Hne'. exact (Hf j' a' targets Hj' Ha').
Qed.

Lemma generated_funnelled g : generated acts g -> funnelled g.
Proof.
  intros Hgen j a targets Hj Ha.
  destruct (gen_targets _ _ Hgen j a Hj) as (ts & Hts & _ & Hlater).
  assert (ts = targets) as -> by congruence.
  destruct (decide (S j = length acts)) as [Hlast|Hnl].
  - left. destruct targets as [|v ?]; [reflexivity|].
    destruct (Hlater v (list_elem_of_here _ _)) as (j' & Hlt & Hj').
    apply lookup_lt_Some in Hj'. lia.
  - intros Hin. destruct (Hlater _ Hin) as (j' & _ & Hj').
    apply list_elem_of_lookup_2 in Hj'. contradiction.
Qed.

Lemma clear_funnelled self :
  funnelled (graph self) -> funnelled (graph (clear_start_and_end self)).
Proof.
  intros Hf j a targets Hj Ha.
  assert (a <> "END") as Hane by (apply (act_not_end acts Hend); eapply list_elem_of_lookup_2, Hj).
  assert (a <> "START") as Hans
    by (apply (act_not_start acts Hstart); eapply list_elem_of_lookup_2, Hj).
  unfold clear_start_and_end in Ha. cbn [graph set_graph] in Ha.
  assert (exists ts, graph self !! a = Some ts /\ targets = remove_first "START" ts)
    as (ts & Hts & ->).
  { destruct (decide (is_Some _)) in Ha;
      [rewrite lookup_insert_ne in Ha by congruence|];
      rewrite map_lookup_imap in Ha;
      destruct (graph self !! a) as [ts|]; try discriminate;
      cbn in Ha; unfold strip_targets in Ha;
      rewrite decide_False in Ha by exact Hans;
      injection Ha as <-; eauto. }
  specialize (Hf j a ts Hj Hts).
  destruct (decide (S j = length acts)).
  - destruct Hf as [->| ->]; [left|right]; reflexivity.
  - intros Hin. apply Hf. eapply remove_first_subset, Hin.
Qed.

Lemma ensure_start_funnelled self self' :
  nodes self = all_nodes acts ->
  ensure_start_has_target self = Ok self' ->
  funnelled (graph self) -> funnelled (graph self') /\ nodes self' = nodes self.
Proof.
  intros Hnodes Hrun Hf. unfold ensure_start_has_target in Hrun.
  destruct (getitem (graph self) "START") as [ts| |]; cbn [rbind] in Hrun;
    try discriminate.
  destruct (decide (ts = [])); [|injection Hrun as <-; auto].
  rewrite Hnodes, (middle_nodes_all acts Hstart Hend) in Hrun.
  destruct (decide (acts = [])); [contradiction|].
  destruct (choice acts (random self)) as [[target r]| |]; cbn [rbind] in Hrun;
    try discriminate.
  injection Hrun as <-. cbn [graph nodes set_random set_graph].
  split; [|reflexivity]. apply funnelled_insert_other; assumption.
Qed.

Lemma ensure_outgoing_funnelled j a self self' :
  acts !! j = Some a -> nodes self = all_nodes acts ->
  ensure_outgoing a self = Ok self' ->
  funnelled (graph self) -> funnelled (graph self') /\ nodes self' = nodes self.
Proof.
  intros Hj Hnodes Hrun Hf.
  assert (a <> "START") as Hans
    by (apply (act_not_start acts Hstart); eapply list_elem_of_lookup_2, Hj).
  unfold ensure_outgoing in Hrun.
  destruct (getitem (graph self) a) as [ts| |]; cbn [rbind] in Hrun;
    try discriminate.
  destruct (decide (ts = [])); [|injection Hrun as <-; auto].
  rewrite Hnodes in Hrun.
  set (cand := filter _ (all_nodes acts)) in Hrun.
  assert (forall v, v ∈ cand -> later acts j v) as Hcand.
  { intros v Hv. apply list_elem_of_filter in Hv as (((Hvs & _) & Hlt) & Hvin).
    eapply later_index_target; eauto. }
  assert ("END" ∉ cand) as Hce.
  { intros Hin. destruct (Hcand _ Hin) as (j' & _ & Hj').
    apply list_elem_of_lookup_2 in Hj'. contradiction. }
  rewrite (decide_False (P := "END" ∈ cand /\ 1 < length cand)) in Hrun
    by (intros [? _]; contradiction).
  destruct (decide (cand = [])) as [Hnil|Hcne].
  - injection Hrun as <-. cbn [graph nodes set_graph]. split; [|reflexivity].
    apply (funnelled_insert _ j a); try assumption.
    destruct (decide (S j = length acts)) as [_|Hnl]; [right; reflexivity|].
    exfalso.
    destruct (lookup_lt_is_Some_2 acts (S j)) as [b Hb].
    { apply lookup_lt_Some in Hj. lia. }
    assert (b ∈ cand) as Hbc; [|rewrite Hnil in Hbc; inversion Hbc].
    apply list_elem_of_filter.
    pose proof (list_elem_of_lookup_2 _ _ _ Hb) as Hbin.
    split; [split; [split|]|].
    + apply (act_not_start acts Hstart), Hbin.
    + intros ->. assert (S j = j) by (eapply NoDup_lookup; eauto). lia.
    + rewrite (index_act acts Hnd Hstart Hend j a Hj),
        (index_act acts Hnd Hstart Hend (S j) b Hb). lia.
    + apply in_all_nodes. auto.
  - destruct (choice cand (random self)) as [[target r]| |] eqn:Hc;
      cbn [rbind] in Hrun; try discriminate.
    injection Hrun as <-. cbn [graph nodes set_random set_graph].
    split; [|reflexivity].
    assert (target ∈ cand) as Hin.
    { unfold choice in Hc. destruct (draw (random self)) as [k r0].
      destruct (cand !! (k mod length cand)) eqn:Hl; [|discriminate].
      injection Hc as <- _. eapply list_elem_of_lookup_2, Hl. }
    destruct (Hcand _ Hin) as (j' & Hlt & Hj').
    apply (funnelled_insert _ j a); try assumption.
    destruct (decide (S j = length acts)) as [Hlast|_].
    + apply lookup_lt_Some in Hj'. lia.
    + intros He. apply list_elem_of_singleton in He as <-.
      apply list_elem_of_lookup_2 in Hj'. contradiction.
Qed.

Lemma ensure_incoming_funnelled j a self self' :
  acts !! j = Some a -> nodes self = all_nodes acts ->
  ensure_incoming a self = Ok self' ->
  funnelled (graph self) -> funnelled (graph self') /\ nodes self' = nodes self.
Proof.
  intros Hj Hnodes Hrun Hf.
  assert (a <> "END") as Hane
    by (apply (act_not_end acts Hend); eapply list_elem_of_lookup_2, Hj).
  unfold ensure_incoming in Hrun.
  destruct (has_incoming (graph self) a); [injection Hrun as <-; auto|].
  rewrite Hnodes in Hrun.
  set (cand := filter _ (all_nodes acts)) in Hrun.
  destruct (decide (cand = [])).
  - destruct (getitem (graph self) "START") as [ts| |]; cbn [rbind] in Hrun;
      try discriminate.
    injection Hrun as <-. cbn [graph nodes set_graph].
    split; [|reflexivity]. apply funnelled_insert_other; assumption.
  - destruct (choice cand (random self)) as [[source r]| |] eqn:Hc;
      cbn [rbind] in Hrun; try discriminate.
    assert (source ∈ cand) as Hin.
    { unfold choice in Hc. destruct (draw (random self)) as [k r0].
      destruct (cand !! (k mod length cand)) eqn:Hl; [|discriminate].
      injection Hc as <- _. eapply list_elem_of_lookup_2, Hl. }
    cbn [graph set_random] in Hrun.
    destruct (getitem (graph self) source) as [ts| |] eqn:Hts; cbn [rbind] in Hrun;
      try discriminate.
    destruct (decide (a ∈ ts)); injection Hrun as <-; [auto|].
    cbn [graph nodes set_graph set_random]. split; [|reflexivity].
    apply list_elem_of_filter in Hin as (((Hse & Hsa) & Hlt) & Hsin).
    apply in_all_nodes in Hsin as [->|[->|Hsin]]; [|contradiction|].
    + apply funnelled_insert_other; assumption.
    + apply list_elem_of_lookup_1 in Hsin as [k Hk].
      rewrite (index_act acts Hnd Hstart Hend j a Hj),
        (index_act acts Hnd Hstart Hend k source Hk) in Hlt.
      apply (funnelled_insert _ k source); try assumption.
      destruct (decide (S k = length acts)) as [Hlast|Hnl].
      * apply lookup_lt_Some in Hj. lia.
      * unfold getitem in Hts. destruct (graph self !! source) as [ts'|] eqn:Hs;
          [|discriminate]. injection Hts as ->.
        pose proof (Hf k source ts Hk Hs) as Hk'.
        rewrite decide_False in Hk' by exact Hnl.
        rewrite elem_of_app, list_elem_of_singleton. intros [?|?]; [contradiction|].
        congruence.
Qed.

Lemma repair_nodes_funnelled todo : forall self self',
  (forall a, a ∈ todo -> a ∈ all_nodes acts) ->
  nodes self = all_nodes acts ->
  repair_nodes todo self = Ok self' ->
  funnelled (graph self) ->
  funnelled (graph self') /\ nodes self' = nodes self.
Proof.
  induction todo as [|a todo IH]; intros self self' Htodo Hnodes Hrun Hf;
    cbn [repair_nodes] in Hrun.
  - injection Hrun as <-. auto.
  - destruct (repair_node a self) as [s1| |] eqn:Hr; cbn [rbind] in Hrun;
      try discriminate.
    assert (funnelled (graph s1) /\ nodes s1 = nodes self) as [Hf1 Hn1].
    { unfold repair_node in Hr.
      destruct (decide (a = "START" \/ a = "END")) as [|Hmid];
        [injection Hr as <-; auto|].
      destruct (ensure_outgoing a self) as [s0| |] eqn:Ho; cbn [rbind] in Hr;
        try discriminate.
      assert (a ∈ acts) as Ha.
      { specialize (Htodo a (list_elem_of_here _ _)).
        apply in_all_nodes in Htodo. tauto. }
      apply list_elem_of_lookup_1 in Ha as [j Hj].
      destruct (ensure_outgoing_funnelled j a self s0 Hj Hnodes Ho Hf) as [Hf0 Hn0].
      destruct (ensure_incoming_funnelled j a s0 s1 Hj ltac:(congruence) Hr Hf0)
        as [Hf1 Hn1].
      split; [exact Hf1|congruence]. }
    destruct (IH s1 self') as [Hf' Hn']; auto.
    + intros b Hb. apply Htodo. right. exact Hb.
    + congruence.
    + split; [exact Hf'|congruence].
Qed.

(** After the repair pass the last activity leads to END and nowhere
    else, and no other node leads to END. *)
Lemma ensure_valid_funnelled self self' :
  nodes self = all_nodes acts -> generated acts (graph self) ->
  _ensure_valid_process self = Ok self' ->
  funnelled (graph self').
Proof.
  intros Hnodes Hgen Hrun. unfold _ensure_valid_process in Hrun.
  pose proof (clear_funnelled self (generated_funnelled _ Hgen)) as Hf0.
  destruct (clear_spec acts Hstart self Hgen) as (Hfw0 & Hout0 & Hfr0 & _).
  assert (nodes (clear_start_and_end self) = all_nodes acts) as Hn0
    by (destruct Hfr0 as (_ & _ & _ & _ & -> & _); exact Hnodes).
  destruct (ensure_start_has_target (clear_start_and_end self)) as [s1| |] eqn:H1;
    cbn [rbind] in Hrun; try discriminate.
  destruct (ensure_start_funnelled _ _ Hn0 H1 Hf0) as [Hf1 Hn1].
  destruct (ensure_start_spec acts Hstart Hend Hne _ Hn0 Hfw0)
    as (s1' & H1' & _ & Hfw1 & _).
  assert (s1' = s1) as -> by congruence.
  destruct (repair_nodes (nodes s1) s1) as [s2| |] eqn:H2;
    cbn [rbind] in Hrun; try discriminate.
  assert (nodes s1 = all_nodes acts) as Hn1' by congruence.
  destruct (repair_nodes_funnelled (nodes s1) s1 s2) as [Hf2 Hn2]; auto.
  { intros a Ha. rewrite <- Hn1'. exact Ha. }
  destruct (repair_nodes_spec acts Hnd Hstart Hend s1 Hn1' Hfw1)
    as (s2' & H2' & _ & Hfw2 & _ & Hok).
  assert (s2' = s2) as -> by congruence.
  rewrite (ensure_path_spec acts Hstart Hne s2 Hfw2) in Hrun.
  - injection Hrun as <-. exact Hf2.
  - intros a Ha. apply Hok, Ha.
Qed.

End Funnel.

(** The relabelling block renames the nodes by a function that is
    injective on them and fixes START and END. *)
Lemma relabel_renaming acts self :
  layered acts (graph self) -> nodes self = all_nodes acts ->
  is_Some (lmstudio_connector self) ->
  "START" ∈ used_names self -> "END" ∈ used_names self ->
  exists self' f,
    relabel self = Ok self' /\
    f "START" = "START" /\ f "END" = "END" /\
    (forall x y, x ∈ all_nodes acts -> y ∈ all_nodes acts -> f x = f y -> x = y) /\
    (forall old ts, graph self !! old = Some ts ->
                    graph self' !! f old = Some (f <$> ts)) /\
    (forall k ts', graph self' !! k = Some ts' ->
       exists old ts, graph self !! old = Some ts /\ k = f old /\ ts' = f <$> ts) /\
    nodes self' = all_nodes (f <$> acts).
Proof.
  intros Hlay Hnodes Hconn Hus Hue.
  pose proof Hlay as [Hnd Hs He Hne Hdom (ts0 & Hs0 & Hne0 & Hsub0) Hgend Ht Hin].
  unfold relabel. rewrite Hnodes. unfold all_nodes. cbn [rename_nodes].
  destruct (decide ("START" = "START" \/ "START" = "END")) as [_|Hno];
    [|destruct Hno; auto].
  destruct (decide ("END" = "START" \/ "END" = "END")) as [_|Hno];
    [|destruct Hno; auto].
  set (m0 := <["END" := "END"]> (<["START" := "START"]> (∅ : gmap string string))).
  destruct (rename_nodes_spec acts m0 ["START"; "END"] self)
    as (names & m & s1 & -> & Hlen & Hrest & Hmap & Hndn & Hfresh & Hg1 & Hn1 & _);
    auto.
  { intros a Ha. apply Hdom. auto. }
  cbn [rbind].
  assert (m !! "START" = Some "START") as Hms by (rewrite (Hrest _ Hs); reflexivity).
  assert (m !! "END" = Some "END") as Hme by (rewrite (Hrest _ He); reflexivity).
  assert (forall j a, acts !! j = Some a ->
            exists name, names !! j = Some name /\ m !! a = Some name) as Hact.
  { intros j a Hj. rewrite (Hmap j a Hj).
    destruct (lookup_lt_is_Some_2 names j) as [name Hname]; eauto.
    rewrite Hlen. eapply lookup_lt_Some, Hj. }
  assert (forall n, n ∈ all_nodes acts -> is_Some (m !! n)) as Hmdom.
  { intros n Hn. apply in_all_nodes in Hn as [->|[->|Hn]]; eauto.
    apply list_elem_of_lookup_1 in Hn as [j Hj].
    destruct (Hact j n Hj) as (name & _ & ->). eauto. }
  assert (forall u v, edge (graph self) u v -> v ∈ all_nodes acts) as Htarget.
  { intros u v Huv. apply in_all_nodes.
    destruct (edge_cases acts _ Hlay u v Huv) as [[_ Hv]|(j & _ & [->|(j' & _ & Hj')])];
      auto.
    right. right. eapply list_elem_of_lookup_2, Hj'. }
  rewrite Hg1. rewrite rename_items_spec.
  2:{ intros [k ts] Hit. apply elem_of_map_to_list in Hit. cbn. split.
      - apply Hmdom, in_all_nodes, Hdom. eauto.
      - intros t Hin'. apply Hmdom. apply (Htarget k t). exists ts. auto. }
  cbn [rbind]. eexists _, (renaming m). split; [reflexivity|].
  cbn [graph nodes set_nodes set_graph].
  assert (renaming m "START" = "START") as Hfs by (unfold renaming; rewrite Hms; auto).
  assert (renaming m "END" = "END") as Hfe by (unfold renaming; rewrite Hme; auto).
  assert (forall j a, acts !! j = Some a -> names !! j = Some (renaming m a)) as Hfa.
  { intros j a Hj. destruct (Hact j a Hj) as (name & Hname & Hma).
    unfold renaming. rewrite Hma. exact Hname. }
  assert (forall x y, x ∈ all_nodes acts -> y ∈ all_nodes acts ->
            renaming m x = renaming m y -> x = y) as Hinj.
  { assert (forall a, a ∈ acts ->
              renaming m a ∈ names /\ renaming m a <> "START" /\
              renaming m a <> "END") as Hnew.
    { intros a Ha. apply list_elem_of_lookup_1 in Ha as [j Hj].
      pose proof (list_elem_of_lookup_2 _ _ _ (Hfa j a Hj)) as Hinn.
      split; [exact Hinn|].
      split; intros Heq; rewrite Heq in Hinn; apply (Hfresh _ Hinn); assumption. }
    intros x y Hx Hy Heq.
    apply in_all_nodes in Hx as [->|[->|Hx]], Hy as [->|[->|Hy]];
      rewrite ?Hfs, ?Hfe in Heq; try reflexivity; try discriminate;
      try (destruct (Hnew _ Hx) as (_ & ? & ?); congruence);
      try (destruct (Hnew _ Hy) as (_ & ? & ?); congruence).
    apply list_elem_of_lookup_1 in Hx as [i Hi], Hy as [j Hj].
    pose proof (Hfa i x Hi) as Hni. pose proof (Hfa j y Hj) as Hnj.
    rewrite Heq in Hni.
    assert (i = j) as -> by (eapply NoDup_lookup; eauto). congruence. }
  set (ren := fun it : string * list string =>
                (renaming m it.1, renaming m <$> it.2)).
  assert (NoDup ((ren <$> map_to_list (graph self)).*1)) as Hkeys.
  { rewrite <- list_fmap_compose.
    replace (fst ∘ ren) with (renaming m ∘ (fst : string * list string -> string))
      by reflexivity.
    rewrite list_fmap_compose.
    apply NoDup_fmap_2_strong; [|apply NoDup_fst_map_to_list].
    intros x y Hx Hy. apply Hinj.
    - apply list_elem_of_fmap in Hx as ([k ts] & -> & Hk).
      apply elem_of_map_to_list in Hk. apply in_all_nodes, Hdom. cbn. eauto.
    - apply list_elem_of_fmap in Hy as ([k ts] & -> & Hk).
      apply elem_of_map_to_list in Hk. apply in_all_nodes, Hdom. cbn. eauto. }
  split; [exact Hfs|]. split; [exact Hfe|]. split; [exact Hinj|].
  split; [|split].
  - intros old ts Hold. apply elem_of_list_to_map_1; [exact Hkeys|].
    apply list_elem_of_fmap. exists (old, ts). split; [reflexivity|].
    apply elem_of_map_to_list, Hold.
  - intros k ts' Hk. apply elem_of_list_to_map_2 in Hk.
    apply list_elem_of_fmap in Hk as ([old ts] & Heq & Hold).
    apply elem_of_map_to_list in Hold. injection Heq as -> ->.
    exists old, ts. auto.
  - unfold all_nodes. cbn. do 2 f_equal. apply list_eq. intros j.
    rewrite list_lookup_fmap.
    destruct (acts !! j) as [a|] eqn:Hj; cbn.
    + apply Hfa, Hj.
    + apply lookup_ge_None. rewrite Hlen. apply lookup_ge_None, Hj.
Qed.

(** How a graph that [generate_process] returns has come about: a
    layered, funnelled graph over generic names, renamed. *)
Lemma generate_process_shape mn mx mc xc conn r g self' :
  generate_process (__init__ mn mx mc xc conn r) = Ok (g, self') ->
  exists num acts g0 f,
    (Z.max 3 mn <= num <= mx)%Z /\ acts = activity_names num /\
    layered acts g0 /\ funnelled acts g0 /\
    f "START" = "START" /\ f "END" = "END" /\
    (forall x y, x ∈ all_nodes acts -> y ∈ all_nodes acts -> f x = f y -> x = y) /\
    (forall old ts, g0 !! old = Some ts -> g !! f old = Some (f <$> ts)) /\
    (forall k ts', g !! k = Some ts' ->
       exists old ts, g0 !! old = Some ts /\ k = f old /\ ts' = f <$> ts) /\
    nodes self' = all_nodes (f <$> acts) /\ graph self' = g.
Proof.
  unfold generate_process.
  cbn [random set_graph __init__ min_nodes max_nodes].
  destruct (decide (Z.max 3 mn <= mx)%Z) as [Hle|Hgt].
  2:{ rewrite randint_empty by lia. discriminate. }
  destruct (randint_ok (Z.max 3 mn) mx r Hle) as (num & r1 & -> & Hnum).
  cbn [rbind].
  set (acts := activity_names num).
  pose proof (activity_names_nodup num) as Hnd.
  pose proof (activity_names_not_start num) as Hs.
  pose proof (activity_names_not_end num) as He.
  assert (acts <> []) as Hne by (apply activity_names_nonempty; lia).
  fold acts in Hnd, Hs, He.
  match goal with
  | |- context [_generate_connections ?s] => set (s0 := s)
  end.
  destruct (generated_after_connect acts Hnd Hs He s0) as (s1 & -> & Hf1 & Hgen);
    [reflexivity|reflexivity|cbn; lia|].
  cbn [rbind].
  assert (nodes s1 = all_nodes acts) as Hn1
    by (destruct Hf1 as (_ & _ & _ & _ & -> & _); reflexivity).
  destruct (ensure_valid_spec acts Hnd Hs He Hne s1 Hn1 Hgen) as (s2 & Hrun2 & Hf2 & Hlay).
  pose proof (ensure_valid_funnelled acts Hnd Hs He Hne s1 s2 Hn1 Hgen Hrun2) as Hfun.
  rewrite Hrun2. cbn [rbind].
  assert (nodes s2 = all_nodes acts) as Hn2
    by (destruct Hf2 as (_ & _ & _ & _ & -> & _); exact Hn1).
  assert (lmstudio_connector s2 = conn) as Hc2.
  { destruct Hf2 as (_ & _ & _ & _ & _ & -> & _).
    destruct Hf1 as (_ & _ & _ & _ & _ & -> & _). reflexivity. }
  assert (used_names s2 = {["START"; "END"]}) as Hu2.
  { destruct Hf2 as (_ & _ & _ & _ & _ & _ & ->).
    destruct Hf1 as (_ & _ & _ & _ & _ & _ & ->). reflexivity. }
  rewrite Hc2. destruct conn as [c|].
  - destruct (relabel_renaming acts s2 Hlay Hn2)
      as (s3 & f & -> & Hfs & Hfe & Hinj & Hg1 & Hg2 & Hn3).
    { rewrite Hc2. eauto. }
    { rewrite Hu2. set_solver. }
    { rewrite Hu2. set_solver. }
    cbn [rbind]. intros [= <- <-].
    exists num, acts, (graph s2), f.
    split; [lia|]. split; [reflexivity|]. split; [exact Hlay|].
    split; [exact Hfun|]. repeat (split; [assumption|]). reflexivity.
  - cbn [rbind]. intros [= <- <-].
    exists num, acts, (graph s2), id.
    split; [lia|]. split; [reflexivity|]. split; [exact Hlay|].
    split; [exact Hfun|]. split; [reflexivity|]. split; [reflexivity|].
    split; [auto|]. split; [|split; [|split; [|reflexivity]]].
    + intros old ts Hold. rewrite list_fmap_id. exact Hold.
    + intros k ts' Hk. exists k, ts'. rewrite list_fmap_id. auto.
    + rewrite list_fmap_id. exact Hn2.
Qed.

Lemma length_activity_names num : length (activity_names num) = Z.to_nat (num - 2).
Proof. unfold activity_names. rewrite length_map, length_seq. reflexivity. Qed.

(** The node that a funnelled, layered graph ends in, seen through a
    renaming. *)
Lemma funnel_final acts g0 f (g : gmap string (list string)) :
  layered acts g0 -> funnelled acts g0 ->
  f "START" = "START" -> f "END" = "END" ->
  (forall x y, x ∈ all_nodes acts -> y ∈ all_nodes acts -> f x = f y -> x = y) ->
  (forall old ts, g0 !! old = Some ts -> g !! f old = Some (f <$> ts)) ->
  (forall k ts', g !! k = Some ts' ->
     exists old ts, g0 !! old = Some ts /\ k = f old /\ ts' = f <$> ts) ->
  exists final,
    last (all_nodes (f <$> acts)) = Some final /\
    final <> "START" /\ final <> "END" /\
    g !! final = Some ["END"] /\
    forall n targets, g !! n = Some targets -> "END" ∈ targets -> n = final.
Proof.
  intros Hlay Hfun Hfs Hfe Hinj Hg1 Hg2.
  pose proof Hlay as [Hnd Hs He Hne Hdom _ Hgend Ht _].
  destruct (lookup_lt_is_Some_2 acts (length acts - 1)) as [a0 Ha0].
  { destruct acts; [contradiction|cbn; lia]. }
  assert (Hlast : S (length acts - 1) = length acts)
    by (destruct acts; [contradiction|cbn; lia]).
  pose proof (list_elem_of_lookup_2 _ _ _ Ha0) as Ha0in.
  destruct (Ht _ _ Ha0) as (ts0 & Hts0 & Hne0 & _).
  pose proof (Hfun _ _ _ Ha0 Hts0) as Hf0.
  rewrite decide_True in Hf0 by exact Hlast.
  destruct Hf0 as [->| ->]; [contradiction|].
  exists (f a0). split; [|split; [|split; [|split]]].
  - rewrite last_lookup. unfold all_nodes. cbn [length Nat.pred].
    rewrite length_fmap.
    replace (S (length acts)) with (S (S (length acts - 1))) by lia.
    change (("START" :: "END" :: (f <$> acts)) !! S (S (length acts - 1)))
      with ((f <$> acts) !! (length acts - 1)).
    rewrite list_lookup_fmap, Ha0. reflexivity.
  - rewrite <- Hfs. intros Heq. apply Hinj in Heq; [congruence| |];
      apply in_all_nodes; auto.
  - rewrite <- Hfe. intros Heq. apply Hinj in Heq; [congruence| |];
      apply in_all_nodes; auto.
  - rewrite (Hg1 _ _ Hts0). cbn. rewrite Hfe. reflexivity.
  - intros n targets Hn Hin.
    destruct (Hg2 _ _ Hn) as (old & ts & Hold & -> & ->).
    apply list_elem_of_fmap in Hin as (v & Hv & Hvin).
    assert (v = "END") as ->.
    { apply Hinj; [| |congruence]; apply in_all_nodes; auto.
      destruct (edge_cases acts g0 Hlay old v) as [[_ ?]|(j & _ & [->|(j' & _ & Hj')])];
        [exists ts; auto|auto..].
      right; right. eapply list_elem_of_lookup_2, Hj'. }
    f_equal.
    destruct (edge_cases acts g0 Hlay old "END") as [[_ ?]|(j & Hj & _)];
      [exists ts; auto|contradiction|].
    pose proof (Hfun _ _ _ Hj Hold) as Hfj.
    destruct (decide (S j = length acts)) as [Hjl|_]; [|contradiction].
    assert (j = length acts - 1) as -> by lia. congruence.
Qed.

(** X7.  A graph that [generate_process] returns has between
    [max(3, min_nodes)] and [max_nodes] nodes, START and END included;
    [self.nodes] lists its keys, each of them once. *)
Theorem generated_graph_respects_node_bounds (mn mx mc xc : Z)
    (conn : option connector) (r : rng)
    (g : gmap string (list string)) (self' : generator) :
  generate_process (__init__ mn mx mc xc conn r) = Ok (g, self') ->
  (Z.max 3 mn <= Z.of_nat (length (nodes self')) <= mx)%Z /\
  size g = length (nodes self') /\
  NoDup (nodes self') /\
  (forall n, n ∈ nodes self' <-> is_Some (g !! n)).
Proof.
  intros Hrun.
  destruct (generate_process_shape _ _ _ _ _ _ _ _ Hrun)
    as (num & acts & g0 & f & Hnum & -> & _ & _ & _ & _ & _ & _ & _ & Hn & _).
  destruct (generate_process_returns_layered _ _ _ _ _ _ _ _ Hrun)
    as (_ & acts' & Hn' & Hlay).
  assert (Hnd : NoDup (nodes self')).
  { rewrite Hn'. apply all_nodes_nodup; apply Hlay. }
  assert (Hdom : forall n, n ∈ nodes self' <-> is_Some (g !! n)).
  { intros n. rewrite Hn', in_all_nodes. symmetry. apply (lay_dom _ _ Hlay). }
  split; [|split; [|split]]; try assumption.
  - rewrite Hn. unfold all_nodes. cbn [length].
    rewrite length_fmap, length_activity_names. lia.
  - rewrite <- (length_map_to_list g), <- (length_fmap fst).
    apply Permutation_length, NoDup_Permutation;
      [apply NoDup_fst_map_to_list|exact Hnd|].
    intros n. rewrite Hdom. rewrite list_elem_of_fmap. split.
    + intros ([k ts] & -> & Hk). apply elem_of_map_to_list in Hk. cbn. eauto.
    + intros [ts Hts]. exists (n, ts). split; [reflexivity|].
      apply elem_of_map_to_list, Hts.
Qed.

Lemma generated_graph_respects_node_bounds_witness :
  (Z.max 3 5 <= Z.of_nat (length (nodes example_generator)) <= 5)%Z /\
  size example_graph = length (nodes example_generator) /\
  NoDup (nodes example_generator) /\
  (forall n, n ∈ nodes example_generator <-> is_Some (example_graph !! n)).
Proof.
  apply (generated_graph_respects_node_bounds 5 5 1 2 None
           [0; 1; 2; 3; 4; 5; 6; 7; 8; 9; 10]%nat).
  exact example_run.
Defined.

(** X8.  In a graph that [generate_process] returns, END has exactly one
    predecessor: the last node of [self.nodes], an activity, whose only
    successor is END. *)
Theorem only_the_last_activity_leads_to_end (mn mx mc xc : Z)
    (conn : option connector) (r : rng)
    (g : gmap string (list string)) (self' : generator) :
  generate_process (__init__ mn mx mc xc conn r) = Ok (g, self') ->
  exists final,
    last (nodes self') = Some final /\ final <> "START" /\ final <> "END" /\
    g !! final = Some ["END"] /\
    forall n targets, g !! n = Some targets -> "END" ∈ targets -> n = final.
Proof.
  intros Hrun.
  destruct (generate_process_shape _ _ _ _ _ _ _ _ Hrun)
    as (num & acts & g0 & f & _ & _ & Hlay & Hfun & Hfs & Hfe & Hinj & Hg1 & Hg2
        & -> & _).
  exact (funnel_final acts g0 f g Hlay Hfun Hfs Hfe Hinj Hg1 Hg2).
Qed.

Lemma only_the_last_activity_leads_to_end_witness :
  exists final,
    last (nodes example_generator) = Some final /\
    final <> "START" /\ final <> "END" /\
    example_graph !! final = Some ["END"] /\
    forall n targets,
      example_graph !! n = Some targets -> "END" ∈ targets -> n = final.
Proof.
  apply (only_the_last_activity_leads_to_end 5 5 1 2 None
           [0; 1; 2; 3; 4; 5; 6; 7; 8; 9; 10]%nat).
  exact example_run.
Defined.

(** X9.  [_get_activity_name] returns the node itself, and changes nothing,
    when there is no connector or the node is START or END.  Otherwise,
    whatever the naming service answers or fails to answer, it returns a
    name that was not in [used_names] and now is, keeps the names that were
    there and leaves graph and node list alone; so two calls in a row never
    return the same name. *)
Theorem activity_name_is_fresh_and_recorded :
  (forall node self,
      lmstudio_connector self = None \/ node = "START" \/ node = "END" ->
      _get_activity_name node self = Ok (node, self)) /\
  (forall node self,
      is_Some (lmstudio_connector self) -> node <> "START" -> node <> "END" ->
      exists name self',
        _get_activity_name node self = Ok (name, self') /\
        (name ∉ used_names self) /\ name ∈ used_names self' /\
        (used_names self ⊆ used_names self') /\
        graph self' = graph self /\ nodes self' = nodes self /\
        is_Some (lmstudio_connector self')) /\
  (forall node1 node2 self name1 self1 name2 self2,
      is_Some (lmstudio_connector self) ->
      node1 <> "START" -> node1 <> "END" -> node2 <> "START" -> node2 <> "END" ->
      _get_activity_name node1 self = Ok (name1, self1) ->
      _get_activity_name node2 self1 = Ok (name2, self2) ->
      name1 <> name2).
Proof.
  assert (Hfresh : forall node self,
      is_Some (lmstudio_connector self) -> node <> "START" -> node <> "END" ->
      exists name self',
        _get_activity_name node self = Ok (name, self') /\
        (name ∉ used_names self) /\ name ∈ used_names self' /\
        (used_names self ⊆ used_names self') /\
        graph self' = graph self /\ nodes self' = nodes self /\
        is_Some (lmstudio_connector self')).
  { intros node self [c Hc] Hs He. unfold _get_activity_name. rewrite Hc.
    rewrite decide_False by tauto.
    destruct (get_activity_name_spec 3 1 c self ltac:(lia))
      as (name & self' & -> & Hnew & Hrec & Hg & Hn & Hconn & Hsub).
    exists name, self'. repeat split; auto. }
  split; [|split; [exact Hfresh|]].
  - intros node self H. unfold _get_activity_name.
    destruct (lmstudio_connector self); [|reflexivity].
    destruct H as [?|H]; [discriminate|]. rewrite decide_True by exact H. reflexivity.
  - intros node1 node2 self name1 self1 name2 self2 Hc Hs1 He1 Hs2 He2 H1 H2.
    destruct (Hfresh node1 self Hc Hs1 He1)
      as (n1 & s1 & H1' & _ & Hrec & _ & _ & _ & Hc1).
    assert (n1 = name1 /\ s1 = self1) as [-> ->] by (split; congruence).
    destruct (Hfresh node2 self1 Hc1 Hs2 He2) as (n2 & s2 & H2' & Hnew & _).
    assert (n2 = name2) as -> by congruence.
    intros ->. contradiction.
Qed.

(** A generator whose naming service first proposes a name that is
    taken and then fails. *)
Definition example_named_generator : generator :=
  __init__ 5 10 1 3 (Some [Some "START"; None]) [].

Lemma activity_name_is_fresh_and_recorded_witness :
  exists name self',
    _get_activity_name "Activity_1" example_named_generator = Ok (name, self') /\
    (name ∉ used_names example_named_generator) /\ name ∈ used_names self' /\
    (used_names example_named_generator ⊆ used_names self') /\
    graph self' = graph example_named_generator /\
    nodes self' = nodes example_named_generator /\
    is_Some (lmstudio_connector self').
Proof.
  apply (proj1 (proj2 activity_name_is_fresh_and_recorded)).
  - cbn. eauto.
  - discriminate.
  - discriminate.
Defined.

(** X10.  The name that [_get_activity_name] makes of an answer of the naming
    service holds no newline, no double quote and no single quote. *)
Theorem clean_name_has_no_newline_and_no_quote (answer : string) :
  forall c, c ∈ String.list_ascii_of_string (clean_name answer) ->
            c <> newline /\ c <> double_quote /\ c <> single_quote.
Proof.
  intros c. unfold clean_name.
  rewrite String.list_ascii_of_string_of_list_ascii.
  rewrite !list_elem_of_filter. intros (Hsq & Hdq & Hin).
  split; [|split; assumption].
  apply list_elem_of_In, in_map_iff in Hin as (c0 & Hc & _).
  destruct (decide (c0 = newline)); subst; [discriminate|assumption].
Qed.

Lemma clean_name_has_no_newline_and_no_quote_witness :
  Ascii.ascii_of_nat 67 <> newline /\ Ascii.ascii_of_nat 67 <> double_quote /\
  Ascii.ascii_of_nat 67 <> single_quote.
Proof.
  apply (clean_name_has_no_newline_and_no_quote " 'Check Request' ").
  apply list_elem_of_In. vm_compute. tauto.
Defined.

(** X11.  In a graph that [generate_process] returns no edge leaves END or
    enters START, every edge that does not enter END leads from a node to
    one that stands later in [self.nodes], and START leads to the first
    activity. *)
Theorem edges_follow_the_node_order (mn mx mc xc : Z)
    (conn : option connector) (r : rng)
    (g : gmap string (list string)) (self' : generator) :
  generate_process (__init__ mn mx mc xc conn r) = Ok (g, self') ->
  (forall u v, edge g u v ->
     u <> "END" /\ v <> "START" /\
     (v = "END" \/
      exists i j, i < j /\ nodes self' !! i = Some u /\ nodes self' !! j = Some v)) /\
  (forall a, nodes self' !! 2 = Some a -> edge g "START" a).
Proof.
  intros Hrun.
  destruct (generate_process_returns_layered _ _ _ _ _ _ _ _ Hrun)
    as (_ & acts & -> & Hlay).
  pose proof Hlay as [Hnd Hs He _ _ _ _ _ Hin].
  unfold all_nodes. split.
  - intros u v Huv.
    destruct (edge_cases acts g Hlay u v Huv)
      as [[-> Hv]|(j & Hj & [->|(j' & Hlt & Hj')])].
    + split; [discriminate|]. split; [intros ->; contradiction|].
      right. apply list_elem_of_lookup_1 in Hv as [j Hj].
      exists 0, (S (S j)). split; [lia|]. split; [reflexivity|exact Hj].
    + pose proof (list_elem_of_lookup_2 _ _ _ Hj) as Hu.
      split; [intros ->; contradiction|]. split; [discriminate|]. left. reflexivity.
    + pose proof (list_elem_of_lookup_2 _ _ _ Hj) as Hu.
      pose proof (list_elem_of_lookup_2 _ _ _ Hj') as Hv.
      split; [intros ->; contradiction|]. split; [intros ->; contradiction|].
      right. exists (S (S j)), (S (S j')). split; [lia|]. split; assumption.
  - intros a Ha. change (acts !! 0 = Some a) in Ha.
    destruct (Hin a (list_elem_of_lookup_2 _ _ _ Ha)) as [u Hu].
    destruct (edge_cases acts g Hlay u a Hu)
      as [[-> _]|(j & Hj & [->|(j' & Hlt & Hj')])]; [exact Hu| |].
    + apply list_elem_of_lookup_2 in Ha. contradiction.
    + assert (j' = 0) by (eapply NoDup_lookup; eauto). lia.
Qed.

Lemma edges_follow_the_node_order_witness :
  (forall u v, edge example_graph u v ->
     u <> "END" /\ v <> "START" /\
     (v = "END" \/
      exists i j, i < j /\ nodes example_generator !! i = Some u /\
                  nodes example_generator !! j = Some v)) /\
  (forall a, nodes example_generator !! 2 = Some a -> edge example_graph "START" a).
Proof.
  apply (edges_follow_the_node_order 5 5 1 2 None
           [0; 1; 2; 3; 4; 5; 6; 7; 8; 9; 10]%nat).
  exact example_run.
Defined.

(** *** The graph does not depend on the connector *)

(** The same generator with another connector. *)
Definition with_connector (conn : option connector) (self : generator) : generator :=
  mkgen (min_nodes self) (max_nodes self) (min_connections self)
        (max_connections self) (graph self) (nodes self) conn
        (used_names self) (random self).

Definition rmap {A B} (f : A -> B) (r : result A) : result B :=
  match r with
  | Ok a => Ok (f a)
  | Raise e => Raise e
  | OutOfFuel => OutOfFuel
  end.

Ltac connector_free :=
  cbn [with_connector rmap rbind graph nodes random min_nodes max_nodes
       min_connections max_connections used_names lmstudio_connector
       set_graph set_nodes set_random];
  try reflexivity.

Lemma connect_node_connector conn i node self :
  connect_node i node (with_connector conn self)
    = rmap (with_connector conn) (connect_node i node self).
Proof.
  unfold connect_node. connector_free.
  destruct (decide (node = "END")); connector_free.
  destruct (decide (drop (S i) (nodes self) = [])); connector_free.
  destruct (randint _ _ (random self)) as [[k r]| |]; connector_free.
  destruct (sample _ k r) as [[ts r2]| |]; connector_free.
Qed.

Lemma connect_from_connector conn todo : forall i self,
  connect_from i todo (with_connector conn self)
    = rmap (with_connector conn) (connect_from i todo self).
Proof.
  induction todo as [|node todo IH]; intros i self; cbn [connect_from];
    [reflexivity|].
  rewrite connect_node_connector.
  destruct (connect_node i node self) as [s| |]; connector_free. apply IH.
Qed.

Lemma generate_connections_connector conn self :
  _generate_connections (with_connector conn self)
    = rmap (with_connector conn) (_generate_connections self).
Proof. apply connect_from_connector. Qed.

Lemma ensure_start_connector conn self :
  ensure_start_has_target (with_connector conn self)
    = rmap (with_connector conn) (ensure_start_has_target self).
Proof.
  unfold ensure_start_has_target. connector_free.
  destruct (getitem (graph self) "START") as [ts| |]; connector_free.
  destruct (decide (ts = [])); connector_free.
  destruct (decide (middle_nodes (nodes self) = [])); connector_free.
  destruct (choice _ (random self)) as [[t r]| |]; connector_free.
Qed.

Lemma ensure_outgoing_connector conn node self :
  ensure_outgoing node (with_connector conn self)
    = rmap (with_connector conn) (ensure_outgoing node self).
Proof.
  unfold ensure_outgoing. connector_free.
  destruct (getitem (graph self) node) as [ts| |]; connector_free.
  destruct (decide (ts = [])); connector_free.
  destruct (decide (_ = [])); connector_free.
  destruct (choice _ (random self)) as [[t r]| |]; connector_free.
Qed.

Lemma ensure_incoming_connector conn node self :
  ensure_incoming node (with_connector conn self)
    = rmap (with_connector conn) (ensure_incoming node self).
Proof.
  unfold ensure_incoming. connector_free.
  destruct (has_incoming (graph self) node); connector_free.
  destruct (decide (_ = [])); connector_free.
  - destruct (getitem (graph self) "START") as [ts| |]; connector_free.
  - destruct (choice _ (random self)) as [[s r]| |]; connector_free.
    destruct (getitem (graph self) s) as [ts| |]; connector_free.
    destruct (decide (node ∈ ts)); connector_free.
Qed.

Lemma repair_nodes_connector conn todo : forall self,
  repair_nodes todo (with_connector conn self)
    = rmap (with_connector conn) (repair_nodes todo self).
Proof.
  induction todo as [|node todo IH]; intros self; cbn [repair_nodes];
    [reflexivity|].
  unfold repair_node.
  destruct (decide (node = "START" \/ node = "END")); cbn [rbind]; [apply IH|].
  rewrite ensure_outgoing_connector.
  destruct (ensure_outgoing node self) as [s| |]; connector_free.
  rewrite ensure_incoming_connector.
  destruct (ensure_incoming node s) as [s'| |]; connector_free. apply IH.
Qed.

Lemma ensure_path_connector conn self :
  ensure_path_to_end (with_connector conn self)
    = rmap (with_connector conn) (ensure_path_to_end self).
Proof.
  unfold ensure_path_to_end, append_end. connector_free.
  destruct (has_path_to_end (graph self)); connector_free.
  destruct (without_targets _ _) as [l| |]; connector_free.
  destruct (decide (l = [])); connector_free.
  - destruct (decide (middle_nodes (nodes self) = [])); connector_free.
    destruct (last_item _) as [x| |]; connector_free.
    destruct (getitem (graph self) x) as [ts| |]; connector_free.
  - destruct (last_item l) as [x| |]; connector_free.
    destruct (getitem (graph self) x) as [ts| |]; connector_free.
Qed.

Lemma ensure_valid_connector conn self :
  _ensure_valid_process (with_connector conn self)
    = rmap (with_connector conn) (_ensure_valid_process self).
Proof.
  unfold _ensure_valid_process.
  change (clear_start_and_end (with_connector conn self))
    with (with_connector conn (clear_start_and_end self)).
  rewrite ensure_start_connector.
  destruct (ensure_start_has_target _) as [s1| |]; connector_free.
  rewrite repair_nodes_connector.
  destruct (repair_nodes _ s1) as [s2| |]; connector_free.
  apply ensure_path_connector.
Qed.

(** *** A naming service that always fails *)

(** The fallback loop finds the first free number. *)
Lemma fallback_counter_first_free (used : gset string) (k : nat) :
  forall fuel counter,
    counter <= S k -> S k - counter <= fuel ->
    (forall i, counter <= i <= k -> "Activity_" +:+ pretty i ∈ used) ->
    "Activity_" +:+ pretty (S k) ∉ used ->
    fallback_counter fuel counter used = Ok (S k).
Proof.
  induction fuel as [|fuel IH]; intros counter Hle Hfuel Htaken Hfree;
    cbn [fallback_counter].
  - assert (counter = S k) as -> by lia. rewrite decide_False by exact Hfree.
    reflexivity.
  - destruct (decide (counter = S k)) as [->|Hne].
    + rewrite decide_False by exact Hfree. reflexivity.
    + rewrite decide_True by (apply Htaken; lia).
      apply IH; try lia; try assumption. intros i Hi. apply Htaken. lia.
Qed.

Lemma activity_name_inj (i j : nat) :
  "Activity_" +:+ pretty i = "Activity_" +:+ pretty j -> i = j.
Proof.
  intros H. apply (inj (String.app _)) in H. apply (inj pretty) in H. exact H.
Qed.

(** The names in use after [k] activities have got their generic name. *)
Definition generic_names_used (k : nat) (used : gset string) : Prop :=
  size used = 2 + k /\
  forall x, x ∈ used <->
            x = "START" \/ x = "END" \/
            exists i, 1 <= i <= k /\ x = "Activity_" +:+ pretty i.

Lemma rename_nodes_failing n : forall k node_mapping new_nodes self c,
  lmstudio_connector self = Some c -> Forall (fun a => a = None) c ->
  generic_names_used k (used_names self) ->
  (forall i, k <= i < k + n ->
     is_Some (graph self !! ("Activity_" +:+ pretty (S i)))) ->
  exists node_mapping' self',
    rename_nodes (map (fun i => "Activity_" +:+ pretty (S i)) (seq k n))
                 node_mapping new_nodes self
      = Ok (node_mapping',
            new_nodes ++ map (fun i => "Activity_" +:+ pretty (S i)) (seq k n),
            self') /\
    graph self' = graph self /\ nodes self' = nodes self /\
    (forall x, node_mapping' !! x = node_mapping !! x \/ node_mapping' !! x = Some x) /\
    (forall i, k <= i < k + n ->
       node_mapping' !! ("Activity_" +:+ pretty (S i))
         = Some ("Activity_" +:+ pretty (S i))).
Proof.
  induction n as [|n IH]; intros k m nn self c Hc Hfail (Hsize & Hused) Hdom.
  { exists m, self. cbn. rewrite app_nil_r. repeat split; auto. intros i Hi. lia. }
  cbn [seq map rename_nodes].
  rewrite decide_False.
  2:{ intros [H|H]; [apply (activity_name_not_start _ H)|apply (activity_name_not_end _ H)]. }
  destruct (Hdom k ltac:(lia)) as [ts Hts].
  unfold getitem at 1. rewrite Hts. cbn [rbind].
  unfold _get_activity_name. rewrite Hc.
  rewrite decide_False.
  2:{ intros [H|H]; [apply (activity_name_not_start _ H)|apply (activity_name_not_end _ H)]. }
  cbn [get_activity_name].
  assert (exists c', get_answer c = (None, c') /\ Forall (fun a => a = None) c')
    as (c' & -> & Hfail').
  { destruct c as [|a c']; [exists []; split; [reflexivity|constructor]|].
    inversion Hfail; subst. exists c'. split; [reflexivity|assumption]. }
  cbn [used_names set_connector].
  rewrite (fallback_counter_first_free (used_names self) k).
  2: lia.
  2: rewrite Hsize; lia.
  2:{ intros i Hi. apply Hused. right; right. exists i. split; [lia|reflexivity]. }
  2:{ intros Hin. apply Hused in Hin as [H|[H|(i & Hi & H)]].
      - apply (activity_name_not_start _ H).
      - apply (activity_name_not_end _ H).
      - apply activity_name_inj in H. lia. }
  cbn [rbind].
  set (name := "Activity_" +:+ pretty (S k)).
  set (s1 := add_used_name name (set_connector c' self)).
  destruct (IH (S k) (<[name := name]> m) (nn ++ [name]) s1 c')
    as (m' & s2 & Hrun & Hg & Hn & Hm' & Hid); try assumption.
  - reflexivity.
  - unfold s1. cbn [used_names add_used_name set_connector]. split.
    + rewrite size_union, size_singleton, Hsize; [lia|].
      apply disjoint_singleton_l. intros Hin.
      apply Hused in Hin as [H|[H|(i & Hi & H)]].
      * apply (activity_name_not_start _ H).
      * apply (activity_name_not_end _ H).
      * apply activity_name_inj in H. lia.
    + intros x. rewrite elem_of_union, elem_of_singleton, Hused. split.
      * intros [->|[?|[?|(i & Hi & ->)]]]; auto.
        -- right; right. exists (S k). split; [lia|reflexivity].
        -- right; right. exists i. split; [lia|reflexivity].
      * intros [?|[?|(i & Hi & ->)]]; auto.
        destruct (decide (i = S k)) as [->|]; [left; reflexivity|].
        right. right. right. exists i. split; [lia|reflexivity].
  - intros i Hi. unfold s1. cbn [graph add_used_name set_connector].
    apply Hdom. lia.
  - exists m', s2. rewrite Hrun, <- app_assoc. split; [reflexivity|].
    split; [rewrite Hg; reflexivity|]. split; [rewrite Hn; reflexivity|].
    split.
    + intros x. destruct (Hm' x) as [->|H]; [|auto].
      destruct (decide (name = x)) as [<-|Hne].
      * right. apply lookup_insert_eq.
      * left. apply lookup_insert_ne, Hne.
    + intros i Hi. destruct (decide (i = k)) as [->|Hne]; [|apply Hid; lia].
      fold name. destruct (Hm' name) as [->|H]; [|exact H].
      apply lookup_insert_eq.
Qed.

Lemma relabel_failing num self c :
  layered (activity_names num) (graph self) ->
  nodes self = all_nodes (activity_names num) ->
  lmstudio_connector self = Some c -> Forall (fun a => a = None) c ->
  used_names self = {["START"; "END"]} ->
  exists self',
    relabel self = Ok self' /\ graph self' = graph self /\ nodes self' = nodes self.
Proof.
  intros Hlay Hnodes Hc Hfail Hused.
  pose proof Hlay as [Hnd Hs He Hne Hdom _ _ _ _].
  unfold relabel. rewrite Hnodes. unfold all_nodes. cbn [rename_nodes].
  destruct (decide ("START" = "START" \/ "START" = "END")) as [_|Hno];
    [|destruct Hno; auto].
  destruct (decide ("END" = "START" \/ "END" = "END")) as [_|Hno];
    [|destruct Hno; auto].
  set (m0 := <["END" := "END"]> (<["START" := "START"]> (∅ : gmap string string))).
  unfold activity_names in *.
  destruct (rename_nodes_failing (Z.to_nat (num - 2)) 0 m0 ["START"; "END"] self c)
    as (m & s1 & -> & Hg1 & Hn1 & Hm & Hid); try assumption.
  { rewrite Hused. split; [reflexivity|].
    intros x. rewrite elem_of_union, !elem_of_singleton. split.
    - intros [->| ->]; auto.
    - intros [->|[->|(i & Hi & _)]]; auto. lia. }
  { intros i Hi. apply Hdom. right; right. apply list_elem_of_In, in_map_iff.
    exists i. split; [reflexivity|]. apply in_seq. lia. }
  cbn [rbind].
  assert (forall x, renaming m x = x) as Hren.
  { intros x. unfold renaming. destruct (Hm x) as [->| ->]; [|reflexivity].
    unfold m0. destruct (decide (x = "END")) as [->|?];
      [rewrite lookup_insert_eq; reflexivity|rewrite lookup_insert_ne by congruence].
    destruct (decide (x = "START")) as [->|?];
      [rewrite lookup_insert_eq; reflexivity|rewrite lookup_insert_ne by congruence].
    reflexivity. }
  assert (forall n, is_Some (graph self !! n) -> is_Some (m !! n)) as Hmdom.
  { intros n Hn. apply Hdom in Hn as [->|[->|Hn]].
    - destruct (Hm "START") as [->| ->]; eauto.
    - destruct (Hm "END") as [->| ->]; eauto.
    - apply list_elem_of_In, in_map_iff in Hn as (i & <- & Hi).
      apply in_seq in Hi. rewrite Hid by lia. eauto. }
  rewrite Hg1. rewrite rename_items_spec.
  2:{ intros [k ts] Hit. apply elem_of_map_to_list in Hit. cbn. split.
      - apply Hmdom. eauto.
      - intros t Hin. apply Hmdom.
        destruct (edge_cases _ _ Hlay k t) as [[_ ?]|(j & _ & [->|(j' & _ & Hj')])].
        + exists ts. auto.
        + apply Hdom. auto.
        + apply Hdom. auto.
        + apply Hdom. right; right. eapply list_elem_of_lookup_2, Hj'. }
  cbn [rbind]. eexists. split; [reflexivity|].
  cbn [graph nodes set_nodes set_graph]. split; [|reflexivity].
  erewrite (list_fmap_ext _ id).
  - rewrite list_fmap_id. apply list_to_map_to_list.
  - intros i [k ts] _. cbn. rewrite Hren. f_equal.
    erewrite (list_fmap_ext _ id); [apply list_fmap_id|].
    intros j t _. apply Hren.
Qed.

(** [generate_process] in two steps: a graph over generic names that
    the connector has no part in, then the relabelling. *)
Lemma generate_process_steps mn mx mc xc r :
  (Z.max 3 mn <= mx)%Z ->
  exists num s2,
    layered (activity_names num) (graph s2) /\
    nodes s2 = all_nodes (activity_names num) /\
    used_names s2 = {["START"; "END"]} /\
    lmstudio_connector s2 = None /\
    forall conn,
      generate_process (__init__ mn mx mc xc conn r)
        = rbind (match conn with
                 | Some _ => relabel (with_connector conn s2)
                 | None => Ok s2
                 end)
                (fun s3 => Ok (graph s3, s3)).
Proof.
  intros Hle.
  destruct (randint_ok (Z.max 3 mn) mx r Hle) as (num & r1 & Hr & Hnum).
  set (acts := activity_names num).
  pose proof (activity_names_nodup num) as Hnd.
  pose proof (activity_names_not_start num) as Hs.
  pose proof (activity_names_not_end num) as He.
  assert (acts <> []) as Hne by (apply activity_names_nonempty; lia).
  fold acts in Hnd, Hs, He.
  set (s0 := set_graph (empty_graph (all_nodes acts))
               (set_nodes (all_nodes acts)
                  (set_random r1 (set_graph ∅ (__init__ mn mx mc xc None r))))).
  destruct (generated_after_connect acts Hnd Hs He s0) as (s1 & Hrun1 & Hf1 & Hgen);
    [reflexivity|reflexivity|cbn; lia|].
  assert (nodes s1 = all_nodes acts) as Hn1
    by (destruct Hf1 as (_ & _ & _ & _ & -> & _); reflexivity).
  destruct (ensure_valid_spec acts Hnd Hs He Hne s1 Hn1 Hgen) as (s2 & Hrun2 & Hf2 & Hlay).
  exists num, s2. fold acts.
  split; [exact Hlay|].
  split; [destruct Hf2 as (_ & _ & _ & _ & -> & _); exact Hn1|].
  split.
  { destruct Hf2 as (_ & _ & _ & _ & _ & _ & ->).
    destruct Hf1 as (_ & _ & _ & _ & _ & _ & ->). reflexivity. }
  assert (lmstudio_connector s2 = None) as Hc2.
  { destruct Hf2 as (_ & _ & _ & _ & _ & -> & _).
    destruct Hf1 as (_ & _ & _ & _ & _ & -> & _). reflexivity. }
  split; [exact Hc2|].
  intros conn. unfold generate_process.
  cbn [random set_graph __init__ min_nodes max_nodes].
  rewrite Hr. cbn [rbind].
  match goal with
  | |- context [_generate_connections ?s] =>
      change s with (with_connector conn s0)
  end.
  rewrite generate_connections_connector, Hrun1. cbn [rmap rbind].
  rewrite ensure_valid_connector, Hrun2. cbn [rmap rbind with_connector lmstudio_connector].
  destruct conn as [c|]; [reflexivity|].
  replace (with_connector None s2) with s2; [reflexivity|].
  destruct s2; unfold with_connector; cbn in *. congruence.
Qed.

(** X12.  The connector has no part in the shape of the graph: with the same
    arguments and the same random draws, the graph that
    [generate_process] returns with a connector is the graph it returns
    without one, renamed by a function that fixes START and END and is
    injective on the nodes; the node list is renamed in step. *)
Theorem connector_only_renames_the_nodes (mn mx mc xc : Z) (r : rng)
    (g0 : gmap string (list string)) (self0 : generator) (conn : option connector) :
  generate_process (__init__ mn mx mc xc None r) = Ok (g0, self0) ->
  exists g self' f,
    generate_process (__init__ mn mx mc xc conn r) = Ok (g, self') /\
    f "START" = "START" /\ f "END" = "END" /\
    (forall x y, x ∈ nodes self0 -> y ∈ nodes self0 -> f x = f y -> x = y) /\
    nodes self' = f <$> nodes self0 /\
    (forall old targets,
        g0 !! old = Some targets -> g !! f old = Some (f <$> targets)) /\
    (forall new targets',
        g !! new = Some targets' ->
        exists old targets,
          g0 !! old = Some targets /\ new = f old /\ targets' = f <$> targets).
Proof.
  intros Hrun0.
  assert (Hle : (Z.max 3 mn <= mx)%Z).
  { pose proof (generate_process_spec mn mx mc xc None r) as Hspec. cbn zeta in Hspec.
    destruct (decide (Z.max 3 mn <= mx)%Z); [assumption|congruence]. }
  destruct (generate_process_steps mn mx mc xc r Hle)
    as (num & s2 & Hlay & Hn2 & Hu2 & Hc2 & Hsteps).
  rewrite (Hsteps None) in Hrun0. cbn [rbind] in Hrun0. injection Hrun0 as <- <-.
  rewrite (Hsteps conn). destruct conn as [c|].
  - destruct (relabel_renaming (activity_names num) (with_connector (Some c) s2))
      as (s3 & f & -> & Hfs & Hfe & Hinj & Hg1 & Hg2 & Hn3); cbn; eauto.
    { rewrite Hu2. set_solver. }
    { rewrite Hu2. set_solver. }
    cbn [rbind]. exists (graph s3), s3, f. split; [reflexivity|].
    rewrite Hn2. split; [exact Hfs|]. split; [exact Hfe|]. split; [exact Hinj|].
    split; [|split; assumption].
    rewrite Hn3. unfold all_nodes. cbn. rewrite Hfs, Hfe. reflexivity.
  - cbn [rbind]. exists (graph s2), s2, id. split; [reflexivity|].
    split; [reflexivity|]. split; [reflexivity|]. split; [auto|].
    split; [rewrite list_fmap_id; reflexivity|]. split.
    + intros old ts Hold. rewrite list_fmap_id. exact Hold.
    + intros k ts' Hk. exists k, ts'. rewrite list_fmap_id. auto.
Qed.

(** X13.  With a naming service whose every call fails, [generate_process]
    on a fresh generator returns the very graph, under the generic names
    Activity_1, Activity_2, ..., and the very node list that it returns
    without a connector. *)
Theorem failing_connector_keeps_the_generic_names (mn mx mc xc : Z) (r : rng)
    (g0 : gmap string (list string)) (self0 : generator) (c : connector) :
  Forall (fun answer => answer = None) c ->
  generate_process (__init__ mn mx mc xc None r) = Ok (g0, self0) ->
  exists self',
    generate_process (__init__ mn mx mc xc (Some c) r) = Ok (g0, self') /\
    nodes self' = nodes self0.
Proof.
  intros Hfail Hrun0.
  assert (Hle : (Z.max 3 mn <= mx)%Z).
  { pose proof (generate_process_spec mn mx mc xc None r) as Hspec. cbn zeta in Hspec.
    destruct (decide (Z.max 3 mn <= mx)%Z); [assumption|congruence]. }
  destruct (generate_process_steps mn mx mc xc r Hle)
    as (num & s2 & Hlay & Hn2 & Hu2 & Hc2 & Hsteps).
  rewrite (Hsteps None) in Hrun0. cbn [rbind] in Hrun0. injection Hrun0 as <- <-.
  rewrite (Hsteps (Some c)).
  destruct (relabel_failing num (with_connector (Some c) s2) c)
    as (s3 & -> & Hg3 & Hn3); try assumption; try reflexivity.
  cbn [rbind]. exists s3. cbn in Hg3, Hn3. rewrite Hg3. split; [reflexivity|exact Hn3].
Qed.

Lemma connector_only_renames_the_nodes_witness :
  exists g self' f,
    generate_process
      (__init__ 5 5 1 2 (Some [Some "Check Request"; None; Some "Check Request"])
                [0; 1; 2; 3; 4; 5; 6; 7; 8; 9; 10]%nat) = Ok (g, self') /\
    f "START" = "START" /\ f "END" = "END" /\
    (forall x y, x ∈ nodes example_generator -> y ∈ nodes example_generator ->
                 f x = f y -> x = y) /\
    nodes self' = f <$> nodes example_generator /\
    (forall old targets,
        example_graph !! old = Some targets -> g !! f old = Some (f <$> targets)) /\
    (forall new targets',
        g !! new = Some targets' ->
        exists old targets,
          example_graph !! old = Some targets /\ new = f old /\
          targets' = f <$> targets).
Proof.
  apply (connector_only_renames_the_nodes 5 5 1 2
           [0; 1; 2; 3; 4; 5; 6; 7; 8; 9; 10]%nat example_graph example_generator).
  exact example_run.
Defined.

Lemma failing_connector_keeps_the_generic_names_witness :
  exists self',
    generate_process
      (__init__ 5 5 1 2 (Some [None; None]) [0; 1; 2; 3; 4; 5; 6; 7; 8; 9; 10]%nat)
      = Ok (example_graph, self') /\
    nodes self' = nodes example_generator.
Proof.
  apply (failing_connector_keeps_the_generic_names 5 5 1 2
           [0; 1; 2; 3; 4; 5; 6; 7; 8; 9; 10]%nat example_graph example_generator).
  - repeat constructor.
  - exact example_run.
Defined.

End GraphShapeFacts.

(** ** The walk through the graph *)

Module CaseWalkFacts.
Import DateTimeFacts TimestampFacts TimestampRollFacts CaseFacts EventLogFacts.
Import ProcessGenerator ProcessGeneratorFacts GraphShapeFacts.

(** Consecutive nodes of [l] are joined by edges of [g]. *)
Definition follows_edges (g : gmap string (list string)) (l : list string) : Prop :=
  forall (i : nat) u v, l !! i = Some u -> l !! S i = Some v -> edge g u v.

Lemma follows_edges_cons g u v l :
  edge g u v -> follows_edges g (v :: l) -> follows_edges g (u :: v :: l).
Proof.
  intros He Hl [|i] a b Ha Hb; cbn in Ha, Hb.
  - congruence.
  - exact (Hl i a b Ha Hb).
Qed.

Lemma choice_inv {A} (l : list A) g x g' :
  choice l g = Ok (x, g') -> x ∈ l.
Proof.
  unfold choice. destruct (draw g) as [r g0].
  destruct (l !! (r mod length l)%nat) eqn:Hl; [|discriminate].
  intros [= <- _]. eapply list_elem_of_lookup_2, Hl.
Qed.

Lemma choice_raises {A} (l : list A) g e :
  choice l g = Raise e -> e = IndexError.
Proof.
  unfold choice. destruct (draw g) as [r g0].
  destruct (l !! (r mod length l)%nat); [discriminate|]. congruence.
Qed.

(** What the loop of the walk has appended when it returns: a walk
    from [current] that stops at the first END. *)
Lemma case_path_loop_inv process_graph fuel : forall current path g path' g',
  case_path_loop fuel process_graph current path g = Ok (path', g') ->
  exists ext,
    path' = path ++ ext /\ last (current :: ext) = Some "END" /\
    follows_edges process_graph (current :: ext) /\
    forall (i : nat), (current :: ext) !! i = Some "END" -> i = length ext.
Proof.
  induction fuel as [|fuel IH]; intros current path g path' g' H;
    cbn [case_path_loop] in H.
  - destruct (decide (current = "END")) as [->|Hne]; [|discriminate].
    injection H as <- <-. exists []. rewrite app_nil_r. repeat split.
    + intros i u v Hu Hv. destruct i; discriminate.
    + intros [|i] Hi; [reflexivity|discriminate].
  - destruct (decide (current = "END")) as [->|Hne].
    + injection H as <- <-. exists []. rewrite app_nil_r. repeat split.
      * intros i u v Hu Hv. destruct i; discriminate.
      * intros [|i] Hi; [reflexivity|discriminate].
    + destruct (process_graph !! current) as [possible_next|] eqn:Hg; [|discriminate].
      destruct (choice possible_next g) as [[next g1]| |] eqn:Hc;
        cbn [rbind] in H; try discriminate.
      apply choice_inv in Hc.
      destruct (IH _ _ _ _ _ H) as (ext & -> & Hlast & Hwalk & Hend).
      exists (next :: ext). rewrite <- app_assoc. repeat split.
      * exact Hlast.
      * apply follows_edges_cons; [|exact Hwalk]. exists possible_next. auto.
      * intros [|i] Hi; cbn in Hi; [congruence|].
        cbn [length]. f_equal. exact (Hend i Hi).
Qed.

Lemma case_path_loop_raises process_graph fuel : forall current path g e,
  case_path_loop fuel process_graph current path g = Raise e ->
  e = KeyError \/ e = IndexError.
Proof.
  induction fuel as [|fuel IH]; intros current path g e H;
    cbn [case_path_loop] in H.
  - destruct (decide (current = "END")); discriminate.
  - destruct (decide (current = "END")); [discriminate|].
    destruct (process_graph !! current) as [possible_next|]; [|left; congruence].
    destruct (choice possible_next g) as [[next g1]| |] eqn:Hc;
      cbn [rbind] in H; try discriminate.
    + eauto.
    + right. apply choice_raises in Hc. congruence.
Qed.

(** X14.  On every graph, a path that [_generate_case_path] returns starts
    with START, ends with END, has END nowhere else and follows edges of
    the graph from each node to the next; when the function raises instead,
    it raises [KeyError] (a node that is no key) or [IndexError] (a node
    without successors). *)
Theorem case_path_is_a_walk_from_start_to_end (fuel : nat)
    (process_graph : gmap string (list string)) (g : rng) :
  (forall path g',
      _generate_case_path fuel process_graph g = Ok (path, g') ->
      path !! 0 = Some "START" /\ last path = Some "END" /\
      follows_edges process_graph path /\
      forall (i : nat), path !! i = Some "END" -> S i = length path) /\
  (forall e,
      _generate_case_path fuel process_graph g = Raise e ->
      e = KeyError \/ e = IndexError).
Proof.
  unfold _generate_case_path. split.
  - intros path g' H.
    destruct (case_path_loop_inv _ _ _ _ _ _ _ H) as (ext & -> & Hlast & Hwalk & Hend).
    repeat split; try assumption.
    intros i Hi. cbn [app length]. f_equal. exact (Hend i Hi).
  - intros e H. exact (case_path_loop_raises _ _ _ _ _ _ H).
Qed.

Lemma case_path_is_a_walk_from_start_to_end_witness :
  let path := ["START"; "Check Request"; "Approve Request"; "END"] in
  path !! 0 = Some "START" /\ last path = Some "END" /\
  follows_edges two_step_graph path /\
  forall (i : nat), path !! i = Some "END" -> S i = length path.
Proof.
  intros path.
  apply (proj1 (case_path_is_a_walk_from_start_to_end 5 two_step_graph
                  [4; 0; 100; 7; 50]%nat) path [7; 50]%nat).
  vm_compute. reflexivity.
Defined.

(** *** The walk on a layered graph *)

Section WalkOnLayered.
Variable acts : list string.
Variable process_graph : gmap string (list string).
Hypothesis Hlay : layered acts process_graph.

Lemma layered_successors n :
  is_Some (process_graph !! n) -> n <> "END" ->
  exists targets,
    process_graph !! n = Some targets /\ targets <> [] /\
    forall v, v ∈ targets -> is_Some (process_graph !! v).
Proof.
  intros Hn Hne. apply (lay_dom _ _ Hlay) in Hn as [->|[->|Hn]]; [|done|].
  - destruct (lay_start_targets _ _ Hlay) as (targets & Hs & Hnil & Hin).
    exists targets. repeat split; try assumption.
    intros v Hv. apply (lay_dom _ _ Hlay). auto.
  - apply list_elem_of_lookup_1 in Hn as [j Hj].
    destruct (lay_targets _ _ Hlay j n Hj) as (targets & Hs & Hnil & Hin).
    exists targets. repeat split; try assumption.
    intros v Hv. apply (lay_dom _ _ Hlay).
    destruct (Hin v Hv) as [->|(j' & _ & Hj')]; [auto|].
    right; right. eapply list_elem_of_lookup_2, Hj'.
Qed.

Lemma case_path_loop_layered fuel : forall current path g,
  is_Some (process_graph !! current) ->
  S (length acts) <= rank acts current + fuel ->
  exists ext g',
    case_path_loop fuel process_graph current path g = Ok (path ++ ext, g') /\
    rank acts current + length ext <= S (length acts) /\
    Forall (fun v => rank acts current < rank acts v) ext /\ NoDup ext.
Proof.
  induction fuel as [|fuel IH]; intros current path g Hcur Hfuel;
    cbn [case_path_loop].
  - destruct (decide (current = "END")) as [->|Hne].
    + exists [], g. rewrite app_nil_r. rewrite (rank_end acts process_graph Hlay).
      cbn. repeat split; try lia; constructor.
    + exfalso. apply (lay_dom _ _ Hlay) in Hcur as [->|[->|Hn]]; [|done|].
      * rewrite rank_start in Hfuel. lia.
      * apply list_elem_of_lookup_1 in Hn as [j Hj].
        rewrite (rank_act acts process_graph Hlay j current Hj) in Hfuel.
        apply lookup_lt_Some in Hj. lia.
  - destruct (decide (current = "END")) as [->|Hne].
    + exists [], g. rewrite app_nil_r. rewrite (rank_end acts process_graph Hlay).
      cbn. repeat split; try lia; constructor.
    + destruct (layered_successors current Hcur Hne) as (targets & Hg & Hnil & Hdom).
      rewrite Hg.
      destruct (choice_ok targets g Hnil) as (next & g1 & Hc & Hnext).
      rewrite Hc. cbn [rbind].
      assert (Hrank : rank acts current < rank acts next).
      { apply (edge_rank acts process_graph Hlay). exists targets. auto. }
      destruct (IH next (path ++ [next]) g1 (Hdom next Hnext) ltac:(lia))
        as (ext & g' & Hrun & Hlen & Hall & Hnd).
      exists (next :: ext), g'. rewrite <- app_assoc in Hrun.
      split; [exact Hrun|]. cbn [length]. split; [lia|]. split.
      * constructor; [exact Hrank|].
        eapply Forall_impl; [exact Hall|]. cbn. intros v Hv. lia.
      * constructor; [|exact Hnd].
        intros Hin. rewrite Forall_forall in Hall. specialize (Hall _ Hin). lia.
Qed.

Lemma case_path_layered fuel g :
  S (length acts) <= fuel ->
  exists path g',
    _generate_case_path fuel process_graph g = Ok (path, g') /\
    NoDup path /\ length path <= length acts + 2.
Proof.
  intros Hfuel. unfold _generate_case_path.
  destruct (case_path_loop_layered fuel "START" ["START"] g)
    as (ext & g' & Hrun & Hlen & Hall & Hnd).
  - apply (lay_dom _ _ Hlay). auto.
  - lia.
  - exists (["START"] ++ ext), g'. split; [exact Hrun|].
    rewrite rank_start in Hlen. cbn [app length]. split; [|lia].
    constructor; [|exact Hnd].
    intros Hin. rewrite Forall_forall in Hall. specialize (Hall _ Hin). lia.
Qed.

End WalkOnLayered.

(** X15.  On a graph that [generate_process] has returned,
    [_generate_case_path] returns a path whatever the random draws, after
    fewer loop passes than the graph has nodes; the path visits no node
    twice and is no longer than the node list. *)
Theorem case_path_terminates_on_generated_graph (mn mx mc xc : Z)
    (conn : option connector) (r : rng)
    (process_graph : gmap string (list string)) (self' : generator)
    (fuel : nat) (g : rng) :
  generate_process (__init__ mn mx mc xc conn r) = Ok (process_graph, self') ->
  length (nodes self') <= S fuel ->
  exists path g',
    _generate_case_path fuel process_graph g = Ok (path, g') /\
    NoDup path /\ length path <= length (nodes self').
Proof.
  intros Hgen Hfuel.
  destruct (generate_process_returns_layered _ _ _ _ _ _ _ _ Hgen)
    as (_ & acts & Hnodes & Hlay).
  rewrite Hnodes in *. unfold all_nodes in *. cbn [length] in *.
  destruct (case_path_layered acts process_graph Hlay fuel g ltac:(lia))
    as (path & g' & Hrun & Hnd & Hlen).
  exists path, g'. repeat split; try assumption. lia.
Qed.

Lemma case_path_terminates_on_generated_graph_witness :
  exists path g',
    _generate_case_path 4 example_graph [3; 1; 4]%nat = Ok (path, g') /\
    NoDup path /\ length path <= length (nodes example_generator).
Proof.
  apply (case_path_terminates_on_generated_graph 5 5 1 2 None
           [0; 1; 2; 3; 4; 5; 6; 7; 8; 9; 10]%nat example_graph example_generator).
  - exact example_run.
  - vm_compute. lia.
Defined.

(** X16.  If the nodes that can be reached from START (a set closed under
    successors that holds START but not END) are keys of the graph with at
    least one successor each, the loop of [_generate_case_path] never
    ends: every budget of passes is used up. *)
Theorem case_path_never_ends_when_end_is_out_of_reach
    (process_graph : gmap string (list string)) (reach : list string) :
  "START" ∈ reach -> "END" ∉ reach ->
  (forall n, n ∈ reach ->
     exists targets,
       process_graph !! n = Some targets /\ targets <> [] /\
       forall v, v ∈ targets -> v ∈ reach) ->
  forall fuel g, _generate_case_path fuel process_graph g = OutOfFuel.
Proof.
  intros Hstart Hend Hclosed fuel g. unfold _generate_case_path.
  generalize ["START"]. revert g. generalize dependent "START".
  induction fuel as [|fuel IH]; intros current Hcur g path; cbn [case_path_loop].
  - rewrite decide_False by (intros ->; contradiction). reflexivity.
  - rewrite decide_False by (intros ->; contradiction).
    destruct (Hclosed current Hcur) as (targets & -> & Hnil & Hin).
    destruct (choice_ok targets g Hnil) as (next & g1 & -> & Hnext).
    cbn [rbind]. apply IH. auto.
Qed.

(** A graph whose only activity leads back to itself. *)
Definition looping_graph : gmap string (list string) :=
  <["START" := ["Review Form"]]> (<["Review Form" := ["Review Form"]]> (<["END" := []]> ∅)).

Lemma case_path_never_ends_when_end_is_out_of_reach_witness :
  _generate_case_path 1000 looping_graph [3; 1; 4]%nat = OutOfFuel.
Proof.
  apply (case_path_never_ends_when_end_is_out_of_reach looping_graph
           ["START"; "Review Form"]).
  - apply list_elem_of_In. cbn. tauto.
  - intros Hin. apply list_elem_of_In in Hin. cbn in Hin.
    destruct Hin as [H|[H|[]]]; discriminate.
  - intros n Hn. apply list_elem_of_In in Hn. cbn in Hn.
    destruct Hn as [<-|[<-|[]]].
    + exists ["Review Form"]. split; [reflexivity|]. split; [discriminate|].
      intros v Hv. apply list_elem_of_In in Hv. apply list_elem_of_In.
      cbn in *. tauto.
    + exists ["Review Form"]. split; [reflexivity|]. split; [discriminate|].
      intros v Hv. apply list_elem_of_In in Hv. apply list_elem_of_In.
      cbn in *. tauto.
Defined.

Lemma middle_nodes_app l1 l2 :
  middle_nodes (l1 ++ l2) = middle_nodes l1 ++ middle_nodes l2.
Proof. unfold middle_nodes. apply filter_app. Qed.

(** X17.  On a graph that [generate_process] has returned, every case has
    events and its last event is always the same activity: the last node
    of [self.nodes]. *)
Theorem every_case_ends_with_the_last_activity (mn mx mc xc : Z)
    (conn : option connector) (r : rng)
    (process_graph : gmap string (list string)) (self' : generator)
    (fuel : nat) (case_start : datetime) (g : rng)
    (events : list event) (g' : rng) :
  generate_process (__init__ mn mx mc xc conn r) = Ok (process_graph, self') ->
  generate_case fuel process_graph case_start g = Ok (events, g') ->
  exists final,
    last (nodes self') = Some final /\
    activity <$> last events = Some final.
Proof.
  intros Hgen Hcase.
  destruct (generate_process_shape _ _ _ _ _ _ _ _ Hgen)
    as (num & acts & g0 & f & _ & _ & Hlay & Hfun & Hfs & Hfe & Hinj & Hg1 & Hg2
        & Hnodes & _).
  destruct (funnel_final acts g0 f process_graph Hlay Hfun Hfs Hfe Hinj Hg1 Hg2)
    as (final & Hlast & Hfs' & Hfe' & Hfinal & Honly).
  exists final. split; [rewrite Hnodes; exact Hlast|].
  unfold generate_case in Hcase.
  destruct (_generate_case_path fuel process_graph g) as [[path g1]| |] eqn:Hpath;
    cbn [rbind] in Hcase; try discriminate.
  apply path_events_inv in Hcase as (_ & _ & Hacts).
  rewrite <- fmap_last, Hacts.
  unfold _generate_case_path in Hpath.
  destruct (case_path_loop_inv _ _ _ _ _ _ _ Hpath) as (ext & -> & Hend & Hwalk & _).
  destruct (last_Some ("START" :: ext) "END") as [Hsplit _].
  destruct (Hsplit Hend) as [pre Hpre].
  destruct pre as [|s pre]; [discriminate|]. injection Hpre as <- ->.
  assert (exists pre', pre = pre' ++ [final]) as [pre' ->].
  { destruct (last ("START" :: pre)) as [u|] eqn:Hu.
    2:{ apply last_None in Hu. discriminate. }
    apply last_Some in Hu as [front Hfront].
    assert (edge process_graph u "END") as (ts & Hts & Hin).
    { apply (Hwalk (length front)).
      - change ("START" :: pre ++ ["END"]) with (("START" :: pre) ++ ["END"]).
        rewrite Hfront, <- app_assoc.
        rewrite lookup_app_r by lia. rewrite Nat.sub_diag. reflexivity.
      - change ("START" :: pre ++ ["END"]) with (("START" :: pre) ++ ["END"]).
        rewrite Hfront, <- app_assoc.
        rewrite lookup_app_r by lia.
        replace (S (length front) - length front) with 1 by lia. reflexivity. }
    assert (u = final) as -> by (eapply Honly; eauto).
    destruct front as [|s front]; injection Hfront as Hs Hp; [congruence|].
    eauto. }
  rewrite !middle_nodes_app.
  assert (middle_nodes [final] = [final]) as ->.
  { unfold middle_nodes. rewrite filter_cons, decide_True by tauto. reflexivity. }
  assert (middle_nodes ["END"] = []) as ->.
  { unfold middle_nodes. rewrite filter_cons, decide_False by tauto. reflexivity. }
  rewrite app_nil_r, app_assoc. apply last_snoc.
Qed.

Lemma every_case_ends_with_the_last_activity_witness :
  exists final,
    last (nodes example_generator) = Some final /\
    activity <$> last
      [mkevent "Activity_1" (mkdt 738523 9 0 0 0) (mkdt 738523 9 31 0 0) 31;
       mkevent "Activity_3" (mkdt 738523 9 31 0 0) (mkdt 738523 10 6 0 0) 35]
    = Some final.
Proof.
  apply (every_case_ends_with_the_last_activity 5 5 1 2 None
           [0; 1; 2; 3; 4; 5; 6; 7; 8; 9; 10]%nat example_graph example_generator
           4 (datetime_of 2023 1 1 0 0) [3; 1; 4; 1; 5; 9]%nat _ [9]%nat).
  - exact example_run.
  - vm_compute. reflexivity.
Defined.

(** *** The activities of a case on a generated graph *)

(** Along a walk through a layered graph the ranks grow. *)
Lemma walk_ranks acts g path :
  layered acts g -> follows_edges g path ->
  forall (d i : nat) u v,
    path !! i = Some u -> path !! (i + S d) = Some v ->
    rank acts u < rank acts v.
Proof.
  intros Hlay Hwalk. induction d as [|d IH]; intros i u v Hu Hv.
  - rewrite Nat.add_1_r in Hv. apply (edge_rank acts g Hlay). eauto.
  - destruct (lookup_lt_is_Some_2 path (i + S d)) as [w Hw].
    { apply lookup_lt_Some in Hv. lia. }
    specialize (IH i u w Hu Hw).
    replace (i + S (S d)) with (S (i + S d)) in Hv by lia.
    pose proof (edge_rank acts g Hlay w v (Hwalk _ _ _ Hw Hv)). lia.
Qed.

Lemma lookup_between (x y : string) (mid : list string) (i : nat) a :
  mid !! i = Some a -> (x :: mid ++ [y]) !! S i = Some a.
Proof.
  intros Hi. change ((x :: mid ++ [y]) !! S i) with ((mid ++ [y]) !! i).
  rewrite lookup_app_l by (eapply lookup_lt_Some, Hi). exact Hi.
Qed.

(** The form of a walk from START to the first END in a layered graph. *)
Lemma walk_shape acts g path :
  layered acts g ->
  path !! 0 = Some "START" -> last path = Some "END" ->
  follows_edges g path ->
  (forall i : nat, path !! i = Some "END" -> S i = length path) ->
  exists mid,
    path = "START" :: mid ++ ["END"] /\ middle_nodes path = mid /\
    NoDup mid /\ (forall a, a ∈ mid -> a ∈ acts).
Proof.
  intros Hlay H0 Hlast Hwalk Hend.
  pose proof Hlay as [Hnd Hs He _ _ _ _ _ _].
  destruct path as [|s rest]; [discriminate|]. injection H0 as ->.
  apply last_Some in Hlast as [front Hfront].
  destruct front as [|s mid]; [discriminate|]. injection Hfront as <- ->.
  exists mid.
  assert (Hmid : forall a, a ∈ mid -> a ∈ acts).
  { intros a Ha. apply list_elem_of_lookup_1 in Ha as [i Hi].
    destruct (lookup_lt_is_Some_2 ("START" :: mid ++ ["END"]) i) as [u Hu].
    { apply lookup_lt_Some in Hi. cbn [length]. rewrite length_app. lia. }
    pose proof (lookup_between "START" "END" mid i a Hi) as Ha'.
    destruct (edge_cases acts g Hlay u a (Hwalk _ _ _ Hu Ha'))
      as [[_ ?]|(j & _ & [->|(j' & _ & Hj')])]; [assumption| |].
    - specialize (Hend (S i) Ha'). cbn [length] in Hend. rewrite length_app in Hend.
      apply lookup_lt_Some in Hi. cbn in Hend. lia.
    - eapply list_elem_of_lookup_2, Hj'. }
  split; [reflexivity|]. split; [|split; [|exact Hmid]].
  - unfold middle_nodes. rewrite filter_cons, decide_False by tauto.
    rewrite filter_app, filter_cons, decide_False by tauto.
    rewrite filter_nil, app_nil_r. apply filter_all, Forall_forall.
    intros a Ha. specialize (Hmid a Ha). split; intros ->; contradiction.
  - apply NoDup_alt. intros i j a Hi Hj.
    assert (forall i j : nat, i < j -> mid !! i = Some a -> mid !! j = Some a -> False)
      as Hlt.
    { intros i' j' Hij Hi' Hj'.
      pose proof (lookup_between "START" "END" mid i' a Hi') as Hpi.
      assert (("START" :: mid ++ ["END"]) !! (S i' + S (j' - i' - 1)) = Some a) as Hpj.
      { replace (S i' + S (j' - i' - 1)) with (S j') by lia.
        apply lookup_between, Hj'. }
      pose proof (walk_ranks acts g _ Hlay Hwalk _ _ _ _ Hpi Hpj). lia. }
    destruct (Nat.lt_trichotomy i j) as [Hij|[->|Hij]]; [|reflexivity|];
      exfalso; eauto.
Qed.

Lemma generated_case_shape mn mx mc xc conn r process_graph self'
    fuel case_start g events g' :
  generate_process (__init__ mn mx mc xc conn r) = Ok (process_graph, self') ->
  generate_case fuel process_graph case_start g = Ok (events, g') ->
  exists acts,
    nodes self' = all_nodes acts /\ layered acts process_graph /\
    follows_edges process_graph ("START" :: (activity <$> events) ++ ["END"]) /\
    NoDup (activity <$> events) /\
    forall a, a ∈ activity <$> events -> a ∈ acts.
Proof.
  intros Hgen Hcase.
  destruct (generate_process_returns_layered _ _ _ _ _ _ _ _ Hgen)
    as (_ & acts & Hnodes & Hlay).
  exists acts. split; [exact Hnodes|]. split; [exact Hlay|].
  unfold generate_case in Hcase.
  destruct (_generate_case_path fuel process_graph g) as [[path g1]| |] eqn:Hpath;
    cbn [rbind] in Hcase; try discriminate.
  apply path_events_inv in Hcase as (_ & _ & Hacts).
  unfold _generate_case_path in Hpath.
  destruct (case_path_loop_inv _ _ _ _ _ _ _ Hpath) as (ext & -> & Hlast & Hwalk & Hend).
  destruct (walk_shape acts process_graph (["START"] ++ ext) Hlay)
    as (mid & Hshape & Hmid & Hnd & Hin); try assumption; try reflexivity.
  { intros i Hi. cbn [app length]. f_equal. exact (Hend i Hi). }
  change (["START"] ++ ext) with ("START" :: ext) in Hshape.
  rewrite Hacts, Hmid. rewrite Hshape in Hwalk. auto.
Qed.

(** X18.  On a graph that [generate_process] has returned, no activity occurs
    twice among the events of a case; every event names a node of the
    graph, and a case has at least one event and at most as many as the
    graph has activities. *)
Theorem no_activity_occurs_twice_in_a_case (mn mx mc xc : Z)
    (conn : option connector) (r : rng)
    (process_graph : gmap string (list string)) (self' : generator)
    (fuel : nat) (case_start : datetime) (g : rng)
    (events : list event) (g' : rng) :
  generate_process (__init__ mn mx mc xc conn r) = Ok (process_graph, self') ->
  generate_case fuel process_graph case_start g = Ok (events, g') ->
  NoDup (activity <$> events) /\
  (forall e, e ∈ events -> activity e ∈ nodes self') /\
  1 <= length events /\ length events + 2 <= length (nodes self').
Proof.
  intros Hgen Hcase.
  destruct (generated_case_shape _ _ _ _ _ _ _ _ _ _ _ _ _ Hgen Hcase)
    as (acts & Hnodes & Hlay & Hwalk & Hnd & Hin).
  split; [exact Hnd|]. split; [|split].
  - intros e He. rewrite Hnodes. apply in_all_nodes. right; right.
    apply Hin, list_elem_of_fmap. eauto.
  - destruct events as [|e events]; [|cbn; lia].
    exfalso.
    destruct (edge_cases acts _ Hlay "START" "END" (Hwalk 0 _ _ eq_refl eq_refl))
      as [[_ Hc]|(j & Hj & _)].
    + apply (lay_end _ _ Hlay), Hc.
    + apply list_elem_of_lookup_2 in Hj. apply (lay_start _ _ Hlay), Hj.
  - rewrite Hnodes. unfold all_nodes. cbn [length].
    rewrite <- (length_fmap activity).
    assert (length (activity <$> events) <= length acts); [|lia].
    apply submseteq_length, NoDup_submseteq; [exact Hnd|exact Hin].
Qed.

Lemma no_activity_occurs_twice_in_a_case_witness :
  let events :=
    [mkevent "Activity_1" (mkdt 738523 9 0 0 0) (mkdt 738523 9 31 0 0) 31;
     mkevent "Activity_3" (mkdt 738523 9 31 0 0) (mkdt 738523 10 6 0 0) 35] in
  NoDup (activity <$> events) /\
  (forall e, e ∈ events -> activity e ∈ nodes example_generator) /\
  1 <= length events /\ length events + 2 <= length (nodes example_generator).
Proof.
  intros events.
  apply (no_activity_occurs_twice_in_a_case 5 5 1 2 None
           [0; 1; 2; 3; 4; 5; 6; 7; 8; 9; 10]%nat example_graph example_generator
           4 (datetime_of 2023 1 1 0 0) [3; 1; 4; 1; 5; 9]%nat events [9]%nat).
  - exact example_run.
  - vm_compute. reflexivity.
Defined.

(** X19.  On a graph that [generate_process] has returned, the events of a
    case follow the edges of the graph: START leads to the activity of the
    first event, the activity of each event leads to that of the next, and
    the activity of the last event leads to END. *)
Theorem case_follows_the_edges_of_the_graph (mn mx mc xc : Z)
    (conn : option connector) (r : rng)
    (process_graph : gmap string (list string)) (self' : generator)
    (fuel : nat) (case_start : datetime) (g : rng)
    (events : list event) (g' : rng) :
  generate_process (__init__ mn mx mc xc conn r) = Ok (process_graph, self') ->
  generate_case fuel process_graph case_start g = Ok (events, g') ->
  (forall e, events !! 0 = Some e -> edge process_graph "START" (activity e)) /\
  (forall (i : nat) e1 e2,
      events !! i = Some e1 -> events !! S i = Some e2 ->
      edge process_graph (activity e1) (activity e2)) /\
  (forall e, last events = Some e -> edge process_graph (activity e) "END").
Proof.
  intros Hgen Hcase.
  destruct (generated_case_shape _ _ _ _ _ _ _ _ _ _ _ _ _ Hgen Hcase)
    as (acts & _ & _ & Hwalk & _ & _).
  assert (Hact : forall (i : nat) e, events !! i = Some e ->
            ("START" :: (activity <$> events) ++ ["END"]) !! S i = Some (activity e)).
  { intros i e Hi. apply lookup_between. rewrite list_lookup_fmap, Hi. reflexivity. }
  split; [|split].
  - intros e He. apply (Hwalk 0); [reflexivity|]. apply Hact, He.
  - intros i e1 e2 H1 H2. apply (Hwalk (S i)); apply Hact; assumption.
  - intros e He. apply last_Some in He as [front ->].
    apply (Hwalk (S (length front))).
    + apply Hact. rewrite lookup_app_r by lia. rewrite Nat.sub_diag. reflexivity.
    + change (((activity <$> front ++ [e]) ++ ["END"]) !! S (length front) = Some "END").
      rewrite lookup_app_r by (rewrite length_fmap, length_app; cbn; lia).
      rewrite length_fmap, length_app. cbn [length].
      replace (S (length front) - (length front + 1)) with 0 by lia. reflexivity.
Qed.

Lemma case_follows_the_edges_of_the_graph_witness :
  let events :=
    [mkevent "Activity_1" (mkdt 738523 9 0 0 0) (mkdt 738523 9 31 0 0) 31;
     mkevent "Activity_3" (mkdt 738523 9 31 0 0) (mkdt 738523 10 6 0 0) 35] in
  (forall e, events !! 0 = Some e -> edge example_graph "START" (activity e)) /\
  (forall (i : nat) e1 e2,
      events !! i = Some e1 -> events !! S i = Some e2 ->
      edge example_graph (activity e1) (activity e2)) /\
  (forall e, last events = Some e -> edge example_graph (activity e) "END").
Proof.
  intros events.
  apply (case_follows_the_edges_of_the_graph 5 5 1 2 None
           [0; 1; 2; 3; 4; 5; 6; 7; 8; 9; 10]%nat example_graph example_generator
           4 (datetime_of 2023 1 1 0 0) [3; 1; 4; 1; 5; 9]%nat events [9]%nat).
  - exact example_run.
  - vm_compute. reflexivity.
Defined.

Local Open Scope Z_scope.

Lemma naive_instant_returns base d :
  wf base -> 0 <= d <= 1440 -> ordinal base + 1 <= MAXORDINAL ->
  exists n, naive_instant base d = Ok n /\ wf n /\
            ordinal base <= ordinal n <= ordinal base + 1.
Proof.
  intros Hw Hd Hmax. pose proof Hw as (Ho & Hh & Hm & Hs & Hu).
  unfold naive_instant, timedelta_minutes, mk_timedelta.
  assert (Hq : 0 <= d * US_PER_MINUTE / US_PER_DAY <= 1) by euclid.
  destruct (Z.leb_spec (-999999999) (d * US_PER_MINUTE / US_PER_DAY)); [|lia].
  destruct (Z.leb_spec (d * US_PER_MINUTE / US_PER_DAY) 999999999); [|lia].
  cbn [andb rbind]. unfold datetime_add.
  assert (Hord : ordinal base <= (to_us base + d * US_PER_MINUTE) / US_PER_DAY
                 <= ordinal base + 1) by (unfold to_us; euclid).
  destruct (Z.ltb_spec 0 ((to_us base + d * US_PER_MINUTE) / US_PER_DAY)); [|lia].
  destruct (Z.leb_spec ((to_us base + d * US_PER_MINUTE) / US_PER_DAY) MAXORDINAL);
    [|lia].
  cbn [andb]. eexists. split; [reflexivity|]. split.
  - apply wf_of_us. lia.
  - cbn [of_us ordinal]. exact Hord.
Qed.

Lemma generate_timestamp_returns base d :
  wf base -> 0 <= d <= 1440 -> ordinal base + 5 <= MAXORDINAL ->
  exists r, _generate_timestamp base d = Ok r /\ wf r /\
            ordinal r <= ordinal base + 5.
Proof.
  intros Hw Hd Hmax.
  destruct (naive_instant_returns base d Hw Hd ltac:(lia)) as (n & Hn & Hwn & Hon).
  destruct (roll_in_range 0 n Hwn ltac:(lia)) as [r Hr].
  assert (Hgt : _generate_timestamp base d = Ok r).
  { unfold _generate_timestamp, generate_timestamp_fuel. rewrite Hn. exact Hr. }
  exists r. split; [exact Hgt|].
  pose proof (generate_timestamp_spec base d) as Hs. rewrite Hgt in Hs.
  destruct Hs as (Hwr & _). split; [exact Hwr|].
  destruct (generate_timestamp_cases _ _ _ Hgt) as (n' & Hn' & _ & Hcase).
  assert (n' = n) as -> by congruence.
  destruct Hcase as [(_ & ->)|(_ & Hbody)]; [lia|].
  destruct (roll_body_exact _ _ Hwn Hbody) as (_ & _ & Ho & _). lia.
Qed.

Lemma path_events_returns path : forall current_time g,
  wf current_time ->
  ordinal current_time + 10 * Z.of_nat (length path) <= MAXORDINAL ->
  exists events g', path_events path current_time g = Ok (events, g').
Proof.
  induction path as [|a path IH]; intros t g Hw Hmax; cbn [path_events].
  - eauto.
  - cbn [length] in Hmax.
    destruct (decide (a = "START" \/ a = "END")); [apply IH; [assumption|lia]|].
    unfold _generate_activity_attributes.
    destruct (randint_ok 30 480 g ltac:(lia)) as (duration & g1 & -> & Hd).
    cbn [rbind].
    destruct (generate_timestamp_returns t 0 Hw ltac:(lia) ltac:(lia))
      as (ts & -> & Hwts & Hots).
    cbn [rbind].
    destruct (generate_timestamp_returns ts duration Hwts ltac:(lia) ltac:(lia))
      as (cts & -> & Hwcts & Hocts).
    cbn [rbind].
    destruct (IH cts g1 Hwcts ltac:(lia)) as (events & g' & ->).
    cbn [rbind]. eauto.
Qed.

(** X20.  On a graph that [generate_process] has returned, the events of a
    case are produced, without an exception, from every valid starting
    instant that lies at least ten days per node of the graph before the
    end of the calendar. *)
Theorem case_is_produced_on_generated_graph (mn mx mc xc : Z)
    (conn : option connector) (r : rng)
    (process_graph : gmap string (list string)) (self' : generator)
    (fuel : nat) (case_start : datetime) (g : rng) :
  generate_process (__init__ mn mx mc xc conn r) = Ok (process_graph, self') ->
  (length (nodes self') <= S fuel)%nat ->
  wf case_start ->
  ordinal case_start + 10 * Z.of_nat (length (nodes self')) <= MAXORDINAL ->
  exists events g', generate_case fuel process_graph case_start g = Ok (events, g').
Proof.
  intros Hgen Hfuel Hw Hmax.
  destruct (generate_process_returns_layered _ _ _ _ _ _ _ _ Hgen)
    as (_ & acts & Hnodes & Hlay).
  rewrite Hnodes in *. unfold all_nodes in *. cbn [length] in *.
  destruct (case_path_layered acts process_graph Hlay fuel g ltac:(lia))
    as (path & g1 & Hrun & _ & Hlen).
  unfold generate_case. rewrite Hrun. cbn [rbind].
  apply path_events_returns; [exact Hw|lia].
Qed.

Lemma case_is_produced_on_generated_graph_witness :
  exists events g',
    generate_case 4 example_graph (datetime_of 2023 1 1 0 0) [3; 1; 4]%nat
      = Ok (events, g').
Proof.
  apply (case_is_produced_on_generated_graph 5 5 1 2 None
           [0; 1; 2; 3; 4; 5; 6; 7; 8; 9; 10]%nat example_graph example_generator).
  - exact example_run.
  - vm_compute. lia.
  - vm_compute. repeat split; discriminate.
  - vm_compute. discriminate.
Defined.

End CaseWalkFacts.

(** ** The constructor of the data generator *)

Module ProcessDataGeneratorInitFacts.
Import ProcessGenerator ProcessDataGeneratorInit.
Import ProcessGeneratorFacts.

(** [s] consists of white space only (or is empty). *)
Definition blank_string (s : string) : Prop :=
  Forall (fun c => is_space c = true) (String.list_ascii_of_string s).

#[global] Instance blank_string_dec s : Decision (blank_string s).
Proof. unfold blank_string. apply _. Defined.






Lemma words_aux_nil cs : forall word,
  words_aux word cs = [] <-> word = [] /\ Forall (fun c => is_space c = true) cs.
Proof.
  induction cs as [|c cs IH]; intros word; cbn [words_aux].
  - destruct (decide (word = [])); split; try tauto; try discriminate.
    + intros _. split; [assumption|constructor].
  - destruct (is_space c) eqn:Hc.
    + destruct (decide (word = [])) as [->|Hw].
      * rewrite IH. split; intros [_ H]; split; try reflexivity.
        -- constructor; assumption.
        -- inversion H; assumption.
      * split; [discriminate|tauto].
    + rewrite IH. split; [intros [? _]; discriminate|].
      intros [_ H]. inversion H; congruence.
Qed.

Lemma split_whitespace_nil s : split_whitespace s = [] <-> blank_string s.
Proof.
  unfold split_whitespace, blank_string. split.
  - intros H. apply fmap_nil_inv in H. apply words_aux_nil in H. tauto.
  - intros H.
    assert (words_aux [] (String.list_ascii_of_string s) = []) as ->
      by (apply words_aux_nil; tauto).
    reflexivity.
Qed.


Lemma first_word_blank dept :
  blank_string dept -> first_word dept = Raise IndexError.
Proof.
  intros H. apply split_whitespace_nil in H. unfold first_word. rewrite H. reflexivity.
Qed.

Lemma first_word_ok dept :
  ~ blank_string dept -> exists w, first_word dept = Ok w.
Proof.
  intros H. unfold first_word.
  destruct (split_whitespace dept) as [|w ws] eqn:Hs.
  - exfalso. apply H, split_whitespace_nil, Hs.
  - exists w. reflexivity.
Qed.

Lemma prefix_append w s : String.prefix w (w +:+ s) = true.
Proof.
  induction w as [|c w IH]; [destruct s; reflexivity|].
  change (String c w +:+ s) with (String c (w +:+ s)). cbn [String.prefix].
  destruct (Ascii.ascii_dec c c); [exact IH|congruence].
Qed.

Lemma length_agents w n : length (agents w n) = Z.to_nat n.
Proof. unfold agents. rewrite length_fmap, length_seq. reflexivity. Qed.

Lemma agents_prefix w n r : r ∈ agents w n -> String.prefix w r = true.
Proof.
  unfold agents. intros H. apply list_elem_of_fmap in H as (i & -> & _).
  apply prefix_append.
Qed.

(** What [_generate_resources] returns, department by department. *)
Lemma generate_resources_spec departments : forall g,
  if decide (Exists blank_string departments) then
    _generate_resources departments g = Raise IndexError
  else
    exists resources g',
      _generate_resources departments g = Ok (resources, g') /\
      2 * length departments <= length resources <= 3 * length departments /\
      (forall r, r ∈ resources ->
         exists dept w, dept ∈ departments /\ first_word dept = Ok w /\
                        String.prefix w r = true) /\
      (forall dept w, dept ∈ departments -> first_word dept = Ok w ->
         2 <= length (filter (fun r => String.prefix w r = true) resources)).
Proof.
  induction departments as [|dept departments IH]; intros g;
    cbn [_generate_resources].
  - rewrite decide_False by (intros H; inversion H).
    exists [], g. cbn. repeat split; try lia.
    + intros r Hr. inversion Hr.
    + intros dept w Hd. inversion Hd.
  - destruct (randint_ok 2 3 g ltac:(lia)) as (n & g1 & -> & Hn). cbn [rbind].
    destruct (decide (blank_string dept)) as [Hb|Hb].
    + rewrite decide_True by (left; assumption).
      rewrite (first_word_blank _ Hb). reflexivity.
    + destruct (first_word_ok _ Hb) as [w Hw]. rewrite Hw. cbn [rbind].
      specialize (IH g1).
      destruct (decide (Exists blank_string departments)) as [He|He].
      * rewrite decide_True by (right; assumption). rewrite IH. reflexivity.
      * rewrite decide_False by (intros H; inversion H; contradiction).
        destruct IH as (resources & g' & -> & Hlen & Hpre & Hfil). cbn [rbind].
        exists (agents w n ++ resources), g'. split; [reflexivity|].
        rewrite length_app, length_agents. cbn [length]. split; [lia|]. split.
        -- intros r Hr. apply elem_of_app in Hr as [Hr|Hr].
           ++ exists dept, w. split; [left|]. split; [exact Hw|].
              eapply agents_prefix, Hr.
           ++ destruct (Hpre r Hr) as (d' & w' & Hd' & Hw' & Hp).
              exists d', w'. split; [right; exact Hd'|]. auto.
        -- intros d' w' Hd' Hw'. rewrite filter_app, length_app.
           apply elem_of_cons in Hd' as [->|Hd'].
           ++ assert (w' = w) as -> by congruence.
              rewrite (filter_all _ (agents w n)), length_agents; [lia|].
              apply Forall_forall. intros r Hr. eapply agents_prefix, Hr.
           ++ specialize (Hfil d' w' Hd' Hw'). lia.
Qed.


Local Open Scope Z_scope.

(** The range that the comprehension computes at index [i]. *)
Definition range_at (i : nat) : Z * Z :=
  (50 + Z.of_nat i * 20, 150 + Z.of_nat i * 20).

Lemma cost_ranges_from_spec departments : forall (i : nat) ranges dept,
  (dept ∉ departments ->
   cost_ranges_from i departments ranges !! dept = ranges !! dept) /\
  (forall j : nat,
     departments !! j = Some dept ->
     (forall j' : nat, (j < j')%nat -> departments !! j' <> Some dept) ->
     cost_ranges_from i departments ranges !! dept = Some (range_at (i + j))).
Proof.
  induction departments as [|d departments IH]; intros i ranges dept;
    cbn [cost_ranges_from].
  - split; [reflexivity|]. intros j Hj. discriminate.
  - destruct (IH (S i) (<[d := range_at i]> ranges) dept) as [IH1 IH2].
    fold (range_at i). split.
    + intros Hn. apply not_elem_of_cons in Hn as [Hne Hn].
      rewrite (IH1 Hn). apply lookup_insert_ne. congruence.
    + intros [|j] Hj Hlast; cbn in Hj.
      * injection Hj as ->. rewrite IH1.
        -- rewrite lookup_insert_eq. do 2 f_equal. lia.
        -- intros Hin. apply list_elem_of_lookup_1 in Hin as [j' Hj'].
           apply (Hlast (S j')); [lia|exact Hj'].
      * rewrite (IH2 j Hj).
        -- do 2 f_equal. lia.
        -- intros j' Hlt. apply (Hlast (S j')). lia.
Qed.

(** Every list has a last position at which a given member occurs. *)
Lemma last_occurrence (l : list string) x :
  x ∈ l ->
  exists j : nat, l !! j = Some x /\ forall j' : nat, (j < j')%nat -> l !! j' <> Some x.
Proof.
  induction l as [|y l IH]; intros Hin; [inversion Hin|].
  destruct (decide (x ∈ l)) as [Hl|Hl].
  - destruct (IH Hl) as (j & Hj & Hlast). exists (S j). split; [exact Hj|].
    intros [|j'] Hlt; [lia|]. apply Hlast. lia.
  - apply elem_of_cons in Hin as [->|Hin]; [|contradiction].
    exists 0%nat. split; [reflexivity|].
    intros [|j'] Hlt Hj'; [lia|]. apply Hl. eapply list_elem_of_lookup_2, Hj'.
Qed.

Lemma init_inv process_graph num_cases start_date end_date conn process_name g self :
  __init__ process_graph num_cases start_date end_date conn process_name g = Ok self ->
  exists g0,
    _generate_resources (departments self) g0 = Ok (resources self, random self) /\
    cost_ranges self = _generate_default_cost_ranges (departments self) /\
    departments self = (_generate_departments conn).1.
Proof.
  unfold __init__. destruct (_generate_departments conn) as [depts conn'].
  destruct (_generate_resources depts g) as [[res g']| |] eqn:Hres;
    cbn [rbind]; try discriminate.
  intros [= <-]. cbn. eauto.
Qed.

Lemma init_cost_range process_graph num_cases start_date end_date conn process_name
    g self dept :
  __init__ process_graph num_cases start_date end_date conn process_name g = Ok self ->
  dept ∈ departments self ->
  exists i : nat,
    departments self !! i = Some dept /\
    (forall j : nat, (i < j)%nat -> departments self !! j <> Some dept) /\
    cost_ranges self !! dept = Some (range_at i).
Proof.
  intros Hinit Hin. destruct (init_inv _ _ _ _ _ _ _ _ Hinit) as (_ & _ & -> & _).
  destruct (last_occurrence _ _ Hin) as (i & Hi & Hlast).
  exists i. split; [exact Hi|]. split; [exact Hlast|].
  exact (proj2 (cost_ranges_from_spec (departments self) 0 ∅ dept) i Hi Hlast).
Qed.

(** X21.  When the constructor of [ProcessDataGenerator] returns, the keys of
    [cost_ranges] are the departments, and the range of a department is
    [(50 + 20 i, 150 + 20 i)] for the last position [i] at which it occurs
    in [departments]. *)
Theorem every_department_has_a_cost_range
    (process_graph : gmap string (list string)) (num_cases : Z)
    (start_date end_date : datetime) (conn : option ProcessGenerator.connector)
    (process_name : string) (g : rng) (self : data_generator) :
  __init__ process_graph num_cases start_date end_date conn process_name g = Ok self ->
  (forall dept, is_Some (cost_ranges self !! dept) <-> dept ∈ departments self) /\
  (forall dept, dept ∈ departments self ->
     exists i : nat,
       departments self !! i = Some dept /\
       (forall j : nat, (i < j)%nat -> departments self !! j <> Some dept) /\
       cost_ranges self !! dept
         = Some (50 + Z.of_nat i * 20, 150 + Z.of_nat i * 20)).
Proof.
  intros Hinit. split.
  - intros dept. split.
    + intros Hsome. destruct (decide (dept ∈ departments self)) as [|Hn]; [assumption|].
      destruct (init_inv _ _ _ _ _ _ _ _ Hinit) as (_ & _ & Hc & _).
      rewrite Hc in Hsome. unfold _generate_default_cost_ranges in Hsome.
      rewrite (proj1 (cost_ranges_from_spec (departments self) 0 ∅ dept) Hn) in Hsome.
      rewrite lookup_empty in Hsome. destruct Hsome; discriminate.
    + intros Hin. destruct (init_cost_range _ _ _ _ _ _ _ _ _ Hinit Hin)
        as (i & _ & _ & ->). eauto.
  - intros dept Hin. exact (init_cost_range _ _ _ _ _ _ _ _ _ Hinit Hin).
Qed.

(** X22.  When the constructor of [ProcessDataGenerator] returns, there are
    two to three resources per department, and for every department the
    look-ups of [_generate_activity_attributes] succeed: the department
    has a cost range and a first word, and at least two resources start
    with that word, so that [random.choice] never sees an empty list. *)
Theorem every_department_has_resources
    (process_graph : gmap string (list string)) (num_cases : Z)
    (start_date end_date : datetime) (conn : option ProcessGenerator.connector)
    (process_name : string) (g : rng) (self : data_generator) :
  __init__ process_graph num_cases start_date end_date conn process_name g = Ok self ->
  (2 * length (departments self) <= length (resources self)
     <= 3 * length (departments self))%nat /\
  (forall dept, dept ∈ departments self ->
     exists cost_range pool w,
       department_lookups self dept = Ok (cost_range, pool) /\
       first_word dept = Ok w /\ (2 <= length pool)%nat /\
       forall r, r ∈ pool -> r ∈ resources self /\ String.prefix w r = true).
Proof.
  intros Hinit. destruct (init_inv _ _ _ _ _ _ _ _ Hinit) as (g0 & Hres & _ & _).
  pose proof (generate_resources_spec (departments self) g0) as Hspec.
  destruct (decide (Exists blank_string (departments self))) as [|Hnb];
    [congruence|].
  destruct Hspec as (res & g' & Hres' & Hlen & _ & Hfil).
  assert (res = resources self) as -> by congruence.
  split; [exact Hlen|].
  intros dept Hin.
  destruct (init_cost_range _ _ _ _ _ _ _ _ _ Hinit Hin) as (i & _ & _ & Hrange).
  destruct (first_word_ok dept) as [w Hw].
  { intros Hb. apply Hnb, Exists_exists. eauto. }
  specialize (Hfil dept w Hin Hw).
  unfold department_lookups, getitem. rewrite Hrange, Hw. cbn [rbind].
  destruct (decide (filter (fun r => String.prefix w r = true) (resources self) = []))
    as [Hnil|Hnil]; [rewrite Hnil in Hfil; cbn in Hfil; lia|].
  eexists _, _, w. split; [reflexivity|]. split; [reflexivity|]. split; [exact Hfil|].
  intros r Hr. apply list_elem_of_filter in Hr. tauto.
Qed.

(** X23.  Without a connector, or when the request for departments fails, the
    constructor of [ProcessDataGenerator] returns with the five default
    departments, their cost ranges (50, 150) to (130, 230) and ten to
    fifteen resources, each named after the first word of a default
    department. *)
Theorem constructor_falls_back_to_default_departments
    (process_graph : gmap string (list string)) (num_cases : Z)
    (start_date end_date : datetime) (conn : option ProcessGenerator.connector)
    (process_name : string) (g : rng) :
  conn = None \/ (exists c, conn = Some c /\ (get_answer c).1 = None) ->
  exists self,
    __init__ process_graph num_cases start_date end_date conn process_name g = Ok self /\
    departments self = FALLBACK_DEPARTMENTS /\
    cost_ranges self
      = list_to_map [("Sales", (50, 150)); ("Operations", (70, 170));
                     ("Customer Service", (90, 190)); ("Finance", (110, 210));
                     ("Legal", (130, 230))] /\
    (10 <= length (resources self) <= 15)%nat /\
    forall r, r ∈ resources self ->
      exists w, w ∈ ["Sales"; "Operations"; "Customer"; "Finance"; "Legal"] /\
                String.prefix w r = true.
Proof.
  intros Hconn.
  assert (Hd : (_generate_departments conn).1 = FALLBACK_DEPARTMENTS).
  { destruct Hconn as [->|(c & -> & Hc)]; [reflexivity|].
    unfold _generate_departments. destruct (get_answer c) as [[answer|] c'];
      [discriminate|reflexivity]. }
  unfold __init__. destruct (_generate_departments conn) as [depts conn'].
  cbn [fst] in Hd. subst depts.
  pose proof (generate_resources_spec FALLBACK_DEPARTMENTS g) as Hspec.
  rewrite decide_False in Hspec.
  2:{ intros H. apply Exists_exists in H as (d & Hd & Hb).
      apply split_whitespace_nil in Hb.
      unfold FALLBACK_DEPARTMENTS in Hd. apply list_elem_of_In in Hd. cbn in Hd.
      destruct Hd as [<-|[<-|[<-|[<-|[<-|[]]]]]]; discriminate. }
  destruct Hspec as (res & g' & -> & Hlen & Hpre & _). cbn [rbind].
  eexists. split; [reflexivity|]. cbn [departments cost_ranges resources].
  split; [reflexivity|]. split; [reflexivity|]. split; [exact Hlen|].
  intros r Hr. destruct (Hpre r Hr) as (d & w & Hd & Hw & Hp).
  exists w. split; [|exact Hp].
  unfold FALLBACK_DEPARTMENTS in Hd. apply list_elem_of_In in Hd. cbn in Hd.
  apply list_elem_of_In. cbn.
  destruct Hd as [<-|[<-|[<-|[<-|[<-|[]]]]]]; injection Hw as <-; tauto.
Qed.





(** The object that the constructor builds without a connector when the
    random source hands out 0, 1, 0, 1, 0. *)
Definition example_data_generator : data_generator :=
  mkdata ∅ 500 (datetime_of 2023 1 1 0 0) (datetime_of 2023 12 31 0 0)
         "Order Handling" None FALLBACK_DEPARTMENTS
         ["Sales_Agent_1"; "Sales_Agent_2";
          "Operations_Agent_1"; "Operations_Agent_2"; "Operations_Agent_3";
          "Customer_Agent_1"; "Customer_Agent_2";
          "Finance_Agent_1"; "Finance_Agent_2"; "Finance_Agent_3";
          "Legal_Agent_1"; "Legal_Agent_2"]
         (_generate_default_cost_ranges FALLBACK_DEPARTMENTS) [].

Lemma example_init :
  __init__ ∅ 500 (datetime_of 2023 1 1 0 0) (datetime_of 2023 12 31 0 0)
           None "Order Handling" [0; 1; 0; 1; 0]%nat
    = Ok example_data_generator.
Proof. vm_compute. reflexivity. Qed.

Lemma every_department_has_a_cost_range_witness :
  (forall dept, is_Some (cost_ranges example_data_generator !! dept)
                <-> dept ∈ departments example_data_generator) /\
  (forall dept, dept ∈ departments example_data_generator ->
     exists i : nat,
       departments example_data_generator !! i = Some dept /\
       (forall j : nat, (i < j)%nat ->
          departments example_data_generator !! j <> Some dept) /\
       cost_ranges example_data_generator !! dept
         = Some (50 + Z.of_nat i * 20, 150 + Z.of_nat i * 20)).
Proof.
  apply (every_department_has_a_cost_range
           ∅ 500 (datetime_of 2023 1 1 0 0) (datetime_of 2023 12 31 0 0)
           None "Order Handling" [0; 1; 0; 1; 0]%nat).
  exact example_init.
Defined.

Lemma every_department_has_resources_witness :
  (2 * length (departments example_data_generator)
     <= length (resources example_data_generator)
     <= 3 * length (departments example_data_generator))%nat /\
  (forall dept, dept ∈ departments example_data_generator ->
     exists cost_range pool w,
       department_lookups example_data_generator dept = Ok (cost_range, pool) /\
       first_word dept = Ok w /\ (2 <= length pool)%nat /\
       forall r, r ∈ pool ->
         r ∈ resources example_data_generator /\ String.prefix w r = true).
Proof.
  apply (every_department_has_resources
           ∅ 500 (datetime_of 2023 1 1 0 0) (datetime_of 2023 12 31 0 0)
           None "Order Handling" [0; 1; 0; 1; 0]%nat).
  exact example_init.
Defined.

Lemma constructor_falls_back_to_default_departments_witness :
  exists self,
    __init__ ∅ 500 (datetime_of 2023 1 1 0 0) (datetime_of 2023 12 31 0 0)
             (Some [None]) "Order Handling" [0; 1; 0; 1; 0]%nat = Ok self /\
    departments self = FALLBACK_DEPARTMENTS /\
    cost_ranges self
      = list_to_map [("Sales", (50, 150)); ("Operations", (70, 170));
                     ("Customer Service", (90, 190)); ("Finance", (110, 210));
                     ("Legal", (130, 230))] /\
    (10 <= length (resources self) <= 15)%nat /\
    forall r, r ∈ resources self ->
      exists w, w ∈ ["Sales"; "Operations"; "Customer"; "Finance"; "Legal"] /\
                String.prefix w r = true.
Proof.
  apply (constructor_falls_back_to_default_departments
           ∅ 500 (datetime_of 2023 1 1 0 0) (datetime_of 2023 12 31 0 0)
           (Some [None]) "Order Handling" [0; 1; 0; 1; 0]%nat).
  right. exists [None]. split; reflexivity.
Defined.

End ProcessDataGeneratorInitFacts.

(** ** The names *)

Module NameGeneratorFacts.
Import NameGenerator.

(** [s] has no blank in it. *)
Definition one_word (s : string) : Prop :=
  ProcessGenerator.blank ∉ String.list_ascii_of_string s.

#[global] Instance one_word_dec s : Decision (one_word s).
Proof. unfold one_word. apply _. Defined.

Lemma two_words_inj first1 second1 first2 second2 :
  one_word first1 -> one_word first2 ->
  first1 +:+ " " +:+ second1 = first2 +:+ " " +:+ second2 ->
  first1 = first2 /\ second1 = second2.
Proof.
  unfold one_word. revert first2.
  induction first1 as [|c first1 IH]; intros [|c' first2] H1 H2 Heq;
    cbn [String.list_ascii_of_string] in *;
    cbv [String.append] in Heq; fold String.append in Heq.
  - injection Heq as ->. auto.
  - injection Heq as <- _. exfalso. apply H2, elem_of_cons. left. reflexivity.
  - injection Heq as -> _. exfalso. apply H1, elem_of_cons. left. reflexivity.
  - injection Heq as <- Heq.
    destruct (IH first2) as [-> ->]; auto.
    + intros Hin. apply H1, elem_of_cons. right. exact Hin.
    + intros Hin. apply H2, elem_of_cons. right. exact Hin.
Qed.

Lemma names_nodup (firsts seconds : list string) :
  NoDup firsts -> NoDup seconds -> Forall one_word firsts ->
  NoDup (flat_map (fun first => map (fun second => first +:+ " " +:+ second) seconds)
                  firsts).
Proof.
  intros Hf Hs Hw. induction Hf as [|first firsts Hnotin Hf IH]; cbn [flat_map].
  - constructor.
  - inversion Hw as [|? ? Hw1 Hw']; subst.
    apply NoDup_app. split; [|split; [|apply IH, Hw']].
    + apply (NoDup_fmap_2_strong (fun second => first +:+ " " +:+ second));
        [|exact Hs].
      intros x y _ _ Heq. eapply two_words_inj; eauto.
    + intros name Hin1 Hin2.
      apply list_elem_of_In, in_map_iff in Hin1 as (second1 & <- & _).
      apply list_elem_of_In, in_flat_map in Hin2 as (first2 & Hf2 & Hin2).
      apply in_map_iff in Hin2 as (second2 & Heq & _).
      apply list_elem_of_In in Hf2.
      destruct (two_words_inj first2 second2 first second1) as [-> _]; auto.
      rewrite Forall_forall in Hw'. auto.
Qed.

Lemma length_names (firsts seconds : list string) :
  length (flat_map (fun first => map (fun second => first +:+ " " +:+ second) seconds)
                   firsts)
  = length firsts * length seconds.
Proof.
  induction firsts as [|first firsts IH]; cbn [flat_map length]; [reflexivity|].
  rewrite length_app, length_map, IH. reflexivity.
Qed.

(** X25.  [get_all_names] returns [get_total()] names, that is 2500, and no
    name twice. *)
Theorem get_all_names_has_get_total_distinct_names :
  length get_all_names = get_total /\ get_total = 2500 /\ NoDup get_all_names.
Proof.
  split; [apply length_names|]. split; [reflexivity|].
  apply names_nodup.
  - apply (bool_decide_unpack _). vm_compute. reflexivity.
  - apply (bool_decide_unpack _). vm_compute. reflexivity.
  - apply (bool_decide_unpack _). vm_compute. reflexivity.
Qed.

End NameGeneratorFacts.

(** ** Runs of the pool *)

Module PoolFacts.
Import Generator GeneratorFacts.

(** *** The queue that [main] fills *)

(** X26.  The loop with which [main] fills the queue puts the last [total]
    names into it, the last name first, and counts one unfinished task for
    each; it puts all names when [total] is at least their number, and
    never fails when [total] is larger.  With the names and the total of
    [NameGenerator] the queue holds every name, in reverse order. *)
Theorem queue_is_filled_from_the_end_of_the_names (total : nat) (names : list string) :
  items (populate total names new_Queue) = take total (reverse names) /\
  unfinished_tasks (populate total names new_Queue) = total `min` length names /\
  (length names <= total ->
   items (populate total names new_Queue) = reverse names) /\
  items (populate NameGenerator.get_total NameGenerator.get_all_names new_Queue)
    = reverse NameGenerator.get_all_names.
Proof.
  assert (Hitems : forall total names,
            items (populate total names new_Queue) = take total (reverse names)).
  { intros t l. pose proof (populate_items t l new_Queue) as H. exact H. }
  assert (Hall : forall total names, length names <= total ->
            items (populate total names new_Queue) = reverse names).
  { intros t l Hle. rewrite Hitems. apply take_ge. rewrite length_reverse. exact Hle. }
  split; [apply Hitems|]. split; [|split; [apply Hall|]].
  - rewrite populate_unfinished by reflexivity.
    rewrite Hitems, length_take, length_reverse. reflexivity.
  - apply Hall. unfold NameGenerator.get_all_names, NameGenerator.get_total.
    rewrite NameGeneratorFacts.length_names. reflexivity.
Qed.

Lemma queue_is_filled_from_the_end_of_the_names_witness :
  items (populate 5 ["a"; "b"; "c"] new_Queue) = reverse ["a"; "b"; "c"].
Proof.
  apply (proj1 (proj2 (proj2
           (queue_is_filled_from_the_end_of_the_names 5 ["a"; "b"; "c"])))).
  cbn. lia.
Defined.

(** *** Runs that cannot complete *)

Section Blocked.
Variable pipeline : nat -> string -> pipeline_outcome.
Variable jobs : list string.

(** Every worker has ended while items are still queued. *)
Definition abandoned (s : pool) : Prop :=
  Forall (fun w => exists uncaught, w = Finished uncaught) (workers s) /\
  items (name_queue s) <> [].

Lemma abandoned_transition s s' :
  inv pipeline jobs s -> abandoned s -> transition pipeline s s' -> abandoned s'.
Proof.
  intros Hinv [Hdead Hq] Ht.
  assert (forall tid w, workers s !! tid = Some w -> exists u, w = Finished u) as Hw'.
  { intros tid w Hw. rewrite Forall_lookup in Hdead. eauto. }
  destruct Ht as [tid item rest Hw _ | tid Hw _ | tid name n Hw _
                 | tid name Hw _ | i Hpc Hi | i Hpc Hi | Hpc Hu
                 | i u Hpc Hw | i Hpc Hw];
    try (destruct (Hw' _ _ Hw) as [? ?]; discriminate).
  - exfalso. apply lookup_lt_is_Some_2 in Hi as [w Hw].
    destruct (Hw' _ _ Hw) as [u ->].
    assert (workers s !! i = Some NotStarted) as Hns
      by (apply (inv_not_started _ _ s Hinv); exists i; split;
            [exact Hpc|split; [lia|eapply lookup_lt_Some, Hw]]).
    congruence.
  - split; assumption.
  - split; assumption.
  - split; assumption.
  - split; assumption.
Qed.

Lemma abandoned_never_completes schedule s :
  inv pipeline jobs s -> abandoned s ->
  main_at (exec pipeline schedule s) <> AllCompleted.
Proof.
  intros Hinv Hab. pose proof (exec_reachable pipeline schedule s) as Hr.
  induction Hr as [s|s s1 s2 Hstep _ IH].
  - intros Hpc. destruct Hab as [_ Hq].
    destruct (completed_state pipeline jobs s Hinv Hpc) as (Hitems & _).
    contradiction.
  - apply step_transition in Hstep.
    apply IH; [eapply inv_transition|eapply abandoned_transition]; eauto.
Qed.

End Blocked.

(** X27.  Once every worker thread has ended while items are still queued (in
    particular with [num_threads = 0] and a name to process), [main] never
    gets past [name_queue.join()]: no schedule reaches the final line. *)
Theorem main_blocks_forever_once_all_workers_have_ended
    (pipeline : nat -> string -> pipeline_outcome)
    (names : list string) (total num_threads : nat) (schedule more : list actor) :
  let s := exec pipeline schedule (initial names total num_threads) in
  Forall (fun w => exists uncaught, w = Finished uncaught) (workers s) ->
  items (name_queue s) <> [] ->
  main_at (exec pipeline more s) <> AllCompleted.
Proof.
  intros s Hdead Hq.
  apply (abandoned_never_completes pipeline (take total (reverse names))).
  - apply inv_schedule.
  - split; assumption.
Qed.

Lemma main_blocks_forever_once_all_workers_have_ended_witness :
  main_at (exec (failing_on "") (replicate 10 MainThread)
             (exec (failing_on "") [] (initial ["Submit Request"] 1 0)))
    <> AllCompleted.
Proof.
  apply (main_blocks_forever_once_all_workers_have_ended
           (failing_on "") ["Submit Request"] 1 0 [] (replicate 10 MainThread)).
  - constructor.
  - discriminate.
Defined.

(** *** What [except Exception] does not catch *)

(** A pipeline that raises [SystemExit] on one job. *)
Definition exiting_on (bad : string) (thread_id : nat) (process_name : string)
  : pipeline_outcome :=
  if decide (process_name = bad)
  then Failed Rendering "Improved" SystemExit_ ""
  else Completed ("Improved " +:+ process_name).

(** X28.  An exception of the pipeline that is no instance of [Exception]
    ([SystemExit], [KeyboardInterrupt]) is not caught by the worker: no
    error line is printed and the thread ends with that exception; but
    [task_done()] of the [finally] clause has run, so the job counts as
    done and is not queued again, and no other worker is touched. *)
Theorem uncaught_exit_ends_the_worker_after_task_done
    (pipeline : nat -> string -> pipeline_outcome)
    (names : list string) (total num_threads : nat) (schedule : list actor)
    (thread_id : nat) (process_name : string)
    (st : stage) (improved : string) (e : exn) (str_e : string) :
  let s := exec pipeline schedule (initial names total num_threads) in
  workers s !! thread_id = Some (Holding process_name) ->
  pipeline thread_id process_name = Failed st improved e str_e ->
  is_Exception e = false ->
  let s' := exec pipeline [Worker thread_id] s in
  workers s' !! thread_id = Some (Finished (Some e)) /\
  (forall j, j <> thread_id -> workers s' !! j = workers s !! j) /\
  items (name_queue s') = items (name_queue s) /\
  unfinished_tasks (name_queue s) = S (unfinished_tasks (name_queue s')) /\
  handled s' = handled s ++ [(thread_id, process_name)] /\
  stdout s' =
    stdout s ++ (if created_printed st then [created_line thread_id improved] else []).
Proof.
  intros s Hw Hp He s'.
  pose proof (inv_schedule pipeline names total num_threads schedule) as Hinv.
  fold s in Hinv.
  pose proof (holding_is_held _ _ _ Hw) as Hheld.
  pose proof (inv_unfinished _ _ _ Hinv) as Hunf.
  destruct (unfinished_tasks (name_queue s)) as [|n] eqn:Hu; [lia|].
  assert (s' = set_worker thread_id (Finished (Some e))
                 (set_queue (mkQueue (items (name_queue s)) n)
                    (record_handled thread_id process_name
                       (print (if created_printed st
                               then [created_line thread_id improved] else []) s))))
    as ->.
  { unfold s'. cbn [exec step_of]. unfold step_worker. rewrite Hw.
    unfold job_body. rewrite Hp, He.
    cbn [name_queue record_handled print]. unfold task_done. rewrite Hu.
    reflexivity. }
  cbn [workers set_worker set_queue record_handled print name_queue items
       unfinished_tasks handled stdout].
  split; [|split; [|repeat split]].
  - rewrite (lookup_set_worker _ _ thread_id _ _ Hw).
    rewrite decide_True by reflexivity. reflexivity.
  - intros j Hj. rewrite (lookup_set_worker _ _ j _ _ Hw).
    rewrite decide_False by congruence. reflexivity.
Qed.

Lemma uncaught_exit_ends_the_worker_after_task_done_witness :
  let s := exec (exiting_on "a") [MainThread; Worker 0]
             (initial ["b"; "a"] 2 1) in
  let s' := exec (exiting_on "a") [Worker 0] s in
  workers s' !! 0 = Some (Finished (Some SystemExit_)) /\
  (forall j, j <> 0 -> workers s' !! j = workers s !! j) /\
  items (name_queue s') = items (name_queue s) /\
  unfinished_tasks (name_queue s) = S (unfinished_tasks (name_queue s')) /\
  handled s' = handled s ++ [(0, "a")] /\
  stdout s' =
    stdout s ++ (if created_printed Rendering then [created_line 0 "Improved"] else []).
Proof.
  apply (uncaught_exit_ends_the_worker_after_task_done (exiting_on "a")
           ["b"; "a"] 2 1 [MainThread; Worker 0] 0 "a" Rendering "Improved"
           SystemExit_ ""); reflexivity.
Defined.

(** *** Every run stops *)

Lemma total_weight_not_started n :
  total_weight (replicate n NotStarted) = n.
Proof. induction n as [|n IH]; cbn; [reflexivity|rewrite IH; reflexivity]. Qed.

(** X29.  Every run of [main] and its workers, under every schedule and every
    behaviour of the pipeline, takes at most three steps per job, three
    per worker and three more. *)
Theorem every_run_of_the_pool_is_bounded
    (pipeline : nat -> string -> pipeline_outcome)
    (names : list string) (total num_threads : nat) (n : nat) (s' : pool) :
  nsteps (step pipeline) n (initial names total num_threads) s' ->
  n <= 3 * length (items (name_queue (initial names total num_threads)))
       + 3 * num_threads + 3.
Proof.
  intros Hn.
  pose proof (nsteps_bounded pipeline (take total (reverse names)) n _ _
                (inv_initial pipeline _ names total num_threads eq_refl) Hn) as Hb.
  assert (measure (initial names total num_threads)
          = 3 * length (items (name_queue (initial names total num_threads)))
            + 3 * num_threads + 3) as Hm.
  { unfold measure. cbn [workers main_at initial name_queue].
    rewrite length_replicate. cbn [main_measure].
    rewrite total_weight_not_started. lia. }
  lia.
Qed.

Lemma every_run_of_the_pool_is_bounded_witness :
  2 <= 3 * length (items (name_queue (initial ["a"; "b"] 2 1))) + 3 * 1 + 3.
Proof.
  apply (every_run_of_the_pool_is_bounded (failing_on "") ["a"; "b"] 2 1 2
           (exec (failing_on "") [MainThread; Worker 0] (initial ["a"; "b"] 2 1))).
  apply (nsteps_l _ _ _ (exec (failing_on "") [MainThread] (initial ["a"; "b"] 2 1))).
  - exists MainThread. reflexivity.
  - apply nsteps_once. exists (Worker 0). reflexivity.
Defined.

(** *** Jobs leave the queue in order *)

Lemma transition_items pipeline s s' :
  transition pipeline s s' ->
  items (name_queue s') = items (name_queue s) \/
  items (name_queue s') = drop 1 (items (name_queue s)).
Proof.
  intros Ht.
  destruct Ht as [tid item rest Hw Hq | tid Hw Hq | tid name n Hw Hu
                 | tid name Hw Hu | i Hpc Hi | i Hpc Hi | Hpc Hu
                 | i u Hpc Hw | i Hpc Hw];
    cbn [name_queue items set_worker set_queue set_main record_handled print];
    auto.
  right. rewrite Hq. reflexivity.
Qed.

Lemma exec_items_suffix pipeline (jobs : list string) schedule : forall s k,
  items (name_queue s) = drop k jobs ->
  exists k', items (name_queue (exec pipeline schedule s)) = drop k' jobs.
Proof.
  induction schedule as [|a schedule IH]; intros s k Hk; cbn [exec]; [eauto|].
  destruct (step_of pipeline a s) as [s1|] eqn:Hstep; cbn [default]; [|eauto].
  assert (transition pipeline s s1) as Ht by (apply step_transition; exists a; exact Hstep).
  destruct (transition_items _ _ _ Ht) as [Hs|Hs].
  - apply (IH s1 k). congruence.
  - apply (IH s1 (S k)). rewrite Hs, Hk, drop_drop. f_equal. lia.
Qed.

(** X30.  Jobs leave the queue in the order in which [main] has put them: at
    every moment of every run the items still queued are the queue as
    filled less its first [k] items, and the jobs handled or in hand are
    those first [k] items. *)
Theorem jobs_are_taken_in_queue_order
    (pipeline : nat -> string -> pipeline_outcome)
    (names : list string) (total num_threads : nat) (schedule : list actor) :
  let jobs := items (name_queue (initial names total num_threads)) in
  let s := exec pipeline schedule (initial names total num_threads) in
  exists k,
    items (name_queue s) = drop k jobs /\
    (handled s).*2 ++ held s ≡ₚ take k jobs.
Proof.
  intros jobs s.
  destruct (exec_items_suffix pipeline jobs schedule
              (initial names total num_threads) 0 eq_refl) as [k Hk].
  fold s in Hk.
  exists k. split; [exact Hk|].
  pose proof (inv_schedule pipeline names total num_threads schedule) as Hinv.
  pose proof (inv_jobs _ _ _ Hinv) as Hj. fold s in Hj. rewrite Hk in Hj.
  rewrite <- (initial_items names total num_threads) in Hj. fold jobs in Hj.
  apply (Permutation_app_inv_r (drop k jobs)).
  rewrite take_drop, <- app_assoc. exact Hj.
Qed.

End PoolFacts.
